(** * telegram_signal_executor: signal extraction and position sizing

    A shallow embedding of [parse_number], [normalize_instrument],
    [parse_signals] and [calc_units] of [telegram_signal_executor.py],
    and of [log_trade], [execute_order] and the message handler as
    programs over the calls they make.

    - Python [str] is modelled as [list ascii]; a character is read as the
      code point U+0000..U+00FF of the same number.
    - Python [float] is IEEE 754 binary64, modelled with the Standard
      Library's [spec_float] at precision 53 and maximal exponent 1024.
    - Python exceptions are modelled by the [result] monad.
    - The [re] module is modelled by a backtracking matcher over the
      fragment of regular expressions the program uses. *)

From Stdlib Require Import ZArith NArith List Ascii String Bool Lia.
From Stdlib Require Import Floats.SpecFloat.
Import ListNotations.

Local Open Scope Z_scope.

(* ===================================================================== *)
(** ** Strings *)
(* ===================================================================== *)

Definition str := list ascii.

(** A literal of the source. *)
Definition lit (s : string) : str := list_ascii_of_string s.
Arguments lit : simpl never.

Definition code (c : ascii) : N := N_of_ascii c.

Definition in_range (lo hi : N) (c : ascii) : bool :=
  (N.leb lo (code c) && N.leb (code c) hi)%bool.

Definition chr_eqb (a b : ascii) : bool := N.eqb (code a) (code b).

Fixpoint str_eqb (a b : str) : bool :=
  match a, b with
  | [], [] => true
  | x :: a', y :: b' => chr_eqb x y && str_eqb a' b'
  | _, _ => false
  end.

(** [\d]: within U+0000..U+00FF the decimal digits are 0-9. *)
Definition is_digit (c : ascii) : bool := in_range 48 57 c.

(** [[A-Za-z]]. *)
Definition is_alpha (c : ascii) : bool :=
  in_range 65 90 c || in_range 97 122 c.

(** [[A-Za-z0-9]]. *)
Definition is_alnum (c : ascii) : bool := is_alpha c || is_digit c.

(** [\s] and [str.isspace]: tab..carriage return, the separators
    U+001C..U+001F, space, U+0085 and U+00A0. *)
Definition is_space (c : ascii) : bool :=
  in_range 9 13 c || in_range 28 32 c
  || N.eqb (code c) 133 || N.eqb (code c) 160.

(** [\w]: alphanumeric code points and the underscore. *)
Definition is_word (c : ascii) : bool :=
  is_alnum c || N.eqb (code c) 95
  || N.eqb (code c) 170 || N.eqb (code c) 178 || N.eqb (code c) 179
  || N.eqb (code c) 181 || N.eqb (code c) 185 || N.eqb (code c) 186
  || in_range 188 190 c || in_range 192 214 c
  || in_range 216 246 c || in_range 248 255 c.

(** [str.lower] on one character. *)
Definition lower_chr (c : ascii) : ascii :=
  if in_range 65 90 c || in_range 192 214 c || in_range 216 222 c
  then ascii_of_N (code c + 32)
  else c.

Definition lower (s : str) : str := map lower_chr s.

(** [s.replace(c, "")] for a one-character [c]. *)
Definition remove_chr (c : ascii) (s : str) : str :=
  filter (fun x => negb (chr_eqb x c)) s.

(** [s.replace(c, d)] for one-character [c] and [d]. *)
Definition replace_chr (c d : ascii) (s : str) : str :=
  map (fun x => if chr_eqb x c then d else x) s.

Fixpoint lstrip (s : str) : str :=
  match s with
  | c :: s' => if is_space c then lstrip s' else s
  | [] => []
  end.

Definition rstrip (s : str) : str := rev (lstrip (rev s)).

(** [s.strip()]. *)
Definition strip (s : str) : str := rstrip (lstrip s).

Fixpoint starts_with (p s : str) : bool :=
  match p, s with
  | [], _ => true
  | x :: p', y :: s' => chr_eqb x y && starts_with p' s'
  | _ :: _, [] => false
  end.

(** [p in s] for strings. *)
Fixpoint contains (p s : str) : bool :=
  starts_with p s ||
  match s with
  | [] => false
  | _ :: s' => contains p s'
  end.

(* ===================================================================== *)
(** ** Exceptions *)
(* ===================================================================== *)

Inductive exn := ValueError | OverflowError | ZeroDivisionError.

Inductive result (A : Type) :=
| Ok (a : A)
| Raise (e : exn).
Arguments Ok {A} a.
Arguments Raise {A} e.

Definition bind {A B} (x : result A) (f : A -> result B) : result B :=
  match x with
  | Ok a => f a
  | Raise e => Raise e
  end.

Notation "x <- c ;; k" := (bind c (fun x => k))
  (at level 61, c at next level, right associativity).

(** [try: c  except: handler] with a handler that catches everything. *)
Definition try_except {A} (c : result A) (handler : A) : A :=
  match c with
  | Ok a => a
  | Raise _ => handler
  end.

(* ===================================================================== *)
(** ** Floats *)
(* ===================================================================== *)

Definition float := spec_float.
Definition prec : Z := 53.
Definition emax : Z := 1024.

Definition fmul : float -> float -> float := SFmul prec emax.
Definition fsub : float -> float -> float := SFsub prec emax.
Definition fabs : float -> float := SFabs.
Definition fneg : float -> float := SFopp.

(** [x == 0] for a float [x]. *)
Definition is_zero (x : float) : bool := SFeqb x (S754_zero false).

(** [x / y]: division by zero raises. *)
Definition fdiv (x y : float) : result float :=
  if is_zero y then Raise ZeroDivisionError else Ok (SFdiv prec emax x y).

(** [int(x)]: truncation toward zero; NaN and the infinities raise. *)
Definition py_int (x : float) : result Z :=
  match x with
  | S754_nan => Raise ValueError
  | S754_infinity _ => Raise OverflowError
  | S754_zero _ => Ok 0
  | S754_finite s m e => Ok (cond_Zopp s (Z.shiftl (Zpos m) e))
  end.

(** The float nearest to the integer [n]. *)
Definition float_of_Z (n : Z) : float := binary_normalize prec emax n 0 false.

(** The float nearest to [m * 10^e], for [0 <= m], with the given sign:
    what a decimal literal denotes. *)
Definition float_of_decimal (neg : bool) (m : Z) (e : Z) : float :=
  match m with
  | Zpos p =>
      if 0 <=? e
      then binary_normalize prec emax (cond_Zopp neg (Zpos p * 10 ^ e)) 0 false
      else SFdiv prec emax (S754_finite neg p 0)
                           (S754_finite false (Z.to_pos (10 ^ (- e))) 0)
  | _ => S754_zero neg
  end.

(* ===================================================================== *)
(** ** [float(s)] on a string *)
(* ===================================================================== *)

Definition digit_val (c : ascii) : Z := Z.of_N (code c) - 48.

(** A run of digits, read into the accumulator [acc]; returns the value,
    the number of digits read and the rest. *)
Fixpoint read_digits (acc : Z) (n : Z) (s : str) : Z * Z * str :=
  match s with
  | c :: s' => if is_digit c then read_digits (acc * 10 + digit_val c) (n + 1) s'
               else (acc, n, s)
  | [] => (acc, n, s)
  end.

(** Underscores of a numeric literal: allowed only between two digits.
    Returns the string without them, or [None] when one is misplaced. *)
Fixpoint strip_underscores (prev : option ascii) (s : str) : option str :=
  match s with
  | [] => match prev with
          | Some p => if chr_eqb p "_" then None else Some []
          | None => Some []
          end
  | c :: s' =>
      if chr_eqb c "_"
      then match prev with
           | Some p => if is_digit p then strip_underscores (Some c) s' else None
           | None => None
           end
      else
        let bad := match prev with
                   | Some p => chr_eqb p "_" && negb (is_digit c)
                   | None => false
                   end in
        if bad then None
        else option_map (cons c) (strip_underscores (Some c) s')
  end.

Definition read_sign (s : str) : bool * str :=
  match s with
  | c :: s' => if chr_eqb c "-" then (true, s')
               else if chr_eqb c "+" then (false, s')
               else (false, s)
  | [] => (false, s)
  end.

(** The optional exponent part: returns the exponent and the rest; a
    malformed exponent is left unread. *)
Definition read_exponent (s : str) : Z * str :=
  match s with
  | c :: s' =>
      if chr_eqb (lower_chr c) "e"
      then let '(neg, s'') := read_sign s' in
           let '(v, n, rest) := read_digits 0 0 s'' in
           if n =? 0 then (0, s) else (cond_Zopp neg v, rest)
      else (0, s)
  | [] => (0, s)
  end.

(** The body of a float literal after the sign. *)
Definition read_unsigned (neg : bool) (s : str) : result float :=
  let low := lower s in
  if str_eqb low (lit "inf") || str_eqb low (lit "infinity")
  then Ok (S754_infinity neg)
  else if str_eqb low (lit "nan") then Ok S754_nan
  else
    let '(ip, ni, s1) := read_digits 0 0 s in
    let '(m, nf, s2) :=
      match s1 with
      | c :: s1' => if chr_eqb c "." then
                      let '(m, nf, s2) := read_digits ip 0 s1' in (m, nf, s2)
                    else (ip, 0, s1)
      | [] => (ip, 0, s1)
      end in
    if ni + nf =? 0 then Raise ValueError
    else
      let '(ex, s3) := read_exponent s2 in
      match s3 with
      | [] => Ok (float_of_decimal neg m (ex - nf))
      | _ :: _ => Raise ValueError
      end.

(** The whitespace [float] passes over at the two ends of a string: tab
    to carriage return, space, U+0085 and U+00A0.  Unlike [str.strip] it
    leaves the separators U+001C..U+001F in place. *)
Definition is_float_space (c : ascii) : bool :=
  in_range 9 13 c || N.eqb (code c) 32
  || N.eqb (code c) 133 || N.eqb (code c) 160.

Fixpoint float_lstrip (s : str) : str :=
  match s with
  | c :: s' => if is_float_space c then float_lstrip s' else s
  | [] => []
  end.

Definition float_strip (s : str) : str :=
  rev (float_lstrip (rev (float_lstrip s))).

(** [float(s)] for a string [s]: surrounding whitespace is ignored, the
    whole of the rest has to be one literal. *)
Definition py_float (s : str) : result float :=
  match strip_underscores None (float_strip s) with
  | None => Raise ValueError
  | Some s' => let '(neg, body) := read_sign s' in read_unsigned neg body
  end.

(** [parse_number] *)
Definition parse_number (s : str) : result float :=
  let s := strip (remove_chr "," s) in
  py_float s.

(* ===================================================================== *)
(** ** Regular expressions *)
(* ===================================================================== *)

(** The fragment of [re] the program uses.  Every repetition in the source
    ranges over a single character class, so [Rep] takes a class. *)
Inductive regex :=
| Eps
| Chr (p : ascii -> bool)                          (* one character of a class *)
| Seq (r1 r2 : regex)
| Alt (r1 r2 : regex)                              (* r1|r2, r1 tried first *)
| Opt (r : regex)                                  (* r?, greedy *)
| Rep (p : ascii -> bool) (lo : nat) (hi : option nat)  (* [p]{lo,hi}, greedy *)
| Grp (n : nat) (r : regex)                        (* capturing group n *)
| Bnd.                                             (* \b *)

(** The text captured by each group that took part in the match. *)
Definition groups := list (nat * str).

Fixpoint group (n : nat) (g : groups) : option str :=
  match g with
  | [] => None
  | (i, s) :: g' => if Nat.eqb i n then Some s else group n g'
  end.

(** A character of the pattern. *)
Definition chr (c : ascii) : regex := Chr (fun x => chr_eqb x c).

(** A character of the pattern under [re.I]. *)
Definition chr_i (c : ascii) : regex :=
  Chr (fun x => chr_eqb (lower_chr x) (lower_chr c)).

(** A literal string of the pattern, and the same under [re.I]. *)
Fixpoint lit_re (s : str) : regex :=
  match s with
  | [] => Eps
  | [c] => chr c
  | c :: s' => Seq (chr c) (lit_re s')
  end.

Fixpoint lit_i (s : str) : regex :=
  match s with
  | [] => Eps
  | [c] => chr_i c
  | c :: s' => Seq (chr_i c) (lit_i s')
  end.

Definition word_opt (c : option ascii) : bool :=
  match c with
  | Some x => is_word x
  | None => false
  end.

Section Matcher.
Context {A : Type}.

(** A continuation receives the character before the current position,
    the text still to read and the groups captured so far. *)
Definition cont := option ascii -> str -> groups -> option A.

(** Greedy repetition of a class: one more character first, then fewer. *)
Fixpoint rep (p : ascii -> bool) (lo : nat) (hi : option nat)
         (prev : option ascii) (s : str)
         (k : option ascii -> str -> option A) {struct s} : option A :=
  let stop := match lo with O => k prev s | S _ => None end in
  match s with
  | c :: s' =>
      if p c && match hi with Some O => false | _ => true end
      then match rep p (Nat.pred lo) (option_map Nat.pred hi) (Some c) s' k with
           | Some a => Some a
           | None => stop
           end
      else stop
  | [] => stop
  end.

(** Backtracking match of [r] at the head of [s]. *)
Fixpoint run (r : regex) (prev : option ascii) (s : str) (g : groups)
         (k : cont) {struct r} : option A :=
  match r with
  | Eps => k prev s g
  | Chr p =>
      match s with
      | c :: s' => if p c then k (Some c) s' g else None
      | [] => None
      end
  | Seq r1 r2 => run r1 prev s g (fun prev' s' g' => run r2 prev' s' g' k)
  | Alt r1 r2 =>
      match run r1 prev s g k with
      | Some a => Some a
      | None => run r2 prev s g k
      end
  | Opt r1 =>
      match run r1 prev s g k with
      | Some a => Some a
      | None => k prev s g
      end
  | Rep p lo hi => rep p lo hi prev s (fun prev' s' => k prev' s' g)
  | Grp n r1 =>
      run r1 prev s g
          (fun prev' s' g' =>
             k prev' s' ((n, firstn (List.length s - List.length s') s) :: g'))
  | Bnd =>
      if xorb (word_opt prev) (word_opt (hd_error s)) then k prev s g else None
  end.
End Matcher.

(** A match object: [start()], [end()], [group(0)] and the groups. *)
Record re_match := {
  m_start : nat;
  m_end : nat;
  m_text : str;
  m_groups : groups
}.

(** [m.group(n)] for [n >= 1]; [None] when the group took no part. *)
Definition m_group (n : nat) (m : re_match) : option str := group n (m_groups m).

(** The match of [r] that starts exactly at the head of [s]. *)
Definition match_here (r : regex) (prev : option ascii) (s : str)
  : option (option ascii * str * groups) :=
  run r prev s [] (fun prev' s' g' => Some (prev', s', g')).

(** The leftmost match of [r] in [s]; [pos] is the offset of [s] in the
    whole text and [prev] the character before it.  Returns the match with
    the text after it and the character before that. *)
Fixpoint search_from (r : regex) (pos : nat) (prev : option ascii) (s : str)
  : option (re_match * option ascii * str) :=
  match match_here r prev s with
  | Some (prev', rest, g) =>
      let n := (List.length s - List.length rest)%nat in
      Some ({| m_start := pos; m_end := (pos + n)%nat;
               m_text := firstn n s; m_groups := g |}, prev', rest)
  | None =>
      match s with
      | [] => None
      | c :: s' => search_from r (S pos) (Some c) s'
      end
  end.

(** [pattern.search(s)] *)
Definition re_search (r : regex) (s : str) : option re_match :=
  option_map (fun x => fst (fst x)) (search_from r 0%nat None s).

(** [re.finditer(pattern, s)]: the successive leftmost matches, each search
    starting where the previous match ended.  After an empty match the
    scan moves on by one character; the two patterns the program iterates
    both consume at least two characters, so that rule is never used. *)
Fixpoint finditer_from (fuel : nat) (r : regex) (pos : nat)
         (prev : option ascii) (s : str) : list re_match :=
  match fuel with
  | O => []
  | S fuel' =>
      match search_from r pos prev s with
      | None => []
      | Some (m, prev', rest) =>
          if Nat.eqb (m_end m) (m_start m)
          then match rest with
               | [] => [m]
               | c :: rest' =>
                   m :: finditer_from fuel' r (S (m_end m)) (Some c) rest'
               end
          else m :: finditer_from fuel' r (m_end m) prev' rest
      end
  end.

Definition re_finditer (r : regex) (s : str) : list re_match :=
  finditer_from (S (List.length s)) r 0%nat None s.

(** *** The patterns of the program *)

Definition is_num_chr (c : ascii) : bool :=
  is_digit c || chr_eqb c "." || chr_eqb c ",".

(** [[\d.,]+] *)
Definition NUM : regex := Rep is_num_chr 1 None.

(** [\s*] *)
Definition WS : regex := Rep is_space 0 None.

(** [[:=\s]*] *)
Definition SEP : regex :=
  Rep (fun c => chr_eqb c ":" || chr_eqb c "=" || is_space c) 0 None.

(** [SIDE_RE = \b(buy|long|sell|short)\b], re.I *)
Definition SIDE_RE : regex :=
  Seq Bnd
      (Seq (Grp 1 (Alt (lit_i (lit "buy"))
                  (Alt (lit_i (lit "long"))
                  (Alt (lit_i (lit "sell")) (lit_i (lit "short"))))))
           Bnd).

(** [PRICE_RANGE_RE = @?\s*([\d.,]+)\s*(?:-|to|/)\s*([\d.,]+)] *)
Definition PRICE_RANGE_RE : regex :=
  Seq (Opt (chr "@"))
 (Seq WS
 (Seq (Grp 1 NUM)
 (Seq WS
 (Seq (Alt (chr "-") (Alt (lit_re (lit "to")) (chr "/")))
 (Seq WS (Grp 2 NUM)))))).

(** [SL_RE = (?:sl|stoploss|stop loss)[:=\s]*([\d.,]+)], re.I *)
Definition SL_RE : regex :=
  Seq (Alt (lit_i (lit "sl"))
      (Alt (lit_i (lit "stoploss")) (lit_i (lit "stop loss"))))
 (Seq SEP (Grp 1 NUM)).

(** [@?\s*([\d.,]+)] *)
Definition SINGLE_RE : regex :=
  Seq (Opt (chr "@")) (Seq WS (Grp 1 NUM)).

(** [(tp\d*|target)[:=\s]*([\d.,]+)], re.I *)
Definition TP_RE : regex :=
  Seq (Grp 1 (Alt (Seq (lit_i (lit "tp")) (Rep is_digit 0 None))
                  (lit_i (lit "target"))))
 (Seq SEP (Grp 2 NUM)).

(** [#?([A-Za-z]{3,6})([A-Za-z]{3,6})?] *)
Definition TOKEN_RE : regex :=
  Seq (Opt (chr "#"))
 (Seq (Grp 1 (Rep is_alpha 3 (Some 6%nat)))
      (Opt (Grp 2 (Rep is_alpha 3 (Some 6%nat))))).

(** [rf"({token})[^A-Za-z0-9]*([^#]+)"], re.I.  The token is pasted into
    the pattern; the tokens of the program are keys of the instrument map,
    made of letters and digits only, which a pattern reads literally. *)
Definition window_re (token : str) : regex :=
  Seq (Grp 1 (lit_i token))
 (Seq (Rep (fun c => negb (is_alnum c)) 0 None)
      (Grp 2 (Rep (fun c => negb (chr_eqb c "#")) 1 None))).

(* ===================================================================== *)
(** ** The program *)
(* ===================================================================== *)

(** *** Configuration *)

(** [RISK_PER_TRADE = 0.01] *)
Definition RISK_PER_TRADE : float := float_of_decimal false 1 (-2).

(** [DEFAULT_UNITS = 100] *)
Definition DEFAULT_UNITS : Z := 100.

(** [INSTRUMENT_MAP]; a dict keeps the order in which its keys were
    written, and [parse_signals] walks them in that order. *)
Definition INSTRUMENT_MAP : list (str * str) :=
  [ (lit "eurusd", lit "EUR_USD"); (lit "usdjpy", lit "USD_JPY");
    (lit "gbpusd", lit "GBP_USD"); (lit "usdchf", lit "USD_CHF");
    (lit "xauusd", lit "XAU_USD"); (lit "gold", lit "XAU_USD");
    (lit "silver", lit "XAG_USD"); (lit "xagusd", lit "XAG_USD");
    (lit "nas100", lit "NAS100_USD"); (lit "sp500", lit "SPX500_USD");
    (lit "dow", lit "US30_USD") ].

(** [d.get(k)] *)
Fixpoint dict_get (k : str) (d : list (str * str)) : option str :=
  match d with
  | [] => None
  | (k', v) :: d' => if str_eqb k' k then Some v else dict_get k d'
  end.

(** *** TradeSignal *)

Record TradeSignal := {
  side : str;
  instrument : str;
  entry_min : option float;
  entry_max : option float;
  entry : option float;
  sl : option float;
  tps : list float
}.

(** *** Utilities *)

(** [normalize_instrument] *)
Definition normalize_instrument (token : str) : option str :=
  let t := remove_chr "_" (remove_chr "-" (remove_chr " " (lower token))) in
  dict_get t INSTRUMENT_MAP.

(** *** Multi-signal parser *)

Definition pair_eqb (a b : str * str) : bool :=
  str_eqb (fst a) (fst b) && str_eqb (snd a) (snd b).

(** [x in l] for a list of pairs of strings. *)
Definition pair_mem (x : str * str) (l : list (str * str)) : bool :=
  existsb (pair_eqb x) l.

(** The first loop: the keys of the map that occur in the lowered text. *)
Definition key_candidates (txt_low : str) : list (str * str) :=
  filter (fun kv => contains (fst kv) txt_low) INSTRUMENT_MAP.

(** [m.group(n) or ""] *)
Definition group_or_empty (n : nat) (m : re_match) : str :=
  match m_group n m with
  | Some s => s
  | None => []
  end.

(** The second loop: alphabetic runs of the text that normalise to an
    instrument and are not yet candidates. *)
Definition sweep_step (cands : list (str * str)) (m : re_match)
  : list (str * str) :=
  let token := lower (group_or_empty 1 m ++ group_or_empty 2 m) in
  match normalize_instrument token with
  | Some inst =>
      if pair_mem (token, inst) cands then cands else cands ++ [(token, inst)]
  | None => cands
  end.

Definition instrument_candidates (text txt_low : str) : list (str * str) :=
  fold_left sweep_step (re_finditer TOKEN_RE text) (key_candidates txt_low).

(** [parse_number(m.group(n))] *)
Definition group_number (n : nat) (m : re_match) : result float :=
  parse_number (group_or_empty n m).

(** The take-profit scan over [s]: every match, in the order found; a
    match whose number does not convert is passed over. *)
Definition scan_tps (s : str) : list float :=
  flat_map (fun m => try_except (v <- group_number 2 m ;; Ok [v]) [])
           (re_finditer TP_RE s).

(** The entry zone of a window: a range, else a single price, else none. *)
Definition extract_entry (chunk : str)
  : result (option float * option float) :=
  match re_search PRICE_RANGE_RE chunk with
  | Some m_range =>
      lo <- group_number 1 m_range ;;
      hi <- group_number 2 m_range ;;
      Ok (Some lo, Some hi)
  | None =>
      match re_search SINGLE_RE chunk with
      | Some m_single =>
          v <- group_number 1 m_single ;;
          Ok (Some v, Some v)
      | None => Ok (None, None)
      end
  end.

(** The stop-loss of a window. *)
Definition extract_sl (chunk : str) : result (option float) :=
  match re_search SL_RE chunk with
  | Some m_sl => v <- group_number 1 m_sl ;; Ok (Some v)
  | None => Ok None
  end.

(** The side of a window: [None] when it has no directional keyword. *)
Definition extract_side (chunk : str) : option str :=
  match re_search SIDE_RE chunk with
  | Some m_side =>
      let side_raw := lower (group_or_empty 1 m_side) in
      Some (if str_eqb side_raw (lit "buy") || str_eqb side_raw (lit "long")
            then lit "buy" else lit "sell")
  | None => None
  end.

(** The window of a candidate: [pattern.search(txt).group(0)]. *)
Definition window (token txt : str) : option str :=
  option_map m_text (re_search (window_re token) txt).

(** The fields of one window; [None] is the [continue] of a window without
    a side. *)
Definition extract_fields (txt inst chunk : str) : result (option TradeSignal) :=
  match extract_side chunk with
  | None => Ok None
  | Some sd =>
      e <- extract_entry chunk ;;
      stop <- extract_sl chunk ;;
      let tps_chunk := scan_tps chunk in
      let tps_all := match tps_chunk with
                     | [] => scan_tps txt
                     | _ :: _ => tps_chunk
                     end in
      Ok (Some {| side := sd; instrument := inst;
                  entry_min := fst e; entry_max := snd e; entry := None;
                  sl := stop; tps := tps_all |})
  end.

(** One turn of the loop over the candidates. *)
Definition extract_candidate (txt : str) (cand : str * str)
  : result (option TradeSignal) :=
  match window (fst cand) txt with
  | None => Ok None
  | Some chunk => extract_fields txt (snd cand) chunk
  end.

(** The loop over the candidates: an exception in one turn ends it. *)
Fixpoint extract_all (txt : str) (cands : list (str * str))
         (signals : list TradeSignal) : result (list TradeSignal) :=
  match cands with
  | [] => Ok signals
  | cand :: cands' =>
      r <- extract_candidate txt cand ;;
      extract_all txt cands'
                  (match r with
                   | Some sig => signals ++ [sig]
                   | None => signals
                   end)
  end.

(** [parse_signals] *)
Definition parse_signals (text : str) : result (list TradeSignal) :=
  let txt := strip (replace_chr "010" " " text) in
  let txt_low := lower txt in
  extract_all txt (instrument_candidates text txt_low) [].

(** *** Risk sizing *)

(** [not x] for an [Optional[float]]: [None] and zero are false. *)
Definition falsy (x : option float) : bool :=
  match x with
  | None => true
  | Some v => is_zero v
  end.

(** [calc_units] *)
Definition calc_units (balance : float) (signal : TradeSignal) : result Z :=
  if falsy (sl signal) || falsy (entry_min signal) then Ok DEFAULT_UNITS
  else
    match entry_min signal, sl signal with
    | Some entry_price, Some stop_loss =>
        let risk_amount := fmul balance RISK_PER_TRADE in
        let pip_risk := fabs (fsub entry_price stop_loss) in
        if is_zero pip_risk then Ok DEFAULT_UNITS
        else
          units <- fdiv risk_amount pip_risk ;;
          py_int (if str_eqb (side signal) (lit "buy") then units
                  else fneg units)
    | _, _ => Ok DEFAULT_UNITS
    end.


(* ===================================================================== *)
(** * The executor: [log_trade], [execute_order] and the message handler *)
(* ===================================================================== *)

(** The executor talks to Telegram, to the OANDA API, to the clock, to
    the console and to the log file.  A program is modelled as a tree of
    such calls: every call hands its reply, a value or an exception, to the
    rest of the program.  What a reply is lies with the environment; the
    properties hold for every reply.

    One run of the handler is modelled, from its call to its return.
    [BaseException]s that are no [Exception] (a cancelled task, an
    interrupt) are not modelled. *)

(** ** Values *)

(** The exceptions of the executor: those of the pure part, those of
    subscripting and converting a reply, and whatever a library raises. *)
Inductive error :=
| Exn (e : exn)
| KeyError
| TypeError
| LibraryError (what : str).

(** A value or an exception. *)
Inductive outcome (X : Type) :=
| Returned (x : X)
| Raised (e : error).
Arguments Returned {X} x.
Arguments Raised {X} e.

(** A decoded JSON document, as [r.response] holds one. *)
#[warnings="-register-all"]
Inductive json :=
| JNull
| JBool (b : bool)
| JInt (z : Z)
| JFloat (v : float)
| JStr (s : str)
| JList (l : list json)
| JObj (d : list (str * json)).

Fixpoint json_get (key : str) (d : list (str * json)) : option json :=
  match d with
  | [] => None
  | (k, v) :: d' => if str_eqb k key then Some v else json_get key d'
  end.

(** [x[key]] for a string [key]: only a dict can be subscripted by a
    string, and only at a key it has. *)
Definition subscript (x : json) (key : str) : outcome json :=
  match x with
  | JObj d =>
      match json_get key d with
      | Some v => Returned v
      | None => Raised KeyError
      end
  | _ => Raised TypeError
  end.

(** [float(x)] for a decoded JSON value: a string is read as a literal, an
    integer is rounded to the nearest double and raises when it is too
    large, a boolean is 1.0 or 0.0. *)
Definition float_of_json (x : json) : outcome float :=
  match x with
  | JStr s =>
      match py_float s with
      | Ok v => Returned v
      | Raise e => Raised (Exn e)
      end
  | JFloat v => Returned v
  | JInt z =>
      match float_of_Z z with
      | S754_infinity _ => Raised (Exn OverflowError)
      | v => Returned v
      end
  | JBool b => Returned (float_of_Z (if b then 1 else 0))
  | JNull | JList _ | JObj _ => Raised TypeError
  end.

(** [str(n)] for an integer [n]. *)
Fixpoint str_of_uint (d : Decimal.uint) : str :=
  match d with
  | Decimal.Nil => []
  | Decimal.D0 d' => "0"%char :: str_of_uint d'
  | Decimal.D1 d' => "1"%char :: str_of_uint d'
  | Decimal.D2 d' => "2"%char :: str_of_uint d'
  | Decimal.D3 d' => "3"%char :: str_of_uint d'
  | Decimal.D4 d' => "4"%char :: str_of_uint d'
  | Decimal.D5 d' => "5"%char :: str_of_uint d'
  | Decimal.D6 d' => "6"%char :: str_of_uint d'
  | Decimal.D7 d' => "7"%char :: str_of_uint d'
  | Decimal.D8 d' => "8"%char :: str_of_uint d'
  | Decimal.D9 d' => "9"%char :: str_of_uint d'
  end.

Definition str_of_Z (n : Z) : str :=
  match Z.to_int n with
  | Decimal.Pos d => str_of_uint d
  | Decimal.Neg d => "-"%char :: str_of_uint d
  end.

(** [sep.join(parts)] *)
Fixpoint join (sep : str) (parts : list str) : str :=
  match parts with
  | [] => []
  | [p] => p
  | p :: rest => p ++ sep ++ join sep rest
  end.

(** A Telegram chat, as far as the handler looks at it:
    [getattr(chat, "title", None)] and [getattr(chat, "username", None)]. *)
Record chat := {
  title : option str;
  username : option str
}.

(** A new message, as far as the handler looks at it:
    whether [event.message.fwd_from] is set, [event.message.message] and
    [event.chat_id]. *)
Record event := {
  fwd_from : bool;
  message : option str;
  chat_id : Z
}.

(** The order handed to [orders.OrderCreate]: the dict under "order".
    An absent key is [None]; the two optional entries hold the string
    under "price". *)
Record order_data := {
  o_instrument : str;
  o_units : str;
  o_type : str;
  o_positionFill : str;
  o_stopLossOnFill : option str;
  o_takeProfitOnFill : option str
}.

(** A cell handed to [csv.writer]. *)
Inductive cell :=
| CStr (s : str)
| CInt (n : Z)
| CFloat (v : float)
| CNone.

Definition cell_of_opt (x : option float) : cell :=
  match x with
  | Some v => CFloat v
  | None => CNone
  end.

(** What the handler prints. *)
Inductive printed :=
| NewMessage (sender text : str)
| NoSignals
| ParsedSignal (sig : TradeSignal)
| DryRun (source : str) (sig : TradeSignal) (units : Z)
| OrderExecuted (response : json).

(** ** Programs *)

(** The calls to the environment, each with the type of what it
    returns. *)
Inductive op : Type -> Type :=
| GetChat : op chat
| Print (p : printed) : op unit
| NewClient : op unit
| AccountDetails : op json
| OrderCreate (data : order_data) : op json
| IsFile (path : str) : op bool
| OpenAppend (path : str) : op unit
| WriteRow (row : list cell) : op unit
| CloseFile : op unit
| UtcNow : op str.

Inductive prog (A : Type) : Type :=
| Ret (a : A)
| Throw (e : error)
| Call {X : Type} (o : op X) (k : outcome X -> prog A).
Arguments Ret {A} a.
Arguments Throw {A} e.
Arguments Call {A X} o k.

Fixpoint pbind {A B} (p : prog A) (f : A -> prog B) : prog B :=
  match p with
  | Ret a => f a
  | Throw e => Throw e
  | Call o k => Call o (fun r => pbind (k r) f)
  end.

Notation "x <~ c ;; k" := (pbind c (fun x => k))
  (at level 61, c at next level, right associativity).

(** The result of a computation of the program itself. *)
Definition done {A} (r : outcome A) : prog A :=
  match r with
  | Returned a => Ret a
  | Raised e => Throw e
  end.

(** A call: its exception, if any, goes on to the caller. *)
Definition call {X} (o : op X) : prog X := Call o done.

(** A computation of the pure part. *)
Definition pure {A} (c : result A) : prog A :=
  match c with
  | Ok a => Ret a
  | Raise e => Throw (Exn e)
  end.

(** [with ... as f: body]: [fin] runs when [body] is left, by its end or
    by an exception; an exception of [fin] takes the place of the
    outcome. *)
Fixpoint finally {A} (body : prog A) (fin : prog unit) : prog A :=
  match body with
  | Ret a => _ <~ fin ;; Ret a
  | Throw e => _ <~ fin ;; Throw e
  | Call o k => Call o (fun r => finally (k r) fin)
  end.

(** ** Runs *)

(** One call and its reply. *)
Inductive io :=
| Io {X : Type} (o : op X) (r : outcome X).

Definition trace := list io.

(** [runs p t out]: the program [p] can make the calls of [t], with the
    replies of [t], and end with [out]. *)
Fixpoint runs {A} (p : prog A) (t : trace) (out : outcome A) : Prop :=
  match p with
  | Ret a => t = [] /\ out = Returned a
  | Throw e => t = [] /\ out = Raised e
  | Call o k => exists r t', t = Io o r :: t' /\ runs (k r) t' out
  end.

(** ** Configuration *)

Definition DRY_RUN : bool := false.

Definition LOG_FILE : str := lit "trades_log.csv".

Definition ALLOWED_CHATS : list (Z * string) :=
  [ (-1001923416377, "TheForexSupport | Free Forex Signals"%string);
    (-1001949522847, "EU Forex & Gold (XAUUSD) Free"%string);
    (-1001285105872, "EU Forex Signals Free"%string);
    (-1002680963182, "gold cast (1)"%string);
    (-1001289155011, "gold cast (2)"%string);
    (-1001953985322, "SNIPER FREE GOLD (XAUUSD) & FOREX"%string);
    (-1001765226347, "Ben, Gold Trader"%string);
    (-1002011420218, "ALL STAR FOREX"%string) ].

(** [id in ALLOWED_CHATS] *)
Definition allowed (id : Z) : bool :=
  existsb (fun kv => Z.eqb (fst kv) id) ALLOWED_CHATS.

Section Executor.

(** [str(x)] for a float [x] is left open. *)
Variable str_of_float : float -> str.

(** ** [log_trade] *)

Definition log_header : list cell :=
  map (fun s => CStr (lit s))
      [ "timestamp"; "source"; "instrument"; "side"; "units";
        "entry_min"; "entry_max"; "stop_loss"; "take_profits"; "mode" ]%string.

Definition log_row (now : str) (signal : TradeSignal) (source : str)
           (units : Z) (mode : str) : list cell :=
  [ CStr now;
    CStr source;
    CStr (instrument signal);
    CStr (side signal);
    CInt units;
    cell_of_opt (entry_min signal);
    cell_of_opt (entry_max signal);
    cell_of_opt (sl signal);
    CStr (match tps signal with
          | [] => []
          | _ :: _ => join (lit "|") (map str_of_float (tps signal))
          end);
    CStr mode ].

Definition log_trade (signal : TradeSignal) (source : str) (units : Z)
           (mode : str) : prog unit :=
  file_exists <~ call (IsFile LOG_FILE) ;;
  _ <~ call (OpenAppend LOG_FILE) ;;
  finally
    (_ <~ (if negb file_exists then call (WriteRow log_header) else Ret tt) ;;
     now <~ call UtcNow ;;
     call (WriteRow (log_row now signal source units mode)))
    (call CloseFile).

(** ** [execute_order] *)

Definition order_of (signal : TradeSignal) (units : Z) : order_data :=
  {| o_instrument := instrument signal;
     o_units := str_of_Z units;
     o_type := lit "MARKET";
     o_positionFill := lit "DEFAULT";
     o_stopLossOnFill :=
       if falsy (sl signal) then None
       else option_map str_of_float (sl signal);
     o_takeProfitOnFill :=
       match tps signal with
       | [] => None
       | tp :: _ => Some (str_of_float tp)
       end |}.

(** [float(r_acc.response["account"]["balance"])] *)
Definition balance_of (response : json) : outcome float :=
  match subscript response (lit "account") with
  | Returned account =>
      match subscript account (lit "balance") with
      | Returned b => float_of_json b
      | Raised e => Raised e
      end
  | Raised e => Raised e
  end.

Definition execute_order (signal : TradeSignal) (source : str) : prog unit :=
  _ <~ call NewClient ;;
  response <~ call AccountDetails ;;
  balance <~ done (balance_of response) ;;
  units <~ pure (calc_units balance signal) ;;
  let order := order_of signal units in
  if DRY_RUN then
    _ <~ call (Print (DryRun source signal units)) ;;
    log_trade signal source units (lit "DRY_RUN")
  else
    r <~ call (OrderCreate order) ;;
    _ <~ call (Print (OrderExecuted r)) ;;
    log_trade signal source units (lit "LIVE").

(** ** The handler of new messages *)

(** [a or b] for strings that may be [None]. *)
Definition str_or (a : option str) (b : str) : str :=
  match a with
  | Some (c :: s) => c :: s
  | _ => b
  end.

Definition sender_of (c : chat) (id : Z) : str :=
  str_or (title c) (str_or (username c) (str_of_Z id)).

(** The loop over the signals. *)
Fixpoint execute_each (sender : str) (sigs : list TradeSignal) : prog unit :=
  match sigs with
  | [] => Ret tt
  | sig :: sigs' =>
      _ <~ call (Print (ParsedSignal sig)) ;;
      _ <~ execute_order sig sender ;;
      execute_each sender sigs'
  end.

Definition handler (ev : event) : prog unit :=
  if fwd_from ev then Ret tt
  else
    let text := str_or (message ev) [] in
    c <~ call GetChat ;;
    let sender := sender_of c (chat_id ev) in
    if negb (allowed (chat_id ev)) then Ret tt
    else
      _ <~ call (Print (NewMessage sender text)) ;;
      sigs <~ pure (parse_signals text) ;;
      match sigs with
      | [] => call (Print NoSignals)
      | _ :: _ => execute_each sender sigs
      end.

End Executor.
(* ===================================================================== *)
(** * Vocabulary of the properties *)
(* ===================================================================== *)

(** The separators [normalize_instrument] removes. *)
Definition is_sep (c : ascii) : bool :=
  chr_eqb c " " || chr_eqb c "-" || chr_eqb c "_".

(** What [normalize_instrument] looks up. *)
Definition token_key (token : str) : str :=
  remove_chr "_" (remove_chr "-" (remove_chr " " (lower token))).

(** [variant t t']: [t] and [t'] differ only in the casing of their
    characters and in where separators stand. *)
Inductive variant : str -> str -> Prop :=
| variant_nil : variant [] []
| variant_case c c' t t' :
    lower_chr c = lower_chr c' -> variant t t' -> variant (c :: t) (c' :: t')
| variant_sep_l c t t' : is_sep c = true -> variant t t' -> variant (c :: t) t'
| variant_sep_r c t t' : is_sep c = true -> variant t t' -> variant t (c :: t').

(** The distance between entry and stop, as [calc_units] computes it. *)
Definition stop_distance (entry_price stop_loss : float) : float :=
  fabs (fsub entry_price stop_loss).

(** A double: the mantissa is canonical and the exponent in range. *)
Definition is_double (x : float) : Prop := valid_binary prec emax x = true.

(** The sign bit of a float, [false] for NaN. *)
Definition sign_bit (x : float) : bool :=
  match x with
  | S754_zero s | S754_infinity s | S754_finite s _ _ => s
  | S754_nan => false
  end.

(** Neither NaN nor an infinity. *)
Definition is_finite (x : float) : bool :=
  match x with
  | S754_zero _ | S754_finite _ _ _ => true
  | _ => false
  end.

(** The integer part of [|x|] for a finite [x]: [|x|] rounded toward zero. *)
Definition int_part (x : float) : Z :=
  match x with
  | S754_finite _ m e => Z.shiftl (Zpos m) e
  | _ => 0
  end.

(** The quotient [balance * RISK_PER_TRADE / |entry_min - sl|] in double
    arithmetic. *)
Definition risk_quotient (balance entry_price stop_loss : float) : float :=
  SFdiv prec emax (fmul balance RISK_PER_TRADE) (stop_distance entry_price stop_loss).

(** The claim of the specification, as it is written: whenever both
    prices are set and differ, the result has the sign of the side and the
    magnitude of the truncated quotient. *)
Definition sized_as_specified (balance : float) (signal : TradeSignal) : Prop :=
  forall e s,
    entry_min signal = Some e -> sl signal = Some s -> e <> s ->
    exists z,
      calc_units balance signal = Ok z
      /\ Z.abs z = int_part (risk_quotient balance e s)
      /\ (side signal = lit "buy" -> 0 < z)
      /\ (side signal = lit "sell" -> z < 0).

Definition sell_signal : TradeSignal :=
  {| side := lit "sell"; instrument := lit "XAU_USD";
     entry_min := Some (float_of_Z 1950); entry_max := Some (float_of_Z 1950);
     entry := None; sl := Some (float_of_Z 1960); tps := [] |}.

Definition gold_signal : TradeSignal :=
  {| side := lit "buy"; instrument := lit "XAU_USD";
     entry_min := Some (float_of_Z 1950); entry_max := Some (float_of_Z 1950);
     entry := None; sl := Some (float_of_Z 1940);
     tps := [float_of_Z 1960; float_of_Z 1970] |}.

Definition two_windows : str := lit "eurusd sell 1.05 #gold buy 1.2.3 sl 5".


(** ** What a pattern matches *)

(** The character before the position reached after reading [w]. *)
Fixpoint last_chr (prev : option ascii) (w : str) : option ascii :=
  match w with
  | [] => prev
  | c :: w' => last_chr (Some c) w'
  end.

(** [matches r prev w rest g g']: the pattern [r] can read exactly [w],
    with [prev] the character before [w] and [rest] the text after it,
    turning the captured groups [g] into [g'].  Choices are not ordered
    here: this is every way to match, not the one the matcher prefers. *)
Inductive matches :
  regex -> option ascii -> str -> str -> groups -> groups -> Prop :=
| M_Eps prev rest g : matches Eps prev [] rest g g
| M_Chr p c prev rest g :
    p c = true -> matches (Chr p) prev [c] rest g g
| M_Seq r1 r2 prev w1 w2 rest g g1 g2 :
    matches r1 prev w1 (w2 ++ rest) g g1 ->
    matches r2 (last_chr prev w1) w2 rest g1 g2 ->
    matches (Seq r1 r2) prev (w1 ++ w2) rest g g2
| M_AltL r1 r2 prev w rest g g' :
    matches r1 prev w rest g g' -> matches (Alt r1 r2) prev w rest g g'
| M_AltR r1 r2 prev w rest g g' :
    matches r2 prev w rest g g' -> matches (Alt r1 r2) prev w rest g g'
| M_OptSome r prev w rest g g' :
    matches r prev w rest g g' -> matches (Opt r) prev w rest g g'
| M_OptNone r prev rest g : matches (Opt r) prev [] rest g g
| M_Rep p lo hi prev w rest g :
    forallb p w = true ->
    (lo <= List.length w)%nat ->
    (forall h, hi = Some h -> (List.length w <= h)%nat) ->
    matches (Rep p lo hi) prev w rest g g
| M_Grp n r prev w rest g g' :
    matches r prev w rest g g' ->
    matches (Grp n r) prev w rest g ((n, w) :: g')
| M_Bnd prev rest g :
    xorb (word_opt prev) (word_opt (hd_error rest)) = true ->
    matches Bnd prev [] rest g g.

(** [occurs_at r s pre w rest g]: [w] is an occurrence of [r] in [s],
    after [pre] and before [rest], capturing [g]. *)
Definition occurs_at (r : regex) (s pre w rest : str) (g : groups) : Prop :=
  s = pre ++ w ++ rest /\ matches r (last_chr None pre) w rest [] g.

(** ** Directional keywords *)

Definition side_keywords : list str :=
  [lit "buy"; lit "long"; lit "sell"; lit "short"].

(** [w] is a directional keyword, in any casing. *)
Definition is_keyword (w : str) : Prop := In (lower w) side_keywords.

(** [keyword_at chunk pre w post]: [w] is a whole-word occurrence of a
    directional keyword in [chunk], after [pre] and before [post]: no word
    character stands right before it or right after it. *)
Definition keyword_at (chunk pre w post : str) : Prop :=
  chunk = pre ++ w ++ post
  /\ is_keyword w
  /\ word_opt (last_chr None pre) = false
  /\ word_opt (hd_error post) = false.

(** The side a keyword stands for. *)
Definition side_of_keyword (w : str) (sd : str) : Prop :=
  ((lower w = lit "buy" \/ lower w = lit "long") /\ sd = lit "buy")
  \/ ((lower w = lit "sell" \/ lower w = lit "short") /\ sd = lit "sell").

(** ** Windows *)

(** The message on one line, as [parse_signals] reads it: newlines become
    spaces and the ends are trimmed. *)
Definition flatten (text : str) : str := strip (replace_chr "010" " " text).

(** [first_keyword chunk w]: [w] is the first whole-word keyword of
    [chunk]. *)
Definition first_keyword (chunk w : str) : Prop :=
  exists pre post,
    keyword_at chunk pre w post
    /\ forall pre' w' post',
         keyword_at chunk pre' w' post' ->
         (List.length pre <= List.length pre')%nat.

(** ** Entry zone *)

(** A numeral as the patterns read it: a non-empty run of digits, dots
    and commas. *)
Definition numeral (n : str) : Prop :=
  n <> [] /\ forallb is_num_chr n = true.


(** [first_occurrence r s pre w rest g]: [w] is the leftmost occurrence
    of [r] in [s]. *)
Definition first_occurrence (r : regex) (s pre w rest : str) (g : groups)
  : Prop :=
  occurs_at r s pre w rest g
  /\ forall pre' w' rest' g',
       occurs_at r s pre' w' rest' g' ->
       (List.length pre <= List.length pre')%nat.

(** [r] occurs nowhere in [s]. *)
Definition nowhere (r : regex) (s : str) : Prop :=
  forall pre w rest g, ~ occurs_at r s pre w rest g.

(** [entry_rule chunk lo hi]: how the entry zone [(lo, hi)] of a window is
    read off.  With a price range in the window, the first one: [lo] is
    its first numeral and [hi] its second, as they stand in the text.
    Without one, the first single number for both.  Else nothing. *)
Definition entry_rule (chunk : str) (lo hi : option float) : Prop :=
  (exists pre a n1 b n2 post x y,
      first_occurrence PRICE_RANGE_RE chunk pre (a ++ n1 ++ b ++ n2) post
                       [(2%nat, n2); (1%nat, n1)]
      /\ numeral n1 /\ numeral n2
      /\ parse_number n1 = Ok x /\ parse_number n2 = Ok y
      /\ lo = Some x /\ hi = Some y)
  \/ (nowhere PRICE_RANGE_RE chunk
      /\ exists pre a n post v,
           first_occurrence SINGLE_RE chunk pre (a ++ n) post [(1%nat, n)]
           /\ numeral n
           /\ parse_number n = Ok v
           /\ lo = Some v /\ hi = Some v)
  \/ (nowhere PRICE_RANGE_RE chunk /\ nowhere SINGLE_RE chunk
      /\ lo = None /\ hi = None).

(** No capturing group inside. *)
Fixpoint no_groups (r : regex) : bool :=
  match r with
  | Seq r1 r2 | Alt r1 r2 => no_groups r1 && no_groups r2
  | Opt r1 => no_groups r1
  | Grp _ _ => false
  | _ => true
  end.


(** ** Take-profits *)

(** A take-profit label: "tp" with any digits after it, or "target", in
    any casing. *)
Definition tp_label (l : str) : Prop :=
  (exists t d, l = t ++ d /\ lower t = lit "tp" /\ forallb is_digit d = true)
  \/ lower l = lit "target".

(** [tp_mention s m n]: the match [m] is a labelled take-profit of [s]
    with numeral [n]: a label, then any of ":", "=" and whitespace, then
    [n]. *)
Definition tp_mention (s : str) (m : re_match) (n : str) : Prop :=
  exists pre label sep post,
    s = pre ++ (label ++ sep ++ n) ++ post
    /\ m_start m = List.length pre
    /\ m_end m = (List.length pre + List.length (label ++ sep ++ n))%nat
    /\ tp_label label
    /\ forallb (fun c => chr_eqb c ":" || chr_eqb c "=" || is_space c) sep = true
    /\ numeral n.

(** The matches follow one another from [pos] on, left to right, without
    overlap. *)
Fixpoint in_order (pos : nat) (ms : list re_match) : Prop :=
  match ms with
  | [] => True
  | m :: ms' =>
      (pos <= m_start m)%nat /\ (m_start m <= m_end m)%nat
      /\ in_order (m_end m) ms'
  end.

(** The values of the numerals that convert, in the order of the list. *)
Definition converted (ns : list str) : list float :=
  flat_map (fun n => match parse_number n with
                     | Ok v => [v]
                     | Raise _ => []
                     end) ns.

Definition tp_skipped_signal : TradeSignal :=
  {| side := lit "buy"; instrument := lit "XAU_USD";
     entry_min := Some (float_of_Z 1950); entry_max := Some (float_of_Z 1950);
     entry := None; sl := None; tps := [float_of_Z 1970] |}.

(** ** Reading a text through a character map, before a tail *)

(** The newline of a message read as a space. *)
Definition unbreak (c : ascii) : ascii := if chr_eqb c "010" then " "%char else c.

(** The groups with [f] applied to their texts. *)
Definition map_groups (f : ascii -> ascii) (g : groups) : groups :=
  map (fun nt => (fst nt, map f (snd nt))) g.

(** [respects f r]: no class of [r] tells [c] from [f c], and [r] has no
    word boundary. *)
Fixpoint respects (f : ascii -> ascii) (r : regex) : Prop :=
  match r with
  | Eps => True
  | Chr p | Rep p _ _ => forall c, p (f c) = p c
  | Seq r1 r2 | Alt r1 r2 => respects f r1 /\ respects f r2
  | Opt r1 | Grp _ r1 => respects f r1
  | Bnd => False
  end.

(** Both fail, or both succeed with related results. *)
Definition orel {A B} (Q : A -> B -> Prop) (a : option A) (b : option B) : Prop :=
  match a, b with
  | None, None => True
  | Some x, Some y => Q x y
  | _, _ => False
  end.

(** [y] is a proper suffix of [tail]. *)
Definition inside (tail y : str) : Prop :=
  exists pre, pre <> [] /\ tail = pre ++ y.

(** The ends of two matches agree: the texts left to read are the same
    text, before the tail on one side and through [f] on the other, and
    so are the groups. *)
Definition here_rel (f : ascii -> ascii) (tail : str)
           (a b : option ascii * str * groups) : Prop :=
  (exists y, snd (fst a) = y ++ tail /\ snd (fst b) = map f y)
  /\ snd b = map_groups f (snd a).

(** The same for the results of a search: the matches are as long and
    capture the same. *)
Definition search_rel (f : ascii -> ascii) (tail : str)
           (a b : re_match * option ascii * str) : Prop :=
  (exists y, snd a = y ++ tail /\ snd b = map f y)
  /\ m_groups (fst (fst b)) = map_groups f (m_groups (fst (fst a)))
  /\ exists n, m_end (fst (fst a)) = (m_start (fst (fst a)) + n)%nat
               /\ m_end (fst (fst b)) = (m_start (fst (fst b)) + n)%nat.

(** ** Vocabulary of the further properties *)

(** [subseq l1 l2]: [l1] is [l2] with some elements left out. *)
Inductive subseq {X : Type} : list X -> list X -> Prop :=
| subseq_nil : subseq [] []
| subseq_skip x l1 l2 : subseq l1 l2 -> subseq l1 (x :: l2)
| subseq_take x l1 l2 : subseq l1 l2 -> subseq (x :: l1) (x :: l2).

(** No key of the instrument map stands in the lowered one-line text. *)
Definition no_instrument (text : str) : Prop :=
  forall key, In key (map fst INSTRUMENT_MAP) ->
              contains key (lower (flatten text)) = false.

(** A digit or a dot. *)
Definition is_dec_chr (c : ascii) : bool := is_digit c || chr_eqb c ".".

(** What [float] accepts among the strings of digits and dots: at least
    one digit and at most one dot. *)
Definition well_formed_decimal (s : str) : bool :=
  existsb is_digit s
  && Nat.leb (List.length (filter (fun c => chr_eqb c ".") s)) 1.

(** ** Numerals as the patterns read them *)

(** Separators between a label and its number: ":", "=" and whitespace. *)
Definition seps (sep : str) : Prop :=
  forallb (fun c => chr_eqb c ":" || chr_eqb c "=" || is_space c) sep = true.

(** The numeral before [post] runs as far as it can: nothing is left, or
    the next character is no digit, dot or comma. *)
Definition numeral_ends (post : str) : Prop :=
  forall c post', post = c :: post' -> is_num_chr c = false.

(** ** Stop-loss *)

(** A stop-loss label, in any casing. *)
Definition sl_label (l : str) : Prop :=
  In (lower l) [lit "sl"; lit "stoploss"; lit "stop loss"].

(** [sl_at chunk pre label sep n post]: in [chunk], after [pre], stands a
    stop-loss label, then any of ":", "=" and whitespace, then the
    numeral [n].  Nothing is asked of the characters around the label: it
    may be the end of a longer word. *)
Definition sl_at (chunk pre label sep n post : str) : Prop :=
  chunk = pre ++ (label ++ sep ++ n) ++ post
  /\ sl_label label
  /\ forallb (fun c => chr_eqb c ":" || chr_eqb c "=" || is_space c) sep = true
  /\ numeral n.

(** The labelled number as it is read: the numeral taken as far as it
    runs. *)
Definition sl_read (chunk pre label sep n post : str) : Prop :=
  sl_at chunk pre label sep n post /\ numeral_ends post.

(** [sl_rule chunk stop]: the stop-loss [stop] of a window is the value
    of the leftmost labelled number, its numeral taken as far as it runs,
    and is absent when the window has no labelled number. *)
Definition sl_rule (chunk : str) (stop : option float) : Prop :=
  (exists pre label sep n post v,
      sl_read chunk pre label sep n post
      /\ (forall pre' label' sep' n' post',
             sl_at chunk pre' label' sep' n' post' ->
             (List.length pre <= List.length pre')%nat)
      /\ parse_number n = Ok v /\ stop = Some v)
  \/ ((forall pre label sep n post, ~ sl_at chunk pre label sep n post)
      /\ stop = None).

(** A price as the parser can give it: not negative, not NaN. *)
Definition price_like (v : float) : Prop :=
  v <> S754_nan /\ sign_bit v = false.

Definition price_like_opt (x : option float) : Prop :=
  match x with
  | Some v => price_like v
  | None => True
  end.

(** ** Take-profits, one after the other *)

(** [tp_at s pre label sep n post]: in [s], after [pre], stands a
    take-profit label, then separators, then the numeral [n]. *)
Definition tp_at (s pre label sep n post : str) : Prop :=
  s = pre ++ (label ++ sep ++ n) ++ post
  /\ tp_label label /\ seps sep /\ numeral n.

(** The labelled number as it is read at a place: the label as long as
    a labelled number allows, so the digits after "tp" go to the label
    while a numeral is left; the numeral taken as far as it runs. *)
Definition tp_read (s pre label sep n post : str) : Prop :=
  tp_at s pre label sep n post
  /\ numeral_ends post
  /\ forall label' sep' n' post',
       tp_at s pre label' sep' n' post' ->
       (List.length label' <= List.length label)%nat.

(** [tp_scan s pos ns]: [ns] are the numerals of the labelled
    take-profits of [s] read from the offset [pos] on: the leftmost one
    that begins at [pos] or later, then those read from its end on; none
    is passed over, and the scan ends only where no labelled number
    begins any more. *)
Inductive tp_scan (s : str) : nat -> list str -> Prop :=
| tp_scan_end pos :
    (forall pre label sep n post,
        tp_at s pre label sep n post -> (List.length pre < pos)%nat) ->
    tp_scan s pos []
| tp_scan_next pos pre label sep n post ns :
    tp_read s pre label sep n post ->
    (pos <= List.length pre)%nat ->
    (forall pre' label' sep' n' post',
        tp_at s pre' label' sep' n' post' ->
        (pos <= List.length pre')%nat ->
        (List.length pre <= List.length pre')%nat) ->
    tp_scan s (List.length pre + List.length (label ++ sep ++ n)) ns ->
    tp_scan s pos (n :: ns).

(** [tp_rule chunk text tps]: the take-profits of a signal with window
    [chunk] in the message [text] are the values of the numerals of the
    window that convert; when there is none, those of the whole
    message. *)
Definition tp_rule (chunk text : str) (tps : list float) : Prop :=
  exists ns,
    tp_scan chunk 0 ns
    /\ ((converted ns <> [] /\ tps = converted ns)
        \/ (converted ns = []
            /\ exists ns', tp_scan text 0 ns' /\ tps = converted ns')).

(** ** The signals of a message, candidate by candidate *)

(** [reads P txt cands sigs]: [sigs] are the signals of the candidates
    [cands], in their order.  A candidate without a window, or with a
    window that has no directional keyword, gives none; every other
    candidate gives one signal, with its instrument, the side of the
    first keyword of its window, and [P] of the window. *)
Inductive reads (P : str -> TradeSignal -> Prop) (txt : str)
  : list (str * str) -> list TradeSignal -> Prop :=
| reads_nil : reads P txt [] []
| reads_no_window cand cands sigs :
    window (fst cand) txt = None ->
    reads P txt cands sigs -> reads P txt (cand :: cands) sigs
| reads_no_side cand chunk cands sigs :
    window (fst cand) txt = Some chunk ->
    (forall pre w post, ~ keyword_at chunk pre w post) ->
    reads P txt cands sigs -> reads P txt (cand :: cands) sigs
| reads_signal cand chunk w sig cands sigs :
    window (fst cand) txt = Some chunk ->
    first_keyword chunk w ->
    side_of_keyword w (side sig) ->
    instrument sig = snd cand ->
    P chunk sig ->
    reads P txt cands sigs -> reads P txt (cand :: cands) (sig :: sigs).

(** The candidates of a message: the pairs of the instrument map whose
    key stands in the lowered one-line text, in the order of the map. *)
Definition candidates (text : str) : list (str * str) :=
  key_candidates (lower (flatten text)).

(** ** Errors of the parser *)

(** A numeral that [float] refuses: no digit, or more than one dot. *)
Definition ill_formed (n : str) : Prop :=
  numeral n /\ well_formed_decimal (remove_chr "," n) = false.

(** The two numerals of the leftmost price range of a window, the second
    taken as far as it runs. *)
Definition range_read (chunk n1 n2 : str) : Prop :=
  exists pre a b post,
    first_occurrence PRICE_RANGE_RE chunk pre (a ++ n1 ++ b ++ n2) post
                     [(2%nat, n2); (1%nat, n1)]
    /\ numeral n1 /\ numeral n2 /\ numeral_ends post.

(** The numeral of the leftmost single number of a window without a
    price range, taken as far as it runs. *)
Definition single_read (chunk n : str) : Prop :=
  nowhere PRICE_RANGE_RE chunk
  /\ exists pre a post,
       first_occurrence SINGLE_RE chunk pre (a ++ n) post [(1%nat, n)]
       /\ numeral n /\ numeral_ends post.

(** The numeral of the leftmost labelled stop-loss of a window. *)
Definition stop_read (chunk n : str) : Prop :=
  exists pre label sep post,
    sl_read chunk pre label sep n post
    /\ forall pre' label' sep' n' post',
         sl_at chunk pre' label' sep' n' post' ->
         (List.length pre <= List.length pre')%nat.

(** [price_read chunk n]: [n] is a numeral the parser converts for the
    entry or for the stop-loss of the window. *)
Definition price_read (chunk n : str) : Prop :=
  (exists n2, range_read chunk n n2)
  \/ (exists n1, range_read chunk n1 n)
  \/ single_read chunk n
  \/ stop_read chunk n.

(** ** Sizing *)

(** The signal with its entry price and its stop-loss exchanged. *)
Definition swap_stop (signal : TradeSignal) : TradeSignal :=
  {| side := side signal; instrument := instrument signal;
     entry_min := sl signal; entry_max := entry_max signal;
     entry := entry signal; sl := entry_min signal; tps := tps signal |}.

(** ** Traces *)

(** The order of a call to [orders.OrderCreate]. *)
Definition order_request (e : io) : list order_data :=
  match e with
  | Io o _ =>
      match o with
      | OrderCreate d => [d]
      | _ => []
      end
  end.

(** Whether the call returned. *)
Definition returned (e : io) : bool :=
  match e with
  | Io _ (Returned _) => true
  | Io _ (Raised _) => false
  end.

(** The row of a call to [writer.writerow]. *)
Definition row_written (e : io) : list (list cell) :=
  match e with
  | Io o _ =>
      match o with
      | WriteRow row => [row]
      | _ => []
      end
  end.

(** The orders handed to OANDA in a run, in the order of the calls. *)
Definition requested (t : trace) : list order_data := flat_map order_request t.

(** Those of them OANDA took: the call returned. *)
Definition accepted (t : trace) : list order_data :=
  flat_map order_request (filter returned t).

(** The rows handed to the log in a run. *)
Definition written (t : trace) : list (list cell) := flat_map row_written t.

(** The rows the log took. *)
Definition logged (t : trace) : list (list cell) :=
  flat_map row_written (filter returned t).

(** The text the handler parses. *)
Definition text_of (ev : event) : str := str_or (message ev) [].

(** [l1] is a beginning of [l2]. *)
Definition prefix {X} (l1 l2 : list X) : Prop := exists l3, l2 = l1 ++ l3.

(** The rows of one trade in a log that existed ([true]) or not. *)
Definition trade_rows (file_exists : bool) (row : list cell)
  : list (list cell) :=
  (if file_exists then [] else [log_header]) ++ [row].

(** What [os.path.isfile] said in a run. *)
Definition file_report (e : io) : list bool :=
  match e with
  | Io o r =>
      match o in op X return outcome X -> list bool with
      | IsFile _ => fun r => match r with
                             | Returned b => [b]
                             | Raised _ => []
                             end
      | _ => fun _ => []
      end r
  end.

Definition file_reports (t : trace) : list bool := flat_map file_report t.

(** The call opened the log. *)
Definition opens (e : io) : bool :=
  match e with
  | Io o r =>
      match o with
      | OpenAppend _ => returned (Io o r)
      | _ => false
      end
  end.

(** The call closes the log. *)
Definition closes (e : io) : bool :=
  match e with
  | Io o _ =>
      match o with
      | CloseFile => true
      | _ => false
      end
  end.

(** The last call of a run closes the log. *)
Definition closed_last (t : trace) : bool :=
  match rev t with
  | e :: _ => closes e
  | [] => false
  end.

(** The call is [event.get_chat()]. *)
Definition is_get_chat (e : io) : bool :=
  match e with
  | Io o _ =>
      match o with
      | GetChat => true
      | _ => false
      end
  end.

(** The call is [event.get_chat()] or a [print]: it reaches neither
    OANDA nor the log. *)
Definition harmless (e : io) : bool :=
  match e with
  | Io o _ =>
      match o with
      | GetChat | Print _ => true
      | _ => false
      end
  end.

(** The replies of OANDA to the requests for the account. *)
Definition account_reply (e : io) : list json :=
  match e with
  | Io o r =>
      match o in op X return outcome X -> list json with
      | AccountDetails => fun r => match r with
                                   | Returned j => [j]
                                   | Raised _ => []
                                   end
      | _ => fun _ => []
      end r
  end.

Definition account_replies (t : trace) : list json := flat_map account_reply t.

(** A row of the log for [signal]: the header, or the row of the trade at
    some time. *)
Definition row_of (str_of_float : float -> str) (signal : TradeSignal)
           (source : str) (units : Z) (mode : str) (row : list cell) : Prop :=
  row = log_header
  \/ exists now, row = log_row str_of_float now signal source units mode.

(** The order [d] is the order of [signal], for some number of units. *)
Definition order_for (str_of_float : float -> str) (d : order_data)
           (signal : TradeSignal) : Prop :=
  exists units, d = order_of str_of_float signal units.

(** A signal without a stop-loss, to be sold. *)
Definition naked_sell : TradeSignal :=
  {| side := lit "sell"; instrument := lit "XAU_USD";
     entry_min := Some (float_of_Z 1950); entry_max := Some (float_of_Z 1950);
     entry := None; sl := None; tps := [] |}.

(** ** A run *)

(** A stand-in for [str] on floats. *)
Definition blank (v : float) : str := [].

(** An account with a balance of 1000. *)
Definition account_1000 : json :=
  JObj [(lit "account", JObj [(lit "balance", JStr (lit "1000.0"))])].

Definition stamp : str := lit "2024-01-01T00:00:00".

(** [log_trade] on a log that does not exist yet. *)
Definition log_trace (source : str) : trace :=
  [ Io (IsFile LOG_FILE) (Returned false);
    Io (OpenAppend LOG_FILE) (Returned tt);
    Io (WriteRow log_header) (Returned tt);
    Io UtcNow (Returned stamp);
    Io (WriteRow (log_row blank stamp naked_sell source 100 (lit "LIVE")))
       (Returned tt);
    Io CloseFile (Returned tt) ].

(** [execute_order] for [naked_sell], everything going well. *)
Definition order_trace (source : str) : trace :=
  [ Io NewClient (Returned tt);
    Io AccountDetails (Returned account_1000);
    Io (OrderCreate (order_of blank naked_sell 100)) (Returned JNull);
    Io (Print (OrderExecuted JNull)) (Returned tt) ]
  ++ log_trace source.

(** A message of the first allowed chat. *)
Definition sell_event : event :=
  {| fwd_from := false; message := Some (lit "gold sell 1950");
     chat_id := -1001923416377 |}.

Definition signals_chat : chat :=
  {| title := Some (lit "Signals"); username := None |}.

(** The handler on [sell_event], everything going well. *)
Definition sell_trace : trace :=
  [ Io GetChat (Returned signals_chat);
    Io (Print (NewMessage (lit "Signals") (lit "gold sell 1950")))
       (Returned tt);
    Io (Print (ParsedSignal naked_sell)) (Returned tt) ]
  ++ order_trace (lit "Signals").

(** The same message in a chat that is not on the list. *)
Definition stranger_event : event :=
  {| fwd_from := false; message := Some (lit "gold sell 1950");
     chat_id := 42 |}.

(** ** The window of a token *)

(** Nothing is left, or a "#" comes next. *)
Definition at_hash_or_end (rest : str) : Prop :=
  forall c rest', rest = c :: rest' -> c = "#"%char.

(** [window_at token txt pre tok junk body rest]: in [txt], after [pre],
    stands the token in some casing, then characters that are neither
    letters nor digits, then at least one character, none of them "#". *)
Definition window_at (token txt pre tok junk body rest : str) : Prop :=
  txt = pre ++ (tok ++ junk ++ body) ++ rest
  /\ lower tok = lower token
  /\ forallb (fun c => negb (is_alnum c)) junk = true
  /\ body <> []
  /\ forallb (fun c => negb (chr_eqb c "#")) body = true.

(** [window_rule token txt w]: the window [w] of [token] in [txt] starts
    at the leftmost place that has one.  After the token it passes over
    the longest run of characters that are neither letters nor digits,
    "#" among them, that leaves something other than "#" to read, and
    then goes on to the next "#" or to the end of the text. *)
Definition window_rule (token txt : str) (w : option str) : Prop :=
  (exists pre tok junk body rest,
      w = Some (tok ++ junk ++ body)
      /\ window_at token txt pre tok junk body rest
      /\ (forall pre' tok' junk' body' rest',
             window_at token txt pre' tok' junk' body' rest' ->
             (List.length pre <= List.length pre')%nat)
      /\ at_hash_or_end rest
      /\ (forall x y,
             body ++ rest = x ++ y -> x <> [] ->
             forallb (fun c => negb (is_alnum c)) x = true ->
             at_hash_or_end y))
  \/ (w = None
      /\ forall pre tok junk body rest,
           ~ window_at token txt pre tok junk body rest).

(* ===================================================================== *)
(** * Properties *)
(* ===================================================================== *)

(** ** Strings *)

Lemma chr_eqb_eq (a b : ascii) : chr_eqb a b = true <-> a = b.
Proof.
  unfold chr_eqb, code. rewrite N.eqb_eq. split; intro H.
  - rewrite <- (ascii_N_embedding a), <- (ascii_N_embedding b). now f_equal.
  - now subst.
Qed.

Lemma chr_eqb_refl (a : ascii) : chr_eqb a a = true.
Proof. now apply chr_eqb_eq. Qed.

Lemma str_eqb_eq (a b : str) : str_eqb a b = true <-> a = b.
Proof.
  revert b. induction a as [|x a IH]; intros [|y b]; simpl;
    try (split; [discriminate | discriminate]); try tauto.
  rewrite andb_true_iff, chr_eqb_eq, IH. split.
  - intros [-> ->]. reflexivity.
  - intros H. injection H as -> ->. auto.
Qed.

Lemma str_eqb_refl (a : str) : str_eqb a a = true.
Proof. now apply str_eqb_eq. Qed.

Lemma dict_get_None (k : str) (d : list (str * str)) :
  ~ In k (map fst d) -> dict_get k d = None.
Proof.
  induction d as [|[k' v] d IH]; simpl; intros H; [reflexivity|].
  destruct (str_eqb k' k) eqn:E.
  - apply str_eqb_eq in E. tauto.
  - apply IH. tauto.
Qed.

(** ** Normalising instrument tokens *)

Lemma lower_chr_sep (c : ascii) : is_sep (lower_chr c) = is_sep c.
Proof. destruct c as [[] [] [] [] [] [] [] []]; reflexivity. Qed.

Lemma token_key_cons (c : ascii) (t : str) :
  token_key (c :: t) = if is_sep c then token_key t else lower_chr c :: token_key t.
Proof.
  unfold token_key. simpl lower. rewrite <- lower_chr_sep.
  unfold is_sep, remove_chr. simpl.
  destruct (chr_eqb (lower_chr c) " "); simpl; [reflexivity|].
  destruct (chr_eqb (lower_chr c) "-"); simpl; [reflexivity|].
  destruct (chr_eqb (lower_chr c) "_"); reflexivity.
Qed.

Lemma variant_key (t t' : str) : variant t t' -> token_key t = token_key t'.
Proof.
  induction 1 as [|c c' t t' Hc _ IH|c t t' Hc _ IH|c t t' Hc _ IH].
  - reflexivity.
  - rewrite !token_key_cons, <- (lower_chr_sep c), <- (lower_chr_sep c'), Hc, IH.
    reflexivity.
  - rewrite token_key_cons, Hc. exact IH.
  - rewrite token_key_cons, Hc. exact IH.
Qed.

(** C7: tokens that differ only in casing or in space, hyphen and
    underscore separators normalise alike, so a token with a known alias
    shares its canonical symbol with all its variants ("GBP USD",
    "gbp-usd" and "GbpUsd" all give GBP_USD); a token whose key is not in
    the alias table gives [None], and no token raises. *)
Theorem normalize_instrument_variants :
  (forall t t' sym,
      normalize_instrument t = Some sym -> variant t t' ->
      normalize_instrument t' = Some sym)
  /\ normalize_instrument (lit "GBP USD") = Some (lit "GBP_USD")
  /\ normalize_instrument (lit "gbp-usd") = Some (lit "GBP_USD")
  /\ normalize_instrument (lit "GbpUsd") = Some (lit "GBP_USD")
  /\ variant (lit "GBP USD") (lit "gbp-usd")
  /\ variant (lit "GBP USD") (lit "GbpUsd")
  /\ (forall t, ~ In (token_key t) (map fst INSTRUMENT_MAP) ->
                normalize_instrument t = None).
Proof.
  split; [|repeat split; try reflexivity].
  - intros t t' sym H V. unfold normalize_instrument in *.
    fold (token_key t) in H. fold (token_key t').
    now rewrite <- (variant_key _ _ V).
  - unfold lit; simpl.
    repeat first [ apply variant_nil
                 | apply variant_case; [reflexivity|]
                 | apply variant_sep_l; [reflexivity|]
                 | apply variant_sep_r; [reflexivity|] ].
  - unfold lit; simpl.
    do 3 (apply variant_case; [reflexivity|]).
    apply variant_sep_l; [reflexivity|].
    do 3 (apply variant_case; [reflexivity|]). apply variant_nil.
  - intros t H. unfold normalize_instrument. fold (token_key t).
    now apply dict_get_None.
Qed.

Lemma normalize_instrument_variants_witness :
  normalize_instrument (lit "g o_l-D") = Some (lit "XAU_USD").
Proof.
  apply (proj1 normalize_instrument_variants (lit "GOLD") (lit "g o_l-D")).
  - reflexivity.
  - unfold lit; simpl.
    repeat first [ apply variant_nil
                 | apply variant_case; [reflexivity|]
                 | apply variant_sep_r; [reflexivity|] ].
Defined.

(** ** Position sizing *)

(** C9: a stop-loss or an entry price that is present but zero is treated
    as absent: [calc_units] returns the positive default unit count,
    whatever the balance and the side. *)
Theorem calc_units_zero_price (balance : float) (signal : TradeSignal) (s : bool) :
  sl signal = Some (S754_zero s) \/ entry_min signal = Some (S754_zero s) ->
  calc_units balance signal = Ok DEFAULT_UNITS /\ 0 < DEFAULT_UNITS.
Proof.
  intros H. split; [|reflexivity].
  unfold calc_units.
  destruct H as [H|H]; rewrite H; simpl.
  - reflexivity.
  - now rewrite orb_true_r.
Qed.

Lemma calc_units_zero_price_witness :
  calc_units (float_of_Z 10000)
             {| side := lit "sell"; instrument := lit "XAU_USD";
                entry_min := Some (float_of_Z 1950);
                entry_max := Some (float_of_Z 1950); entry := None;
                sl := Some (S754_zero false); tps := [] |}
  = Ok DEFAULT_UNITS /\ 0 < DEFAULT_UNITS.
Proof.
  apply (calc_units_zero_price _ _ false). left. reflexivity.
Defined.

(** C3: a signal that cannot be sized (no stop-loss, or no entry price, or
    a stop distance of zero) gets exactly the default unit count, 100,
    without a sign for the side, and nothing is raised. *)
Theorem calc_units_degenerate (balance : float) (signal : TradeSignal) :
  sl signal = None \/ entry_min signal = None \/
  (exists e s, entry_min signal = Some e /\ sl signal = Some s /\
               is_zero (stop_distance e s) = true) ->
  calc_units balance signal = Ok 100.
Proof.
  unfold calc_units, stop_distance.
  intros [H|[H|(e & s & He & Hs & Hz)]].
  - now rewrite H.
  - rewrite H. simpl. now rewrite orb_true_r.
  - rewrite He, Hs. simpl. rewrite Hz.
    now destruct (is_zero s || is_zero e).
Qed.

Lemma calc_units_degenerate_witness :
  calc_units (float_of_Z 10000)
             {| side := lit "sell"; instrument := lit "XAU_USD";
                entry_min := Some (float_of_Z 1950);
                entry_max := Some (float_of_Z 1950); entry := None;
                sl := Some (float_of_Z 1950); tps := [] |}
  = Ok 100.
Proof.
  apply calc_units_degenerate. right. right.
  exists (float_of_Z 1950), (float_of_Z 1950). repeat split.
Defined.

Lemma py_int_no_zero_division (x : float) : py_int x <> Raise ZeroDivisionError.
Proof. destruct x; discriminate. Qed.

(** No call of [calc_units] divides by zero. *)
Lemma calc_units_no_zero_division (balance : float) (signal : TradeSignal) :
  calc_units balance signal <> Raise ZeroDivisionError.
Proof.
  unfold calc_units, fdiv.
  destruct (falsy (sl signal) || falsy (entry_min signal)); [discriminate|].
  destruct (entry_min signal) as [e|]; [|discriminate].
  destruct (sl signal) as [s|]; [|discriminate].
  destruct (is_zero (fabs (fsub e s))); [discriminate|].
  apply py_int_no_zero_division.
Qed.

Lemma binary_round_aux_sign_bit sx mx ex lx :
  is_finite (binary_round_aux prec emax sx mx ex lx) = true ->
  sign_bit (binary_round_aux prec emax sx mx ex lx) = sx.
Proof.
  unfold binary_round_aux.
  destruct (shr_fexp prec emax mx ex lx) as [mrs' e'].
  destruct (shr_fexp prec emax _ e' loc_Exact) as [mrs'' e''].
  destruct (shr_m mrs''); try discriminate; [reflexivity|].
  destruct (e'' <=? emax - prec); [reflexivity|discriminate].
Qed.

Lemma RISK_PER_TRADE_value :
  RISK_PER_TRADE = S754_finite false 5764607523034235 (-59).
Proof. reflexivity. Qed.

Lemma fmul_risk_sign (b : float) :
  is_finite (fmul b RISK_PER_TRADE) = true ->
  sign_bit (fmul b RISK_PER_TRADE) = sign_bit b.
Proof.
  rewrite RISK_PER_TRADE_value. unfold fmul.
  destruct b as [s|s| |s m e]; simpl; try discriminate.
  - intros _. now rewrite xorb_false_r.
  - intros H. rewrite binary_round_aux_sign_bit by exact H.
    now rewrite xorb_false_r.
Qed.

Lemma fabs_sign (x : float) : sign_bit (fabs x) = false.
Proof. now destruct x. Qed.

(** The sign of a finite quotient is the sign of the balance. *)
Lemma risk_quotient_sign (b e s : float) :
  is_finite (risk_quotient b e s) = true ->
  sign_bit (risk_quotient b e s) = sign_bit b.
Proof.
  unfold risk_quotient, stop_distance.
  pose proof (fabs_sign (fsub e s)) as Hd.
  pose proof (fmul_risk_sign b) as Hn.
  destruct (fabs (fsub e s)) as [sd|sd| |sd md ed];
    destruct (fmul b RISK_PER_TRADE) as [sn|sn| |sn mn en];
    simpl in *; try discriminate; subst sd; intros H;
    try (rewrite xorb_false_r; now apply Hn).
  destruct (SFdiv_core_binary prec emax (Z.pos mn) en (Z.pos md) ed)
    as [[mz ez] lz].
  rewrite binary_round_aux_sign_bit by exact H.
  rewrite xorb_false_r. now apply Hn.
Qed.

Lemma py_int_finite (x : float) :
  is_finite x = true ->
  py_int x = Ok (cond_Zopp (sign_bit x) (int_part x)) /\ 0 <= int_part x.
Proof.
  destruct x as [s|s| |s m e]; simpl; try discriminate; intros _.
  - split; [now destruct s | lia].
  - split; [reflexivity|]. apply Z.shiftl_nonneg. lia.
Qed.

Lemma fneg_finite (x : float) : is_finite (fneg x) = is_finite x.
Proof. now destruct x. Qed.

Lemma fneg_sign (x : float) :
  x <> S754_nan -> sign_bit (fneg x) = negb (sign_bit x).
Proof. destruct x; simpl; congruence. Qed.

Lemma fneg_int_part (x : float) : int_part (fneg x) = int_part x.
Proof. now destruct x. Qed.

(** ** Subtraction of distinct doubles *)

Lemma digits2_pos_log2 (m : positive) :
  Zpos (digits2_pos m) = Z.log2 (Zpos m) + 1.
Proof.
  assert (H : forall p, digits2_pos p = Pos.size p)
    by (induction p; simpl; congruence).
  rewrite H. destruct m; simpl; lia.
Qed.

Lemma digits2_pos_bounds (m : positive) :
  2 ^ (Zpos (digits2_pos m) - 1) <= Zpos m < 2 ^ Zpos (digits2_pos m).
Proof.
  rewrite digits2_pos_log2.
  replace (Z.log2 (Z.pos m) + 1 - 1) with (Z.log2 (Z.pos m)) by lia.
  replace (Z.log2 (Z.pos m) + 1) with (Z.succ (Z.log2 (Z.pos m))) by lia.
  apply Z.log2_spec. lia.
Qed.

Lemma pos_iter_xO (m d : positive) :
  Zpos (Pos.iter xO m d) = Zpos m * 2 ^ Zpos d.
Proof.
  revert m. induction d using Pos.peano_ind; intros m.
  - change (Zpos m~0 = Zpos m * 2). lia.
  - rewrite Pos.iter_succ, Pos2Z.inj_succ, Z.pow_succ_r by lia.
    rewrite Pos2Z.inj_xO, IHd. ring.
Qed.

Lemma shl_align_value (mx : positive) (ex ez : Z) :
  ez <= ex -> Zpos (fst (shl_align mx ex ez)) = Zpos mx * 2 ^ (ex - ez).
Proof.
  intros H. unfold shl_align.
  destruct (ez - ex) as [|d|d] eqn:E; cbn [fst].
  - replace (ex - ez) with 0 by lia. rewrite Z.pow_0_r. lia.
  - lia.
  - rewrite pos_iter_xO. f_equal. f_equal. lia.
Qed.

Lemma shr_1_m (mrs : shr_record) :
  0 <= shr_m mrs -> shr_m (shr_1 mrs) = shr_m mrs / 2.
Proof.
  destruct mrs as [m r s]. unfold shr_1. cbn [shr_m]. intros H.
  destruct m as [|[p|p|]|p]; cbn [shr_m]; try reflexivity; try lia.
  - apply Z.div_unique with 1; lia.
  - apply Z.div_unique with 0; lia.
Qed.

Lemma iter_pos_shr_m (p : positive) :
  forall mrs, 0 <= shr_m mrs ->
              shr_m (iter_pos shr_1 p mrs) = shr_m mrs / 2 ^ Zpos p.
Proof.
  induction p as [p IH|p IH|]; intros mrs H; cbn [iter_pos].
  - assert (H1 : 0 <= shr_m (shr_1 mrs))
      by (rewrite shr_1_m by exact H; apply Z.div_pos; lia).
    assert (H2 : 0 <= shr_m (iter_pos shr_1 p (shr_1 mrs)))
      by (rewrite IH by exact H1; apply Z.div_pos; lia).
    rewrite IH, IH, shr_1_m by assumption.
    rewrite !Z.div_div by lia. f_equal.
    rewrite <- Z.pow_add_r, <- Z.pow_succ_r by lia. f_equal. lia.
  - assert (H1 : 0 <= shr_m (iter_pos shr_1 p mrs))
      by (rewrite IH by exact H; apply Z.div_pos; lia).
    rewrite IH, IH by assumption.
    rewrite Z.div_div by lia. f_equal.
    rewrite <- Z.pow_add_r by lia. f_equal. lia.
  - rewrite shr_1_m by exact H. now rewrite Z.pow_1_r.
Qed.

(** Rounding to the format keeps a positive mantissa positive, as long as
    the exponent is not below the smallest one. *)
Lemma shr_fexp_positive (m e : Z) (l : location) :
  0 < m -> emin prec emax <= e ->
  0 < shr_m (fst (shr_fexp prec emax m e l))
  /\ emin prec emax <= snd (shr_fexp prec emax m e l).
Proof.
  intros Hm He. unfold shr_fexp, shr.
  destruct m as [|p|p]; try lia. cbn [Zdigits2].
  set (d := Zpos (digits2_pos p)).
  destruct (fexp prec emax (d + e) - e) as [|n|n] eqn:E; cbn [fst snd].
  - split; [now destruct l as [|[]]|exact He].
  - assert (Hf : fexp prec emax (d + e) = d + e - prec).
    { unfold fexp in *. lia. }
    assert (Hn : Zpos n = d - prec) by lia.
    split; [|lia].
    rewrite iter_pos_shr_m by (destruct l as [|[]]; simpl; lia).
    replace (shr_m (shr_record_of_loc (Zpos p) l)) with (Zpos p)
      by now destruct l as [|[]].
    apply Z.div_str_pos. split; [apply Z.pow_pos_nonneg; lia|].
    pose proof (digits2_pos_bounds p) as [Hlo _]. fold d in Hlo.
    apply Z.le_trans with (2 ^ (d - 1)); [|exact Hlo].
    apply Z.pow_le_mono_r; unfold prec in *; lia.
  - split; [now destruct l as [|[]]|exact He].
Qed.

Lemma round_nearest_even_ge (m : Z) (l : location) :
  m <= round_nearest_even m l.
Proof.
  destruct l as [|[]]; simpl; try lia. destruct (Z.even m); lia.
Qed.

Lemma binary_round_aux_nonzero sx (m e : Z) (l : location) :
  0 < m -> emin prec emax <= e ->
  forall s, binary_round_aux prec emax sx m e l <> S754_zero s.
Proof.
  intros Hm He s. unfold binary_round_aux.
  pose proof (shr_fexp_positive m e l Hm He) as [H1 H1e].
  destruct (shr_fexp prec emax m e l) as [mrs' e']. cbn [fst snd] in *.
  pose proof (round_nearest_even_ge (shr_m mrs') (loc_of_shr_record mrs')) as Hr.
  pose proof (shr_fexp_positive _ e' loc_Exact
                (Z.lt_le_trans _ _ _ H1 Hr) H1e) as [H2 _].
  destruct (shr_fexp prec emax _ e' loc_Exact) as [mrs'' e''].
  cbn [fst] in H2.
  destruct (shr_m mrs''); try lia.
  destruct (e'' <=? emax - prec); discriminate.
Qed.

Lemma binary_round_nonzero sx (m : positive) (e : Z) :
  emin prec emax <= e ->
  forall s, binary_round prec emax sx m e <> S754_zero s.
Proof.
  intros He s. unfold binary_round.
  destruct (shl_align m e (fexp prec emax (Zpos (digits2_pos m) + e)))
    as [mz ez] eqn:E.
  apply binary_round_aux_nonzero; [lia|].
  unfold shl_align in E.
  destruct (fexp prec emax (Zpos (digits2_pos m) + e) - e) eqn:F;
    injection E as <- <-; try exact He.
  unfold fexp. lia.
Qed.

Lemma canonical_exponent (m : positive) (e : Z) :
  canonical_mantissa prec emax m e = true ->
  emin prec emax <= e /\ fexp prec emax (Zpos (digits2_pos m) + e) = e.
Proof.
  unfold canonical_mantissa. rewrite Z.eqb_eq. intros H. split; [|exact H].
  rewrite <- H. unfold fexp. lia.
Qed.

(** Two canonical mantissas that denote the same number are the same. *)
Lemma canonical_unique (mx my : positive) (ex ey : Z) :
  canonical_mantissa prec emax mx ex = true ->
  canonical_mantissa prec emax my ey = true ->
  Zpos mx * 2 ^ (ex - Z.min ex ey) = Zpos my * 2 ^ (ey - Z.min ex ey) ->
  mx = my /\ ex = ey.
Proof.
  intros Hx Hy H.
  apply canonical_exponent in Hx, Hy. destruct Hx as [_ Hx], Hy as [_ Hy].
  assert (Hd : Zpos (digits2_pos mx) + ex = Zpos (digits2_pos my) + ey).
  { rewrite !digits2_pos_log2.
    apply (f_equal Z.log2) in H.
    rewrite !Z.log2_mul_pow2 in H by lia. lia. }
  assert (He : ex = ey) by congruence. subst ey.
  rewrite Z.min_id, Z.sub_diag, Z.pow_0_r in H. split; [lia|reflexivity].
Qed.

(** The difference of two distinct doubles is not zero. *)
Lemma fsub_distinct sx mx ex sy my ey :
  bounded prec emax mx ex = true -> bounded prec emax my ey = true ->
  S754_finite sx mx ex <> S754_finite sy my ey ->
  forall s, fsub (S754_finite sx mx ex) (S754_finite sy my ey) <> S754_zero s.
Proof.
  unfold bounded. intros Hx Hy Hne s.
  apply andb_true_iff in Hx, Hy. destruct Hx as [Hx _], Hy as [Hy _].
  unfold fsub, SFsub.
  pose proof (shl_align_value mx ex (Z.min ex ey) (Z.le_min_l _ _)) as HX.
  pose proof (shl_align_value my ey (Z.min ex ey) (Z.le_min_r _ _)) as HY.
  destruct (canonical_exponent _ _ Hx) as [Hex _].
  destruct (canonical_exponent _ _ Hy) as [Hey _].
  assert (Hez : emin prec emax <= Z.min ex ey) by lia.
  set (X := fst (shl_align mx ex (Z.min ex ey))) in *.
  set (Y := fst (shl_align my ey (Z.min ex ey))) in *.
  destruct (cond_Zopp sx (Zpos X) - cond_Zopp sy (Zpos Y)) as [|d|d] eqn:D;
    unfold binary_normalize.
  - exfalso. apply Hne.
    assert (sx = sy /\ Zpos X = Zpos Y) as [-> HXY]
        by (destruct sx, sy; unfold cond_Zopp in D; split; auto; lia).
    rewrite HX, HY in HXY.
    destruct (canonical_unique _ _ _ _ Hx Hy HXY) as [-> ->]. reflexivity.
  - now apply binary_round_nonzero.
  - now apply binary_round_nonzero.
Qed.

Lemma is_zero_fabs (x : float) :
  (forall s, x <> S754_zero s) -> is_zero (fabs x) = false.
Proof.
  destruct x as [s| | |]; intros H; try reflexivity. now destruct (H s).
Qed.

(** Two distinct doubles, neither zero, are at a distance that is not
    zero. *)
Lemma stop_distance_nonzero (e s : float) :
  valid_binary prec emax e = true -> valid_binary prec emax s = true ->
  is_zero e = false -> is_zero s = false -> e <> s ->
  is_zero (stop_distance e s) = false.
Proof.
  intros Ve Vs Ze Zs Hne. unfold stop_distance.
  destruct e as [se|se| |se me ee]; try discriminate;
    destruct s as [ss|ss| |ss ms es]; try discriminate;
    try (destruct se; reflexivity); try reflexivity.
  - destruct se, ss; reflexivity.
  - apply is_zero_fabs. now apply fsub_distinct.
Qed.

(** A sell signal at 1950 whose stop-loss reads 0, on a balance of 10000:
    the stop counts as absent and the result is +100. *)
Lemma sized_as_specified_fails :
  ~ sized_as_specified
      (float_of_Z 10000)
      {| side := lit "sell"; instrument := lit "XAU_USD";
         entry_min := Some (float_of_Z 1950);
         entry_max := Some (float_of_Z 1950); entry := None;
         sl := Some (S754_zero false); tps := [] |}.
Proof.
  intros H.
  destruct (H (float_of_Z 1950) (S754_zero false) eq_refl eq_refl)
    as (z & Hz & _ & _ & Hneg); [discriminate|].
  vm_compute in Hz. injection Hz as <-.
  specialize (Hneg eq_refl). lia.
Qed.

(** C2, amended: when the entry price and the stop-loss are both set,
    both different from zero and different from each other, [calc_units]
    returns [int] of the quotient [balance * 0.01 / |entry_min - sl|] of
    double arithmetic for a buy and of its negation otherwise.  When that
    quotient is finite the result is an integer whose magnitude is the
    quotient rounded toward zero; for a balance that is not negative it is
    not negative for a buy and not positive for a sell. *)
Theorem calc_units_sized (balance : float) (signal : TradeSignal) (e s : float) :
  entry_min signal = Some e -> sl signal = Some s ->
  is_double e -> is_double s ->
  is_zero e = false -> is_zero s = false ->
  e <> s ->
  let q := risk_quotient balance e s in
  calc_units balance signal
  = py_int (if str_eqb (side signal) (lit "buy") then q else fneg q)
  /\ (is_finite q = true ->
      exists z,
        calc_units balance signal = Ok z
        /\ Z.abs z = int_part q
        /\ (sign_bit balance = false ->
            (side signal = lit "buy" -> 0 <= z)
            /\ (side signal = lit "sell" -> z <= 0))).
Proof.
  intros He Hs Ve Vs Hez Hsz Hne q.
  pose proof (stop_distance_nonzero e s Ve Vs Hez Hsz Hne) as Hd.
  assert (Hc : calc_units balance signal
               = py_int (if str_eqb (side signal) (lit "buy") then q else fneg q)).
  { unfold calc_units. rewrite He, Hs. simpl. rewrite Hez, Hsz. simpl.
    fold (stop_distance e s). rewrite Hd.
    unfold fdiv. rewrite Hd. reflexivity. }
  split; [exact Hc|].
  intros Hq. rewrite Hc.
  pose proof (risk_quotient_sign balance e s Hq) as Hsign. fold q in Hsign.
  destruct (py_int_finite q Hq) as [Hi Hpos].
  destruct (str_eqb (side signal) (lit "buy")) eqn:Hside.
  - exists (cond_Zopp (sign_bit q) (int_part q)). split; [exact Hi|]. split.
    + destruct (sign_bit q); simpl; lia.
    + intros Hb. rewrite Hsign, Hb. simpl. split; [lia|].
      intros Hsell. apply str_eqb_eq in Hside. rewrite Hside in Hsell.
      discriminate.
  - assert (Hn : q <> S754_nan) by (intros E; rewrite E in Hq; discriminate).
    destruct (py_int_finite (fneg q)) as [Hi' _];
      [now rewrite fneg_finite|].
    rewrite fneg_sign, fneg_int_part in Hi' by exact Hn.
    exists (cond_Zopp (negb (sign_bit q)) (int_part q)).
    split; [exact Hi'|]. split.
    + destruct (sign_bit q); simpl; lia.
    + intros Hb. rewrite Hsign, Hb. simpl. split; [|lia].
      intros Hbuy. rewrite Hbuy, str_eqb_refl in Hside. discriminate.
Qed.

Lemma calc_units_sized_witness :
  calc_units (float_of_Z 10000) sell_signal = Ok (-10).
Proof.
  destruct (calc_units_sized (float_of_Z 10000) sell_signal
                             (float_of_Z 1950) (float_of_Z 1960)
                             eq_refl eq_refl eq_refl eq_refl eq_refl eq_refl)
    as [H _]; [discriminate|].
  rewrite H. reflexivity.
Defined.

(** ** Scenarios *)

(** C8: "GOLD buy @1950 sl 1940 tp1 1960 tp2 1970" gives exactly one
    signal: a buy of XAU_USD, the symbol of gold, entering at 1950.0 with
    stop 1940.0 and targets 1960.0 and 1970.0; on a balance of 10000, with
    the risk fraction 0.01, it is sized at +10 units. *)
Theorem gold_scenario :
  parse_signals (lit "GOLD buy @1950 sl 1940 tp1 1960 tp2 1970") = Ok [gold_signal]
  /\ dict_get (lit "gold") INSTRUMENT_MAP = Some (instrument gold_signal)
  /\ RISK_PER_TRADE = float_of_decimal false 1 (-2)
  /\ calc_units (float_of_Z 10000) gold_signal = Ok 10.
Proof. repeat split; vm_compute; reflexivity. Qed.

(** C10: in "nas100 buy" the window has no price range and no number
    after the instrument token; the single-number pattern then finds the
    digits of the token itself, and the one signal, a buy of NAS100_USD,
    has [entry_min = entry_max = 100.0]. *)
Theorem nas100_entry_from_token :
  window (lit "nas100") (lit "nas100 buy") = Some (lit "nas100 buy")
  /\ re_search PRICE_RANGE_RE (lit "nas100 buy") = None
  /\ option_map (fun m => (m_start m, m_text m))
                (re_search SINGLE_RE (lit "nas100 buy"))
     = Some (3%nat, lit "100")
  /\ parse_signals (lit "nas100 buy")
     = Ok [ {| side := lit "buy"; instrument := lit "NAS100_USD";
               entry_min := Some (float_of_Z 100);
               entry_max := Some (float_of_Z 100);
               entry := None; sl := None; tps := [] |} ].
Proof. repeat split; vm_compute; reflexivity. Qed.

(** ** A malformed entry or stop-loss *)

(** C1: in "eurusd sell 1.05 #gold buy 1.2.3 sl 5" the window of eurusd
    gives a signal on its own, and the entry "1.2.3" of the window of gold
    does not convert; [parse_signals] raises [ValueError] for the whole
    message and returns no signal at all. *)
Theorem malformed_entry_aborts_batch :
  parse_number (lit "1.2.3") = Raise ValueError
  /\ parse_number (lit ".") = Raise ValueError
  /\ extract_candidate two_windows (lit "eurusd", lit "EUR_USD")
     = Ok (Some {| side := lit "sell"; instrument := lit "EUR_USD";
                   entry_min := Some (float_of_decimal false 105 (-2));
                   entry_max := Some (float_of_decimal false 105 (-2));
                   entry := None; sl := None; tps := [] |})
  /\ extract_candidate two_windows (lit "gold", lit "XAU_USD") = Raise ValueError
  /\ parse_signals two_windows = Raise ValueError.
Proof. repeat split; vm_compute; reflexivity. Qed.

(** The loop has no handler: once a window raises, so does the whole. *)
Lemma extract_all_raises txt (cands : list (str * str)) :
  forall acc cand e,
    In cand cands -> extract_candidate txt cand = Raise e ->
    exists e', extract_all txt cands acc = Raise e'.
Proof.
  induction cands as [|c cands IH]; intros acc cand e Hin H; [contradiction|].
  simpl. destruct (extract_candidate txt c) as [r|e0] eqn:E; simpl.
  - destruct Hin as [->|Hin]; [congruence|]. eapply IH; eauto.
  - eauto.
Qed.

(** ** The matcher against what a pattern matches *)

Lemma last_chr_app (prev : option ascii) (w1 w2 : str) :
  last_chr prev (w1 ++ w2) = last_chr (last_chr prev w1) w2.
Proof. revert prev. induction w1; simpl; auto. Qed.

Lemma firstn_length_app (w rest : str) :
  firstn (List.length (w ++ rest) - List.length rest) (w ++ rest) = w.
Proof.
  rewrite length_app, Nat.add_sub.
  rewrite firstn_app, Nat.sub_diag, firstn_all. simpl. apply app_nil_r.
Qed.

Section MatcherCorrect.
Context {A : Type}.

Lemma rep_sound p (s : str) :
  forall lo hi prev (k : option ascii -> str -> option A) a,
    rep p lo hi prev s k = Some a ->
    exists w rest,
      s = w ++ rest /\ forallb p w = true /\ (lo <= List.length w)%nat
      /\ (forall h, hi = Some h -> (List.length w <= h)%nat)
      /\ k (last_chr prev w) rest = Some a.
Proof.
  induction s as [|c s IH]; intros lo hi prev k a H.
  - simpl in H. destruct lo; [|discriminate].
    exists [], []. repeat split; auto. intros; simpl; lia.
  - assert (Hstop : match lo with O => k prev (c :: s) | S _ => None end = Some a ->
                    exists w rest,
                      c :: s = w ++ rest /\ forallb p w = true
                      /\ (lo <= List.length w)%nat
                      /\ (forall h, hi = Some h -> (List.length w <= h)%nat)
                      /\ k (last_chr prev w) rest = Some a).
    { destruct lo; [|discriminate]. intros Hk.
      exists [], (c :: s). repeat split; auto. intros; simpl; lia. }
    simpl in H.
    destruct (p c && match hi with Some O => false | _ => true end) eqn:E;
      [|now apply Hstop].
    destruct (rep p (Nat.pred lo) (option_map Nat.pred hi) (Some c) s k)
      as [a'|] eqn:R; [|now apply Hstop].
    injection H as ->.
    apply IH in R. destruct R as (w & rest & -> & Hp & Hlo & Hhi & Hk).
    apply andb_true_iff in E. destruct E as [Hc Hh].
    exists (c :: w), rest. simpl. rewrite Hc, Hp. repeat split; auto.
    + lia.
    + intros h ->. destruct h as [|h]; [discriminate|].
      specialize (Hhi h eq_refl). lia.
Qed.

Lemma rep_complete p (s : str) :
  forall lo hi prev (k : option ascii -> str -> option A),
    rep p lo hi prev s k = None ->
    forall w rest,
      s = w ++ rest -> forallb p w = true -> (lo <= List.length w)%nat ->
      (forall h, hi = Some h -> (List.length w <= h)%nat) ->
      k (last_chr prev w) rest = None.
Proof.
  induction s as [|c s IH]; intros lo hi prev k H w rest Hs Hp Hlo Hhi.
  - symmetry in Hs. apply app_eq_nil in Hs. destruct Hs as [-> ->].
    simpl in *. now replace lo with O in H by lia.
  - simpl in H. destruct w as [|x w].
    + simpl in Hs. subst rest. simpl in *. replace lo with O in H by lia.
      destruct (p c && match hi with Some O => false | _ => true end);
        [|exact H].
      now destruct (rep p (Nat.pred 0) (option_map Nat.pred hi) (Some c) s k).
    + simpl in Hs. injection Hs as <- ->. simpl in Hp.
      apply andb_true_iff in Hp. destruct Hp as [Hc Hp].
      assert (Hh : match hi with Some O => false | _ => true end = true).
      { destruct hi as [[|h]|]; auto. specialize (Hhi O eq_refl).
        simpl in Hhi. lia. }
      rewrite Hc, Hh in H. simpl in H.
      destruct (rep p (Nat.pred lo) (option_map Nat.pred hi) (Some c)
                    (w ++ rest) k) eqn:R; [discriminate|].
      simpl. eapply IH; eauto.
      * simpl in Hlo. lia.
      * intros h Eh. destruct hi as [h'|]; [|discriminate].
        simpl in Eh. injection Eh as <-.
        specialize (Hhi h' eq_refl). simpl in Hhi. lia.
Qed.

(** Whatever the matcher finds is a match, and the continuation was
    given its end. *)
Lemma run_sound (r : regex) :
  forall prev s g (k : @cont A) (a : A),
    run r prev s g k = Some a ->
    exists w rest g',
      s = w ++ rest /\ matches r prev w rest g g'
      /\ k (last_chr prev w) rest g' = Some a.
Proof.
  induction r as [|p|r1 IH1 r2 IH2|r1 IH1 r2 IH2|r1 IH1|p lo hi|n r1 IH1|];
    intros prev s g k a H; simpl in H.
  - exists [], s, g. repeat split; auto. constructor.
  - destruct s as [|c s]; [discriminate|].
    destruct (p c) eqn:Hc; [|discriminate].
    exists [c], s, g. repeat split; auto. now constructor.
  - apply IH1 in H. destruct H as (w1 & rest1 & g1 & -> & M1 & H).
    apply IH2 in H. destruct H as (w2 & rest & g2 & -> & M2 & H).
    exists (w1 ++ w2), rest, g2. rewrite app_assoc, last_chr_app.
    repeat split; auto. econstructor; eauto.
  - destruct (run r1 prev s g k) as [a'|] eqn:R.
    + injection H as ->. apply IH1 in R.
      destruct R as (w & rest & g' & -> & M & Hk).
      exists w, rest, g'. repeat split; auto. now apply M_AltL.
    + apply IH2 in H. destruct H as (w & rest & g' & -> & M & Hk).
      exists w, rest, g'. repeat split; auto. now apply M_AltR.
  - destruct (run r1 prev s g k) as [a'|] eqn:R.
    + injection H as ->. apply IH1 in R.
      destruct R as (w & rest & g' & -> & M & Hk).
      exists w, rest, g'. repeat split; auto. now apply M_OptSome.
    + exists [], s, g. repeat split; auto. apply M_OptNone.
  - apply rep_sound in H.
    destruct H as (w & rest & -> & Hp & Hlo & Hhi & Hk).
    exists w, rest, g. repeat split; auto. now constructor.
  - apply IH1 in H. destruct H as (w & rest & g' & -> & M & Hk).
    rewrite firstn_length_app in Hk.
    exists w, rest, ((n, w) :: g'). repeat split; auto. now constructor.
  - destruct (xorb (word_opt prev) (word_opt (hd_error s))) eqn:E;
      [|discriminate].
    exists [], s, g. repeat split; auto. now constructor.
Qed.

(** When the matcher fails, every match leads to a continuation that
    fails. *)
Lemma run_complete (r : regex) :
  forall prev s g (k : @cont A),
    run r prev s g k = None ->
    forall w rest g',
      s = w ++ rest -> matches r prev w rest g g' ->
      k (last_chr prev w) rest g' = None.
Proof.
  induction r as [|p|r1 IH1 r2 IH2|r1 IH1 r2 IH2|r1 IH1|p lo hi|n r1 IH1|];
    intros prev s g k H w rest g' Hs M; simpl in H;
    inversion M; subst; clear M; simpl in *.
  - exact H.
  - now match goal with Hp : p _ = true |- _ => rewrite Hp in H end.
  - rewrite last_chr_app.
    match goal with
    | M1 : matches r1 _ _ _ _ _, M2 : matches r2 _ _ _ _ _ |- _ =>
        eapply IH2; [|reflexivity|exact M2];
        eapply (IH1 _ _ _ _ H); [|exact M1]
    end.
    now rewrite app_assoc.
  - destruct (run r1 prev (w ++ rest) g k) eqn:R; [discriminate|].
    eapply IH1; eauto.
  - destruct (run r1 prev (w ++ rest) g k) eqn:R; [discriminate|].
    eapply IH2; eauto.
  - destruct (run r1 prev (w ++ rest) g k) eqn:R; [discriminate|].
    eapply IH1; eauto.
  - now destruct (run r1 prev rest g' k).
  - eapply (rep_complete _ _ _ _ _ _ H); eauto.
  - match goal with
    | M1 : matches r1 _ _ _ _ _ |- _ =>
        pose proof (IH1 _ _ _ _ H _ _ _ eq_refl M1) as Hk
    end.
    simpl in Hk. now rewrite firstn_length_app in Hk.
  - now match goal with
        | E : xorb _ _ = true |- _ => rewrite E in H
        end.
Qed.
End MatcherCorrect.

Lemma match_here_sound r prev s prev' rest g :
  match_here r prev s = Some (prev', rest, g) ->
  exists w, s = w ++ rest /\ matches r prev w rest [] g /\ prev' = last_chr prev w.
Proof.
  unfold match_here. intros H. apply run_sound in H.
  destruct H as (w & rest' & g' & -> & M & [= <- <- <-]). eauto.
Qed.

Lemma match_here_none r prev s :
  match_here r prev s = None ->
  forall w rest g, s = w ++ rest -> ~ matches r prev w rest [] g.
Proof.
  unfold match_here. intros H w rest g Hs M.
  pose proof (run_complete r _ _ _ _ H _ _ _ Hs M). discriminate.
Qed.

Lemma search_from_eq r pos prev (s : str) :
  search_from r pos prev s
  = match match_here r prev s with
    | Some (prev', rest, g) =>
        let n := (List.length s - List.length rest)%nat in
        Some ({| m_start := pos; m_end := (pos + n)%nat;
                 m_text := firstn n s; m_groups := g |}, prev', rest)
    | None =>
        match s with
        | [] => None
        | c :: s' => search_from r (S pos) (Some c) s'
        end
    end.
Proof. destruct s; reflexivity. Qed.

Lemma match_here_span r prev s prev' rest g :
  match_here r prev s = Some (prev', rest, g) ->
  exists w,
    s = w ++ rest
    /\ (List.length s - List.length rest)%nat = List.length w
    /\ firstn (List.length s - List.length rest) s = w
    /\ matches r prev w rest [] g /\ prev' = last_chr prev w.
Proof.
  intros H. apply match_here_sound in H. destruct H as (w & -> & M & ->).
  exists w. rewrite firstn_length_app, length_app, Nat.add_sub. auto.
Qed.

(** The search returns the leftmost position that has a match. *)
Lemma search_from_sound r (s : str) :
  forall pos prev m prev' rest,
    search_from r pos prev s = Some (m, prev', rest) ->
    exists pre w,
      s = pre ++ w ++ rest
      /\ m_start m = (pos + List.length pre)%nat
      /\ m_end m = (pos + List.length pre + List.length w)%nat
      /\ m_text m = w
      /\ matches r (last_chr prev pre) w rest [] (m_groups m)
      /\ prev' = last_chr prev (pre ++ w)
      /\ (forall pre' w' rest' g',
             s = pre' ++ w' ++ rest' ->
             (List.length pre' < List.length pre)%nat ->
             ~ matches r (last_chr prev pre') w' rest' [] g').
Proof.
  induction s as [|c s IH]; intros pos prev m prev' rest H;
    rewrite search_from_eq in H;
    match type of H with
    | context [match_here r prev ?s0] =>
        destruct (match_here r prev s0) as [[[p' rest'] g]|] eqn:E
    end; try discriminate.
  - apply match_here_span in E. destruct E as (w & Hs & Hn & Hf & M & ->).
    cbv zeta in H. rewrite Hf, Hn in H. injection H as <- <- <-.
    exists [], w. simpl.
    repeat split; auto; try lia; intros; simpl in *; lia.
  - apply match_here_span in E. destruct E as (w & Hs & Hn & Hf & M & ->).
    cbv zeta in H. rewrite Hf, Hn in H. injection H as <- <- <-.
    exists [], w. simpl.
    repeat split; auto; try lia; intros; simpl in *; lia.
  - apply IH in H.
    destruct H as (pre & w & -> & Hst & Hen & Ht & M & Hp & Hfirst).
    exists (c :: pre), w. simpl. repeat split; auto; try lia.
    intros pre' w' rest' g' Hs Hlt M'.
    destruct pre' as [|x pre'].
    + simpl in *. eapply match_here_none; eauto.
    + simpl in Hs. injection Hs as <- Hs. simpl in *.
      eapply Hfirst; eauto. lia.
Qed.

Lemma search_from_none r (s : str) :
  forall pos prev,
    search_from r pos prev s = None ->
    forall pre w rest g,
      s = pre ++ w ++ rest -> ~ matches r (last_chr prev pre) w rest [] g.
Proof.
  induction s as [|c s IH]; intros pos prev H pre w rest g Hs M; simpl in H.
  - destruct (match_here r prev []) as [[[p' rest'] g0]|] eqn:E; [discriminate|].
    symmetry in Hs. apply app_eq_nil in Hs. destruct Hs as [-> Hs].
    eapply match_here_none; eauto.
  - destruct (match_here r prev (c :: s)) as [[[p' rest'] g0]|] eqn:E;
      [discriminate|].
    destruct pre as [|x pre].
    + simpl in *. eapply match_here_none; eauto.
    + simpl in Hs. injection Hs as <- Hs. simpl in M.
      eapply IH; eauto.
Qed.

(** [pattern.search(s)] returns the first occurrence of the pattern. *)
Lemma re_search_some r s m :
  re_search r s = Some m ->
  exists pre rest,
    occurs_at r s pre (m_text m) rest (m_groups m)
    /\ m_start m = List.length pre
    /\ m_end m = (List.length pre + List.length (m_text m))%nat
    /\ (forall pre' w' rest' g',
           occurs_at r s pre' w' rest' g' ->
           (List.length pre <= List.length pre')%nat).
Proof.
  unfold re_search. intros H.
  destruct (search_from r 0 None s) as [[[m' p'] rest]|] eqn:E; [|discriminate].
  simpl in H. injection H as ->.
  apply search_from_sound in E.
  destruct E as (pre & w & Hs & Hst & Hen & Ht & M & _ & Hfirst).
  exists pre, rest. unfold occurs_at. rewrite Ht.
  repeat split; auto.
  intros pre' w' rest' g' [Hs' M'].
  destruct (Nat.le_gt_cases (List.length pre) (List.length pre')) as [|Hlt];
    [assumption|].
  exfalso. eapply Hfirst; eauto.
Qed.

(** [pattern.search(s)] is [None] only when the pattern occurs nowhere. *)
Lemma re_search_none r s :
  re_search r s = None ->
  forall pre w rest g, ~ occurs_at r s pre w rest g.
Proof.
  unfold re_search. intros H pre w rest g [Hs M].
  destruct (search_from r 0 None s) as [[[m' p'] rest']|] eqn:E; [discriminate|].
  eapply search_from_none; eauto.
Qed.

Lemma re_search_first r s m :
  re_search r s = Some m ->
  exists pre rest, first_occurrence r s pre (m_text m) rest (m_groups m).
Proof.
  intros H. apply re_search_some in H.
  destruct H as (pre & rest & Ho & _ & _ & Hf). exists pre, rest. now split.
Qed.

Lemma re_search_nowhere r s : re_search r s = None -> nowhere r s.
Proof. exact (re_search_none r s). Qed.

(** ** Inversion of [matches] *)

Lemma matches_eps_inv prev w rest g g' :
  matches Eps prev w rest g g' -> w = [] /\ g' = g.
Proof. intros M. inversion M; subst. auto. Qed.

Lemma matches_chr_inv p prev w rest g g' :
  matches (Chr p) prev w rest g g' -> exists c, w = [c] /\ p c = true /\ g' = g.
Proof. intros M. inversion M; subst. eauto. Qed.

Lemma matches_seq_inv r1 r2 prev w rest g g2 :
  matches (Seq r1 r2) prev w rest g g2 ->
  exists w1 w2 g1,
    w = w1 ++ w2 /\ matches r1 prev w1 (w2 ++ rest) g g1
    /\ matches r2 (last_chr prev w1) w2 rest g1 g2.
Proof. intros M. inversion M; subst. eauto 7. Qed.

Lemma matches_alt_inv r1 r2 prev w rest g g' :
  matches (Alt r1 r2) prev w rest g g' ->
  matches r1 prev w rest g g' \/ matches r2 prev w rest g g'.
Proof. intros M. inversion M; subst; auto. Qed.

Lemma matches_opt_inv r prev w rest g g' :
  matches (Opt r) prev w rest g g' ->
  matches r prev w rest g g' \/ (w = [] /\ g' = g).
Proof. intros M. inversion M; subst; auto. Qed.

Lemma matches_rep_inv p lo hi prev w rest g g' :
  matches (Rep p lo hi) prev w rest g g' ->
  forallb p w = true /\ (lo <= List.length w)%nat
  /\ (forall h, hi = Some h -> (List.length w <= h)%nat) /\ g' = g.
Proof. intros M. inversion M; subst. auto. Qed.

Lemma matches_grp_inv n r prev w rest g g' :
  matches (Grp n r) prev w rest g g' ->
  exists g1, matches r prev w rest g g1 /\ g' = (n, w) :: g1.
Proof. intros M. inversion M; subst. eauto. Qed.

Lemma matches_bnd_inv prev w rest g g' :
  matches Bnd prev w rest g g' ->
  w = [] /\ g' = g /\ xorb (word_opt prev) (word_opt (hd_error rest)) = true.
Proof. intros M. inversion M; subst. auto. Qed.

(** ** Literals under [re.I] *)

Lemma matches_chr_i_inv c prev w rest g g' :
  matches (chr_i c) prev w rest g g' ->
  exists x, w = [x] /\ lower_chr x = lower_chr c /\ g' = g.
Proof.
  unfold chr_i. intros M. inversion M; subst.
  match goal with H : chr_eqb _ _ = true |- _ => apply chr_eqb_eq in H end.
  eauto.
Qed.

Lemma matches_chr_i c x prev rest g :
  lower_chr x = lower_chr c -> matches (chr_i c) prev [x] rest g g.
Proof. intros H. unfold chr_i. constructor. now apply chr_eqb_eq. Qed.

Lemma lit_i_cons c c' s :
  lit_i (c :: c' :: s) = Seq (chr_i c) (lit_i (c' :: s)).
Proof. reflexivity. Qed.

Lemma matches_lit_i_inv (s : str) :
  forall prev w rest g g',
    matches (lit_i s) prev w rest g g' -> lower w = lower s /\ g' = g.
Proof.
  induction s as [|c s IH]; intros prev w rest g g' M.
  - simpl in M. apply matches_eps_inv in M. now destruct M as [-> ->].
  - destruct s as [|c' s].
    + simpl in M. apply matches_chr_i_inv in M.
      destruct M as (x & -> & Hx & ->). simpl. now rewrite Hx.
    + rewrite lit_i_cons in M. apply matches_seq_inv in M.
      destruct M as (w1 & w2 & g1 & -> & M1 & M2).
      apply matches_chr_i_inv in M1. destruct M1 as (x & -> & Hx & ->).
      apply IH in M2. destruct M2 as [Hw ->].
      split; [|reflexivity]. simpl. simpl in Hw. now rewrite Hx, Hw.
Qed.

Lemma matches_lit_i (s : str) :
  forall prev w rest g,
    lower w = lower s -> matches (lit_i s) prev w rest g g.
Proof.
  induction s as [|c s IH]; intros prev w rest g H.
  - destruct w; [|discriminate]. constructor.
  - destruct w as [|x w]; [discriminate|]. simpl in H. injection H as Hx Hw.
    destruct s as [|c' s].
    + destruct w; [|discriminate]. now apply matches_chr_i.
    + rewrite lit_i_cons. change (x :: w) with ([x] ++ w).
      econstructor; [now apply matches_chr_i | now apply IH].
Qed.

(** ** Directional keywords *)

Lemma lower_word (x : ascii) : is_alpha (lower_chr x) = true -> is_word x = true.
Proof.
  destruct x as [[] [] [] [] [] [] [] []]; vm_compute; congruence.
Qed.

Lemma lower_alpha_word (w kw : str) :
  lower w = kw -> forallb is_alpha kw = true -> forallb is_word w = true.
Proof.
  revert kw. induction w as [|x w IH]; intros kw <- H; [reflexivity|].
  simpl in *. apply andb_true_iff in H. destruct H as [Hx Hw].
  rewrite (lower_word x Hx). simpl. now apply (IH (lower w)).
Qed.

Lemma keyword_word (w : str) :
  is_keyword w -> w <> [] /\ forallb is_word w = true.
Proof.
  unfold is_keyword, side_keywords.
  intros H. split.
  - intros ->. simpl in H. intuition discriminate.
  - simpl in H. destruct H as [H|[H|[H|[H|[]]]]];
      symmetry in H; eapply lower_alpha_word; eauto.
Qed.

Lemma word_ends (w : str) :
  w <> [] -> forallb is_word w = true ->
  forall prev rest,
    word_opt (last_chr prev w) = true /\ word_opt (hd_error (w ++ rest)) = true.
Proof.
  intros Hne Hw prev rest. split.
  - revert prev. induction w as [|x w IH]; [congruence|]. intros prev.
    simpl in *. apply andb_true_iff in Hw. destruct Hw as [Hx Hw].
    destruct w as [|y w]; [exact Hx|]. apply IH; [discriminate|exact Hw].
  - destruct w as [|x w]; [congruence|]. simpl in *.
    now apply andb_true_iff in Hw.
Qed.

(** [SIDE_RE] matches exactly the whole-word keywords. *)
Lemma side_re_matches prev w rest g :
  matches SIDE_RE prev w rest [] g <->
  is_keyword w /\ g = [(1%nat, w)]
  /\ word_opt prev = false /\ word_opt (hd_error rest) = false.
Proof.
  unfold SIDE_RE. split.
  - intros M.
    apply matches_seq_inv in M. destruct M as (w0 & w' & g0 & -> & Mb & M).
    apply matches_bnd_inv in Mb. destruct Mb as (-> & -> & Hb).
    apply matches_seq_inv in M. destruct M as (w1 & w2 & g1 & -> & Mg & Ma).
    apply matches_bnd_inv in Ma. destruct Ma as (-> & -> & Ha).
    apply matches_grp_inv in Mg. destruct Mg as (g' & Mk & ->).
    simpl in Hb, Ha. rewrite app_nil_r in *. rewrite app_nil_l.
    assert (Hk : is_keyword w1 /\ g' = []).
    { unfold is_keyword, side_keywords.
      repeat (apply matches_alt_inv in Mk; destruct Mk as [Mk|Mk]);
        apply matches_lit_i_inv in Mk; destruct Mk as [Mk ->];
        (split; [|reflexivity]); rewrite Mk; simpl; auto. }
    destruct Hk as [Hk ->]. split; [exact Hk|]. split; [reflexivity|].
    destruct (keyword_word _ Hk) as [Hne Hw].
    destruct (word_ends _ Hne Hw prev rest) as [Hl Hh].
    rewrite Hl, Hh in *.
    split.
    + now destruct (word_opt prev).
    + now destruct (word_opt (hd_error rest)).
  - intros (Hk & -> & Hp & Hn).
    destruct (keyword_word _ Hk) as [Hne Hw].
    destruct (word_ends _ Hne Hw prev rest) as [Hl Hh].
    change w with ([] ++ w). apply M_Seq with (g1 := []).
    { constructor. simpl. now rewrite Hp, Hh. }
    cbn [last_chr]. rewrite <- (app_nil_r w) at 1.
    apply M_Seq with (g1 := [(1%nat, w)]).
    + constructor. rewrite app_nil_l.
      unfold is_keyword, side_keywords in Hk. simpl in Hk.
      destruct Hk as [H|[H|[H|[H|[]]]]]; symmetry in H.
      * apply M_AltL. now apply matches_lit_i.
      * apply M_AltR, M_AltL. now apply matches_lit_i.
      * apply M_AltR, M_AltR, M_AltL. now apply matches_lit_i.
      * apply M_AltR, M_AltR, M_AltR. now apply matches_lit_i.
    + constructor. now rewrite Hl, Hn.
Qed.

Lemma side_occurs_iff chunk pre w post g :
  occurs_at SIDE_RE chunk pre w post g <->
  keyword_at chunk pre w post /\ g = [(1%nat, w)].
Proof.
  unfold occurs_at, keyword_at. rewrite side_re_matches. tauto.
Qed.

(** ** The loop over the candidates *)

(** Every signal returned comes from one turn of the loop. *)
Lemma extract_all_In txt (cands : list (str * str)) :
  forall acc sigs sig,
    extract_all txt cands acc = Ok sigs -> In sig sigs ->
    In sig acc
    \/ exists cand, In cand cands /\ extract_candidate txt cand = Ok (Some sig).
Proof.
  induction cands as [|cand cands IH]; intros acc sigs sig H Hin; simpl in H.
  - injection H as <-. now left.
  - destruct (extract_candidate txt cand) as [r|e] eqn:E; [|discriminate].
    simpl in H. destruct (IH _ _ _ H Hin) as [Ha|(c & Hc & Hx)].
    + destruct r as [sig'|]; [|now left].
      apply in_app_or in Ha. destruct Ha as [Ha|[<-|[]]]; [now left|].
      right. exists cand. split; [now left|exact E].
    + right. exists c. split; [now right|exact Hx].
Qed.

Lemma parse_signals_In text sigs sig :
  parse_signals text = Ok sigs -> In sig sigs ->
  exists (cand : str * str) (chunk : str),
    window (fst cand) (flatten text) = Some chunk
    /\ extract_fields (flatten text) (snd cand) chunk = Ok (Some sig).
Proof.
  unfold parse_signals. fold (flatten text). intros H Hin.
  destruct (extract_all_In _ _ _ _ _ H Hin) as [[]|(cand & _ & E)].
  unfold extract_candidate in E.
  destruct (window (fst cand) (flatten text)) as [chunk|] eqn:W;
    [|discriminate].
  eauto.
Qed.

(** ** The side of a window *)

Lemma extract_side_none chunk :
  (forall pre w post, ~ keyword_at chunk pre w post) ->
  extract_side chunk = None.
Proof.
  intros H. unfold extract_side.
  destruct (re_search SIDE_RE chunk) as [m|] eqn:E; [|reflexivity].
  apply re_search_some in E. destruct E as (pre & post & Ho & _).
  apply side_occurs_iff in Ho. destruct Ho as [Hk _].
  exfalso. eapply H; eauto.
Qed.

Lemma extract_side_some chunk sd :
  extract_side chunk = Some sd ->
  exists w, first_keyword chunk w /\ side_of_keyword w sd.
Proof.
  unfold extract_side.
  destruct (re_search SIDE_RE chunk) as [m|] eqn:E; [|discriminate].
  intros [= <-].
  apply re_search_some in E. destruct E as (pre & post & Ho & _ & _ & Hfirst).
  apply side_occurs_iff in Ho. destruct Ho as [Hk Hg].
  exists (m_text m). split.
  - exists pre, post. split; [exact Hk|].
    intros pre' w' post' Hk'. apply (Hfirst pre' w' post' [(1%nat, w')]).
    now apply side_occurs_iff.
  - unfold group_or_empty, m_group. rewrite Hg. simpl.
    destruct Hk as (_ & Hkw & _). unfold is_keyword, side_keywords in Hkw.
    unfold side_of_keyword.
    simpl in Hkw. destruct Hkw as [H|[H|[H|[H|[]]]]]; rewrite <- H;
      vm_compute; intuition congruence.
Qed.

Lemma extract_fields_side txt inst chunk sig :
  extract_fields txt inst chunk = Ok (Some sig) ->
  extract_side chunk = Some (side sig).
Proof.
  unfold extract_fields.
  destruct (extract_side chunk) as [sd|]; [|discriminate].
  destruct (extract_entry chunk) as [e|]; [|discriminate].
  destruct (extract_sl chunk) as [stop|]; [|discriminate].
  simpl. now intros [= <-].
Qed.


(** ** The entry zone *)

Lemma matches_no_groups r prev w rest g g' :
  matches r prev w rest g g' -> no_groups r = true -> g' = g.
Proof.
  induction 1; simpl; intros Hn; auto; try discriminate.
  - apply andb_true_iff in Hn. destruct Hn as [H1 H2].
    rewrite IHmatches2, IHmatches1; auto.
  - apply andb_true_iff in Hn. tauto.
  - apply andb_true_iff in Hn. tauto.
Qed.

Lemma matches_num prev w rest g g' :
  matches NUM prev w rest g g' -> numeral w /\ g' = g.
Proof.
  unfold NUM. intros M. apply matches_rep_inv in M.
  destruct M as (Hp & Hlen & _ & ->). repeat split; auto.
  intros ->. simpl in Hlen. lia.
Qed.

(** A match of [PRICE_RANGE_RE] reads two numerals, the first group before
    the second. *)
Lemma price_range_matches prev w rest g :
  matches PRICE_RANGE_RE prev w rest [] g ->
  exists a n1 b n2,
    w = a ++ n1 ++ b ++ n2 /\ g = [(2%nat, n2); (1%nat, n1)]
    /\ numeral n1 /\ numeral n2.
Proof.
  unfold PRICE_RANGE_RE. intros M.
  apply matches_seq_inv in M. destruct M as (w0 & t1 & g0 & -> & M0 & M).
  apply matches_no_groups in M0; [subst g0|reflexivity].
  apply matches_seq_inv in M. destruct M as (w1 & t2 & g1 & -> & M1 & M).
  apply matches_no_groups in M1; [subst g1|reflexivity].
  apply matches_seq_inv in M. destruct M as (n1 & t3 & g2 & -> & M2 & M).
  apply matches_grp_inv in M2. destruct M2 as (g2' & M2 & ->).
  apply matches_num in M2. destruct M2 as [Hn1 ->].
  apply matches_seq_inv in M. destruct M as (w3 & t4 & g3 & -> & M3 & M).
  apply matches_no_groups in M3; [subst g3|reflexivity].
  apply matches_seq_inv in M. destruct M as (w4 & t5 & g4 & -> & M4 & M).
  apply matches_no_groups in M4; [subst g4|reflexivity].
  apply matches_seq_inv in M. destruct M as (w5 & n2 & g5 & -> & M5 & M).
  apply matches_no_groups in M5; [subst g5|reflexivity].
  apply matches_grp_inv in M. destruct M as (g6 & M & ->).
  apply matches_num in M. destruct M as [Hn2 ->].
  exists (w0 ++ w1), n1, (w3 ++ w4 ++ w5), n2.
  split; [now rewrite <- !app_assoc|]. auto.
Qed.

Lemma single_matches prev w rest g :
  matches SINGLE_RE prev w rest [] g ->
  exists a n, w = a ++ n /\ g = [(1%nat, n)] /\ numeral n.
Proof.
  unfold SINGLE_RE. intros M.
  apply matches_seq_inv in M. destruct M as (w0 & t1 & g0 & -> & M0 & M).
  apply matches_no_groups in M0; [subst g0|reflexivity].
  apply matches_seq_inv in M. destruct M as (w1 & n & g1 & -> & M1 & M).
  apply matches_no_groups in M1; [subst g1|reflexivity].
  apply matches_grp_inv in M. destruct M as (g2 & M & ->).
  apply matches_num in M. destruct M as [Hn ->].
  exists (w0 ++ w1), n. split; [now rewrite <- !app_assoc|]. auto.
Qed.

Lemma extract_entry_rule chunk lo hi :
  extract_entry chunk = Ok (lo, hi) -> entry_rule chunk lo hi.
Proof.
  unfold extract_entry, entry_rule, group_number, group_or_empty, m_group.
  destruct (re_search PRICE_RANGE_RE chunk) as [m|] eqn:R.
  - apply re_search_first in R. destruct R as (pre & post & Hf).
    pose proof (proj2 (proj1 Hf)) as M. apply price_range_matches in M.
    destruct M as (a & n1 & b & n2 & Ht & Hg & Hn1 & Hn2).
    rewrite Hg in *. rewrite Ht in Hf. simpl.
    destruct (parse_number n1) as [x|] eqn:P1; [|discriminate].
    destruct (parse_number n2) as [y|] eqn:P2; [|discriminate].
    simpl. intros [= <- <-]. left.
    exists pre, a, n1, b, n2, post, x, y. auto 12.
  - apply re_search_nowhere in R.
    destruct (re_search SINGLE_RE chunk) as [m|] eqn:S.
    + apply re_search_first in S. destruct S as (pre & post & Hf).
      pose proof (proj2 (proj1 Hf)) as M. apply single_matches in M.
      destruct M as (a & n & Ht & Hg & Hn).
      rewrite Hg in *. rewrite Ht in Hf. simpl.
      destruct (parse_number n) as [v|] eqn:P; [|discriminate].
      simpl. intros [= <- <-]. right. left. split; [exact R|].
      exists pre, a, n, post, v. auto 12.
    + apply re_search_nowhere in S. intros [= <- <-]. right. right. auto.
Qed.


Lemma extract_fields_entry txt inst chunk sig :
  extract_fields txt inst chunk = Ok (Some sig) ->
  extract_entry chunk = Ok (entry_min sig, entry_max sig).
Proof.
  unfold extract_fields.
  destruct (extract_side chunk) as [sd|]; [|discriminate].
  destruct (extract_entry chunk) as [[lo hi]|]; [|discriminate].
  destruct (extract_sl chunk) as [stop|]; [|discriminate].
  simpl. now intros [= <-].
Qed.



(** ** Iterating over the matches *)

Lemma in_order_le pos pos' ms :
  (pos' <= pos)%nat -> in_order pos ms -> in_order pos' ms.
Proof. destruct ms; simpl; [auto|]. intros ? (? & ? & ?). repeat split; auto; lia. Qed.

(** The matches of [finditer] are occurrences of the pattern in the whole
    text, one after the other. *)
Lemma finditer_from_spec r (fuel : nat) :
  forall done s,
    let ms := finditer_from fuel r (List.length done) (last_chr None done) s in
    in_order (List.length done) ms
    /\ Forall (fun m =>
                 exists pre rest,
                   occurs_at r (done ++ s) pre (m_text m) rest (m_groups m)
                   /\ m_start m = List.length pre
                   /\ m_end m = (List.length pre + List.length (m_text m))%nat)
              ms.
Proof.
  induction fuel as [|fuel IH]; intros done s; simpl; [split; constructor|].
  destruct (search_from r (List.length done) (last_chr None done) s)
    as [[[m prev'] rest]|] eqn:E; [|split; constructor].
  apply search_from_sound in E.
  destruct E as (pre & w & -> & Hst & Hen & Ht & M & -> & _).
  assert (Hocc : exists pre0 rest0,
             occurs_at r (done ++ pre ++ w ++ rest) pre0 (m_text m) rest0
                       (m_groups m)
             /\ m_start m = List.length pre0
             /\ m_end m = (List.length pre0 + List.length (m_text m))%nat).
  { exists (done ++ pre), rest. unfold occurs_at.
    rewrite Ht, last_chr_app, length_app, <- app_assoc.
    repeat split; auto; lia. }
  assert (Hrest : forall x,
             done ++ pre ++ w ++ x = (done ++ pre ++ w) ++ x)
    by (intros; now rewrite <- !app_assoc).
  destruct (Nat.eqb (m_end m) (m_start m)) eqn:Eq.
  - destruct rest as [|c rest].
    + split; [|now repeat constructor]. simpl. repeat split; lia.
    + specialize (IH ((done ++ pre ++ w) ++ [c]) rest). cbv zeta in IH.
      rewrite last_chr_app in IH. simpl in IH.
      replace (List.length ((done ++ pre ++ w) ++ [c])) with (S (m_end m)) in IH
        by (rewrite !length_app; simpl; lia).
      destruct IH as [IHo IHf]. split.
      * simpl. repeat split; try lia. eapply in_order_le; [|exact IHo]. lia.
      * constructor; [exact Hocc|].
        rewrite <- app_assoc in IHf. simpl in IHf. now rewrite Hrest.
  - specialize (IH (done ++ pre ++ w) rest). cbv zeta in IH.
    replace (List.length (done ++ pre ++ w)) with (m_end m) in IH
      by (rewrite !length_app; lia).
    rewrite last_chr_app in IH.
    destruct IH as [IHo IHf]. split.
    + simpl. repeat split; try lia. exact IHo.
    + constructor; [exact Hocc|]. now rewrite Hrest.
Qed.

Lemma re_finditer_spec r s :
  in_order 0 (re_finditer r s)
  /\ Forall (fun m =>
               exists pre rest,
                 occurs_at r s pre (m_text m) rest (m_groups m)
                 /\ m_start m = List.length pre
                 /\ m_end m = (List.length pre + List.length (m_text m))%nat)
            (re_finditer r s).
Proof. exact (finditer_from_spec r (S (List.length s)) [] s). Qed.

(** More fuel than the text is long changes nothing: the iteration ends
    by itself. *)
Lemma finditer_from_fuel r (fuel1 : nat) :
  forall fuel2 pos prev s,
    (List.length s < fuel1)%nat -> (List.length s < fuel2)%nat ->
    finditer_from fuel1 r pos prev s = finditer_from fuel2 r pos prev s.
Proof.
  induction fuel1 as [|fuel1 IH]; intros fuel2 pos prev s H1 H2; [lia|].
  destruct fuel2 as [|fuel2]; [lia|]. simpl.
  destruct (search_from r pos prev s) as [[[m prev'] rest]|] eqn:E;
    [|reflexivity].
  apply search_from_sound in E.
  destruct E as (pre & w & -> & Hst & Hen & _).
  rewrite !length_app in H1, H2.
  destruct (Nat.eqb (m_end m) (m_start m)) eqn:Eq.
  - destruct rest as [|c rest]; [reflexivity|]. simpl in H1, H2.
    f_equal. apply IH; lia.
  - apply Nat.eqb_neq in Eq. f_equal. apply IH; lia.
Qed.

(** ** Take-profits *)

(** A match of the take-profit pattern is a label, separators and a
    numeral; the numeral is the second group. *)
Lemma tp_re_matches prev w rest g :
  matches TP_RE prev w rest [] g ->
  exists label sep n,
    w = label ++ sep ++ n /\ g = [(2%nat, n); (1%nat, label)]
    /\ tp_label label
    /\ forallb (fun c => chr_eqb c ":" || chr_eqb c "=" || is_space c) sep = true
    /\ numeral n.
Proof.
  unfold TP_RE, SEP, NUM. intros M.
  apply matches_seq_inv in M. destruct M as (label & t1 & g1 & -> & Ml & M).
  apply matches_grp_inv in Ml. destruct Ml as (g0 & Ml & ->).
  apply matches_seq_inv in M. destruct M as (sep & n & g2 & -> & Ms & Mn).
  apply matches_rep_inv in Ms. destruct Ms as (Hsep & _ & _ & ->).
  apply matches_grp_inv in Mn. destruct Mn as (g3 & Mn & ->).
  apply matches_rep_inv in Mn. destruct Mn as (Hn & Hlen & _ & ->).
  assert (Hl : tp_label label /\ g0 = []).
  { apply matches_alt_inv in Ml. destruct Ml as [Ml|Ml].
    - apply matches_seq_inv in Ml. destruct Ml as (t & d & g4 & -> & Mt & Md).
      apply matches_lit_i_inv in Mt. destruct Mt as [Ht ->].
      apply matches_rep_inv in Md. destruct Md as (Hd & _ & _ & ->).
      split; [|reflexivity]. left. exists t, d. auto.
    - apply matches_lit_i_inv in Ml. destruct Ml as [Ht ->].
      split; [|reflexivity]. now right. }
  destruct Hl as [Hl ->].
  exists label, sep, n. repeat split; auto.
  intros ->. simpl in Hlen. lia.
Qed.

Lemma Forall_Forall2_map {X Y} (P : X -> Y -> Prop) (f : X -> Y) (l : list X) :
  Forall (fun x => P x (f x)) l -> Forall2 P l (map f l).
Proof. induction 1; simpl; constructor; auto. Qed.

Lemma scan_tps_converted s :
  scan_tps s = converted (map (group_or_empty 2) (re_finditer TP_RE s)).
Proof.
  unfold scan_tps, converted, group_number.
  induction (re_finditer TP_RE s) as [|m ms IH]; [reflexivity|].
  simpl. rewrite IH. f_equal.
  now destruct (parse_number (group_or_empty 2 m)).
Qed.

(** The scan: the labelled take-profits of [s] from left to right, and
    the values of those whose numeral converts. *)
Lemma scan_tps_spec s :
  exists ms ns,
    in_order 0 ms /\ Forall2 (tp_mention s) ms ns /\ scan_tps s = converted ns.
Proof.
  exists (re_finditer TP_RE s), (map (group_or_empty 2) (re_finditer TP_RE s)).
  destruct (re_finditer_spec TP_RE s) as [Ho Hf].
  split; [exact Ho|]. split; [|apply scan_tps_converted].
  apply Forall_Forall2_map. eapply Forall_impl; [|exact Hf].
  intros m (pre & post & [Hs M] & Hst & Hen).
  apply tp_re_matches in M.
  destruct M as (label & sep & n & Ht & Hg & Hl & Hsep & Hn).
  unfold tp_mention, group_or_empty, m_group. rewrite Hg. simpl.
  exists pre, label, sep, post. rewrite <- Ht. auto 10.
Qed.

(** ** Reading a text through a character map, before a tail *)

Section Simulation.
Variable f : ascii -> ascii.
Variable tail : str.
Context {A B : Type}.
Variable Q : A -> B -> Prop.

Lemma inside_app (w rest y : str) :
  inside tail y -> y = w ++ rest -> inside tail rest.
Proof.
  intros (pre & Hne & ->) ->. exists (pre ++ w). split.
  - destruct pre; [congruence|discriminate].
  - now rewrite app_assoc.
Qed.

Lemma rep_inside p lo hi prev y (k : option ascii -> str -> option A) :
  (forall q z, inside tail z -> k q z = None) ->
  inside tail y -> rep p lo hi prev y k = None.
Proof.
  intros K2 Hy. destruct (rep p lo hi prev y k) as [a|] eqn:E; [|reflexivity].
  apply rep_sound in E. destruct E as (w & rest & Hs & _ & _ & _ & Hk).
  rewrite K2 in Hk; [discriminate|]. eapply inside_app; eauto.
Qed.

Lemma run_inside r prev y g (k : @cont A) :
  (forall q z h, inside tail z -> k q z h = None) ->
  inside tail y -> run r prev y g k = None.
Proof.
  intros K2 Hy. destruct (run r prev y g k) as [a|] eqn:E; [|reflexivity].
  apply run_sound in E. destruct E as (w & rest & g' & Hs & _ & Hk).
  rewrite K2 in Hk; [discriminate|]. eapply inside_app; eauto.
Qed.

Lemma rep_sim p (x : str) :
  (forall c, p (f c) = p c) ->
  forall lo hi prev prev'
         (k : option ascii -> str -> option A)
         (k' : option ascii -> str -> option B),
    (forall q q' z, orel Q (k q (z ++ tail)) (k' q' (map f z))) ->
    (forall lo' hi' q c t,
        tail = c :: t -> p c = true -> rep p lo' hi' q t k = None) ->
    orel Q (rep p lo hi prev (x ++ tail) k) (rep p lo hi prev' (map f x) k').
Proof.
  intros Hp. induction x as [|c x IH]; intros lo hi prev prev' k k' K K2.
  - assert (Hstop : orel Q (match lo with O => k prev tail | S _ => None end)
                         (match lo with O => k' prev' [] | S _ => None end)).
    { destruct lo; [apply (K prev prev' [])|exact I]. }
    simpl. destruct tail as [|c t] eqn:Et; [exact Hstop|]. simpl.
    destruct (p c && match hi with Some O => false | _ => true end) eqn:E;
      [|exact Hstop].
    apply andb_true_iff in E. destruct E as [Hc _].
    now rewrite (K2 _ _ _ c t eq_refl Hc).
  - assert (Hstop : orel Q (match lo with
                            | O => k prev ((c :: x) ++ tail) | S _ => None end)
                         (match lo with
                          | O => k' prev' (map f (c :: x)) | S _ => None end)).
    { destruct lo; [apply K|exact I]. }
    simpl. simpl in Hstop. rewrite Hp.
    destruct (p c && match hi with Some O => false | _ => true end);
      [|exact Hstop].
    specialize (IH (Nat.pred lo) (option_map Nat.pred hi)
                   (Some c) (Some (f c)) k k' K K2).
    destruct (rep p (Nat.pred lo) (option_map Nat.pred hi) (Some c)
                  (x ++ tail) k),
             (rep p (Nat.pred lo) (option_map Nat.pred hi) (Some (f c))
                  (map f x) k'); simpl in IH; try contradiction; auto.
Qed.

Lemma firstn_sim (x z : str) :
  map f (firstn (List.length (x ++ tail) - List.length (z ++ tail)) (x ++ tail))
  = firstn (List.length (map f x) - List.length (map f z)) (map f x).
Proof.
  rewrite !length_app, !length_map.
  replace (List.length x + List.length tail
           - (List.length z + List.length tail))%nat
    with (List.length x - List.length z)%nat by lia.
  rewrite firstn_app.
  replace (List.length x - List.length z - List.length x)%nat with O by lia.
  simpl. rewrite app_nil_r. symmetry. apply firstn_map.
Qed.

Lemma run_sim (r : regex) :
  respects f r ->
  forall prev prev' x g (k : @cont A) (k' : @cont B),
    (forall q q' z h,
        orel Q (k q (z ++ tail) h) (k' q' (map f z) (map_groups f h))) ->
    (forall q z h, inside tail z -> k q z h = None) ->
    orel Q (run r prev (x ++ tail) g k)
         (run r prev' (map f x) (map_groups f g) k').
Proof.
  induction r as [|p|r1 IH1 r2 IH2|r1 IH1 r2 IH2|r1 IH1|p lo hi|n r1 IH1|];
    intros Hr prev prev' x g k k' K K2; simpl in Hr; simpl run.
  - apply K.
  - destruct x as [|c x]; simpl.
    + destruct tail as [|c t] eqn:Et; [exact I|].
      destruct (p c); [|exact I].
      rewrite K2; [exact I|]. exists [c]. split; [discriminate|reflexivity].
    + rewrite Hr. destruct (p c); [apply K|exact I].
  - destruct Hr as [Hr1 Hr2].
    apply (IH1 Hr1 prev prev' x g
               (fun q s' h => run r2 q s' h k) (fun q s' h => run r2 q s' h k')).
    + intros q q' z h. apply IH2; assumption.
    + intros q z h Hz. apply run_inside; assumption.
  - destruct Hr as [Hr1 Hr2].
    specialize (IH1 Hr1 prev prev' x g k k' K K2).
    specialize (IH2 Hr2 prev prev' x g k k' K K2).
    destruct (run r1 prev (x ++ tail) g k),
             (run r1 prev' (map f x) (map_groups f g) k');
      simpl in IH1; try contradiction; auto.
  - specialize (IH1 Hr prev prev' x g k k' K K2).
    destruct (run r1 prev (x ++ tail) g k),
             (run r1 prev' (map f x) (map_groups f g) k');
      simpl in IH1; try contradiction; auto.
  - apply rep_sim.
    + exact Hr.
    + intros q q' z. apply K.
    + intros lo' hi' q c t Et Hc. apply rep_inside.
      * intros q0 z Hz. now apply K2.
      * exists [c]. split; [discriminate|]. now rewrite Et.
  - apply (IH1 Hr prev prev' x g
               (fun q s' h =>
                  k q s' ((n, firstn (List.length (x ++ tail) - List.length s')
                                     (x ++ tail)) :: h))
               (fun q s' h =>
                  k' q s' ((n, firstn (List.length (map f x) - List.length s')
                                      (map f x)) :: h))).
    + intros q q' z h. rewrite <- firstn_sim. apply (K q q' z ((n, _) :: h)).
    + intros q z h Hz. now apply K2.
  - contradiction.
Qed.
End Simulation.

(** ** The take-profit scan on the flattened message *)

Lemma space_not_num (c : ascii) : is_space c = true -> is_num_chr c = false.
Proof. destruct c as [[] [] [] [] [] [] [] []]; vm_compute; congruence. Qed.

Lemma unbreak_cases (c : ascii) : (c = "010"%char /\ unbreak c = " "%char) \/ unbreak c = c.
Proof.
  unfold unbreak. destruct (chr_eqb c "010") eqn:E; [left|now right].
  apply chr_eqb_eq in E. auto.
Qed.

(** A class that does not tell a newline from a space. *)
Lemma unbreak_class (p : ascii -> bool) :
  p "010"%char = p " "%char -> forall c, p (unbreak c) = p c.
Proof.
  intros H c. destruct (unbreak_cases c) as [[-> ->]| ->]; auto.
Qed.

Lemma tp_head_respects :
  respects unbreak
           (Seq (Grp 1 (Alt (Seq (lit_i (lit "tp")) (Rep is_digit 0 None))
                            (lit_i (lit "target"))))
                SEP).
Proof.
  cbv - [unbreak chr_eqb lower_chr is_digit is_space orb].
  repeat split; intros c;
    destruct (unbreak_cases c) as [[-> ->]| ->]; reflexivity.
Qed.

Lemma inside_spaces tail z :
  forallb is_space tail = true -> inside tail z -> forallb is_space z = true.
Proof.
  intros H (pre & _ & ->). rewrite forallb_app in H.
  now apply andb_true_iff in H.
Qed.

Lemma num_fails_on_space {A} q z h (k : @cont A) :
  forallb is_space z = true -> run (Grp 2 NUM) q z h k = None.
Proof.
  intros H. simpl. destruct z as [|c z]; [reflexivity|]. simpl in *.
  apply andb_true_iff in H. destruct H as [Hc _].
  now rewrite (space_not_num c Hc).
Qed.

Lemma match_here_tp_sim (tail x : str) prev prev' :
  forallb is_space tail = true ->
  orel (here_rel unbreak tail)
       (match_here TP_RE prev (x ++ tail))
       (match_here TP_RE prev' (map unbreak x)).
Proof.
  intros Ht. unfold match_here, TP_RE.
  apply (run_sim unbreak tail (here_rel unbreak tail) _ tp_head_respects
                 prev prev' x []
                 (fun q s h => run (Grp 2 NUM) q s h
                                   (fun q' s' h' => Some (q', s', h')))
                 (fun q s h => run (Grp 2 NUM) q s h
                                   (fun q' s' h' => Some (q', s', h')))).
  - intros q q' z h. simpl run. apply rep_sim.
    + intros c. apply unbreak_class. reflexivity.
    + intros q0 q0' z0. simpl. unfold here_rel. simpl. split; [eauto|].
      now rewrite <- (firstn_sim unbreak tail).
    + intros lo' hi' q0 c t Et Hc. exfalso.
      rewrite Et in Ht. simpl in Ht. apply andb_true_iff in Ht.
      destruct Ht as [Hs _]. apply space_not_num in Hs. congruence.
  - intros q z h Hz. apply num_fails_on_space.
    eapply inside_spaces; eauto.
Qed.

Lemma space_not_t (c : ascii) : is_space c = true -> lower_chr c <> "t"%char.
Proof. destruct c as [[] [] [] [] [] [] [] []]; vm_compute; congruence. Qed.

Lemma tp_starts_with_t prev w rest g :
  matches TP_RE prev w rest [] g ->
  exists c w', w = c :: w' /\ lower_chr c = "t"%char.
Proof.
  intros M. apply tp_re_matches in M.
  destruct M as (label & sep & n & -> & _ & Hl & _).
  destruct Hl as [(t & d & -> & Ht & _)|Ht].
  - destruct t as [|c t]; [discriminate|]. injection Ht as Hc _.
    exists c, ((t ++ d) ++ sep ++ n). split; [reflexivity|exact Hc].
  - destruct label as [|c t]; [discriminate|]. injection Ht as Hc _.
    exists c, (t ++ sep ++ n). split; [reflexivity|exact Hc].
Qed.

Lemma match_here_tp_space prev c s :
  is_space c = true -> match_here TP_RE prev (c :: s) = None.
Proof.
  intros Hc. destruct (match_here TP_RE prev (c :: s)) as [[[q rest] g]|] eqn:E;
    [|reflexivity].
  apply match_here_sound in E. destruct E as (w & Hs & M & _).
  apply tp_starts_with_t in M. destruct M as (c' & w' & -> & Ht).
  injection Hs as <- _. now apply space_not_t in Hc.
Qed.

Lemma match_here_tp_nil prev : match_here TP_RE prev [] = None.
Proof.
  destruct (match_here TP_RE prev []) as [[[q rest] g]|] eqn:E; [|reflexivity].
  apply match_here_sound in E. destruct E as (w & Hs & M & _).
  apply tp_starts_with_t in M. destruct M as (c' & w' & -> & _). discriminate.
Qed.

(** No take-profit in a run of whitespace. *)
Lemma search_tp_spaces (t : str) :
  forallb is_space t = true ->
  forall pos prev, search_from TP_RE pos prev t = None.
Proof.
  induction t as [|c t IH]; intros H pos prev; rewrite search_from_eq.
  - now rewrite match_here_tp_nil.
  - simpl in H. apply andb_true_iff in H. destruct H as [Hc Ht].
    rewrite match_here_tp_space by exact Hc. now apply IH.
Qed.

Lemma search_tp_skip (l : str) :
  forallb is_space l = true ->
  forall pos prev s,
    search_from TP_RE pos prev (l ++ s)
    = search_from TP_RE (pos + List.length l) (last_chr prev l) s.
Proof.
  induction l as [|c l IH]; intros H pos prev s.
  - simpl. now rewrite Nat.add_0_r.
  - simpl in H. apply andb_true_iff in H. destruct H as [Hc Hl].
    rewrite search_from_eq. simpl app.
    rewrite match_here_tp_space by exact Hc.
    rewrite IH by exact Hl. simpl. f_equal. lia.
Qed.

Lemma search_tp_sim (tail x : str) :
  forallb is_space tail = true ->
  forall pos pos' prev prev',
    orel (search_rel unbreak tail)
         (search_from TP_RE pos prev (x ++ tail))
         (search_from TP_RE pos' prev' (map unbreak x)).
Proof.
  intros Ht. induction x as [|c x IH]; intros pos pos' prev prev';
    rewrite (search_from_eq TP_RE pos), (search_from_eq TP_RE pos').
  - pose proof (match_here_tp_sim tail [] prev prev' Ht) as H.
    simpl app in *. simpl map in *. rewrite match_here_tp_nil in *.
    destruct (match_here TP_RE prev tail); [contradiction|].
    destruct tail as [|c t]; [exact I|].
    simpl in Ht. apply andb_true_iff in Ht.
    now rewrite search_tp_spaces.
  - pose proof (match_here_tp_sim tail (c :: x) prev prev' Ht) as H.
    destruct (match_here TP_RE prev ((c :: x) ++ tail)) as [[[q rl] gl]|],
             (match_here TP_RE prev' (map unbreak (c :: x))) as [[[q' rr] gr]|];
      simpl in H; try contradiction.
    + destruct H as [(y & Hl & Hr) Hg]. simpl in Hl, Hr, Hg. subst.
      cbv zeta.
      replace (List.length (map unbreak (c :: x))
               - List.length (map unbreak y))%nat
        with (List.length ((c :: x) ++ tail) - List.length (y ++ tail))%nat
        by (rewrite !length_app, !length_map; lia).
      generalize (List.length ((c :: x) ++ tail)
                  - List.length (y ++ tail))%nat.
      intros n. unfold search_rel. simpl.
      split; [exists y; split; reflexivity|]. split; [reflexivity|].
      exists n. split; reflexivity.
    + apply IH.
Qed.

Lemma finditer_tp_spaces (t : str) fuel pos prev :
  forallb is_space t = true -> finditer_from fuel TP_RE pos prev t = [].
Proof.
  intros H. destruct fuel; [reflexivity|]. simpl.
  now rewrite search_tp_spaces.
Qed.

Lemma finditer_tp_sim (tail : str) :
  forallb is_space tail = true ->
  forall fuel x pos pos' prev prev',
    map m_groups (finditer_from fuel TP_RE pos' prev' (map unbreak x))
    = map (map_groups unbreak)
          (map m_groups (finditer_from fuel TP_RE pos prev (x ++ tail))).
Proof.
  intros Ht. induction fuel as [|fuel IH]; intros x pos pos' prev prev';
    [reflexivity|]. simpl.
  pose proof (search_tp_sim tail x Ht pos pos' prev prev') as H.
  destruct (search_from TP_RE pos prev (x ++ tail)) as [[[m q] rl]|],
           (search_from TP_RE pos' prev' (map unbreak x)) as [[[m' q'] rr]|];
    simpl in H; try contradiction; [|reflexivity].
  destruct H as ((y & Hl & Hr) & Hg & n & Hn & Hn'). simpl in *. subst rl rr.
  replace (Nat.eqb (m_end m') (m_start m')) with (Nat.eqb n 0)
    by (rewrite Hn'; destruct n; simpl;
        [rewrite Nat.add_0_r; symmetry; apply Nat.eqb_refl
        |symmetry; apply Nat.eqb_neq; lia]).
  replace (Nat.eqb (m_end m) (m_start m)) with (Nat.eqb n 0)
    by (rewrite Hn; destruct n; simpl;
        [rewrite Nat.add_0_r; symmetry; apply Nat.eqb_refl
        |symmetry; apply Nat.eqb_neq; lia]).
  destruct (Nat.eqb n 0).
  - destruct y as [|c y]; simpl.
    + destruct tail as [|c t]; simpl; [now rewrite Hg|].
      simpl in Ht. apply andb_true_iff in Ht. destruct Ht as [_ Ht].
      rewrite finditer_tp_spaces by exact Ht. simpl. now rewrite Hg.
    + rewrite Hg. f_equal. apply IH.
  - simpl. rewrite Hg. f_equal. apply IH.
Qed.

Lemma finditer_tp_skip (l : str) fuel pos prev s :
  forallb is_space l = true ->
  finditer_from fuel TP_RE pos prev (l ++ s)
  = finditer_from fuel TP_RE (pos + List.length l) (last_chr prev l) s.
Proof.
  intros H. destruct fuel; [reflexivity|]. simpl.
  now rewrite search_tp_skip.
Qed.

(** ** Trimming *)

Lemma lstrip_split (s : str) :
  exists l, s = l ++ lstrip s /\ forallb is_space l = true.
Proof.
  induction s as [|c s (l & Hs & Hl)]; simpl.
  - now exists [].
  - destruct (is_space c) eqn:E.
    + exists (c :: l). simpl. rewrite E, Hl. split; [now f_equal|reflexivity].
    + now exists [].
Qed.

Lemma forallb_rev {X} (p : X -> bool) (l : list X) :
  forallb p (rev l) = forallb p l.
Proof.
  induction l as [|x l IH]; [reflexivity|]. simpl.
  rewrite forallb_app, IH. simpl. rewrite andb_true_r. apply andb_comm.
Qed.

(** A message is its trimmed text between two runs of whitespace. *)
Lemma strip_split (s : str) :
  exists l r,
    s = l ++ strip s ++ r
    /\ forallb is_space l = true /\ forallb is_space r = true.
Proof.
  unfold strip, rstrip.
  destruct (lstrip_split s) as (l & Hs & Hl).
  destruct (lstrip_split (rev (lstrip s))) as (r & Hr & Hrs).
  exists l, (rev r). split; [|split; [exact Hl|now rewrite forallb_rev]].
  rewrite <- rev_app_distr, <- Hr, rev_involutive. exact Hs.
Qed.

Lemma lstrip_map (f : ascii -> ascii) (s : str) :
  (forall c, is_space (f c) = is_space c) ->
  lstrip (map f s) = map f (lstrip s).
Proof.
  intros H. induction s as [|c s IH]; [reflexivity|]. simpl.
  rewrite H. now destruct (is_space c).
Qed.

Lemma flatten_unbreak (text : str) : flatten text = map unbreak (strip text).
Proof.
  assert (H : forall c, is_space (unbreak c) = is_space c)
    by (apply unbreak_class; reflexivity).
  unfold flatten, strip, rstrip.
  change (replace_chr "010" " " text) with (map unbreak text).
  now rewrite lstrip_map, <- map_rev, lstrip_map, map_rev by exact H.
Qed.

(** ** The scan of the flattened message is the scan of the message *)

Lemma tp_groups_flatten (text : str) :
  map m_groups (re_finditer TP_RE (flatten text))
  = map (map_groups unbreak) (map m_groups (re_finditer TP_RE text)).
Proof.
  rewrite flatten_unbreak.
  destruct (strip_split text) as (l & r & Hs & Hl & Hr).
  assert (Hlen : (List.length (map unbreak (strip text))
                  < S (List.length text))%nat).
  { rewrite length_map. apply (f_equal (@List.length ascii)) in Hs.
    rewrite !length_app in Hs. lia. }
  unfold re_finditer.
  rewrite (finditer_from_fuel TP_RE _ (S (List.length text)) _ _ _
                              (Nat.lt_succ_diag_r _) Hlen).
  generalize (S (List.length text)). intros fuel.
  rewrite Hs at 2. rewrite finditer_tp_skip by exact Hl.
  now apply finditer_tp_sim.
Qed.

Lemma group_map_groups f n g :
  group n (map_groups f g) = option_map (map f) (group n g).
Proof.
  induction g as [|[i t] g IH]; [reflexivity|]. simpl.
  now destruct (Nat.eqb i n).
Qed.

Lemma numeral_unbreak (n : str) :
  forallb is_num_chr n = true -> map unbreak n = n.
Proof.
  induction n as [|c n IH]; [reflexivity|]. simpl. intros H.
  apply andb_true_iff in H. destruct H as [Hc Hn]. rewrite (IH Hn). f_equal.
  destruct (unbreak_cases c) as [[-> _]|E]; [discriminate|exact E].
Qed.

(** The take-profit scan gives the same on a message and on the message
    flattened to one line. *)
Lemma scan_tps_flatten (text : str) : scan_tps (flatten text) = scan_tps text.
Proof.
  rewrite !scan_tps_converted. f_equal.
  assert (E : forall ms,
             map (group_or_empty 2) ms
             = map (fun g => match group 2 g with Some s => s | None => [] end)
                   (map m_groups ms))
    by (intros ms; rewrite map_map; reflexivity).
  rewrite !E, tp_groups_flatten, !map_map.
  apply map_ext_in. intros m Hm.
  rewrite group_map_groups.
  destruct (re_finditer_spec TP_RE text) as [_ Hf].
  rewrite Forall_forall in Hf.
  destruct (Hf m Hm) as (pre & post & [_ M] & _).
  apply tp_re_matches in M. destruct M as (label & sep & n & _ & -> & _ & _ & Hn).
  simpl. apply numeral_unbreak. apply Hn.
Qed.

Lemma extract_fields_tps txt inst chunk sig :
  extract_fields txt inst chunk = Ok (Some sig) ->
  tps sig = match scan_tps chunk with
            | [] => scan_tps txt
            | _ :: _ => scan_tps chunk
            end.
Proof.
  unfold extract_fields.
  destruct (extract_side chunk) as [sd|]; [|discriminate].
  destruct (extract_entry chunk) as [e|]; [|discriminate].
  destruct (extract_sl chunk) as [stop|]; [|discriminate].
  simpl. now intros [= <-].
Qed.

(** Whatever the take-profits are, a window with a side whose entry and
    stop-loss convert gives its signal. *)
Lemma extract_fields_total txt inst chunk sd e stop :
  extract_side chunk = Some sd ->
  extract_entry chunk = Ok e ->
  extract_sl chunk = Ok stop ->
  exists sig, extract_fields txt inst chunk = Ok (Some sig).
Proof.
  intros Hs He Hl. unfold extract_fields. rewrite Hs, He, Hl. simpl. eauto.
Qed.


(* ===================================================================== *)
(** * Further properties of the parser and of the sizing *)
(* ===================================================================== *)

(** ** The candidates of a message *)

Lemma dict_get_In (k v : str) (d : list (str * str)) :
  dict_get k d = Some v -> In (k, v) d.
Proof.
  induction d as [|[k' v'] d IH]; simpl; [discriminate|].
  destruct (str_eqb k' k) eqn:E.
  - apply str_eqb_eq in E. intros [= ->]. subst. now left.
  - intros H. right. now apply IH.
Qed.

Lemma pair_mem_In (x : str * str) (l : list (str * str)) :
  In x l -> pair_mem x l = true.
Proof.
  intros H. unfold pair_mem. apply existsb_exists. exists x. split; [exact H|].
  unfold pair_eqb. now rewrite !str_eqb_refl.
Qed.

Lemma starts_with_app (p b : str) : starts_with p (p ++ b) = true.
Proof. induction p; simpl; [reflexivity|]. now rewrite chr_eqb_refl. Qed.

Lemma contains_cons (p : str) (c : ascii) (s : str) :
  contains p (c :: s) = (starts_with p (c :: s) || contains p s).
Proof. reflexivity. Qed.

Lemma contains_head (p b : str) : contains p (p ++ b) = true.
Proof.
  pose proof (starts_with_app p b) as H.
  destruct (p ++ b); simpl; now rewrite H.
Qed.

Lemma contains_app (p a b : str) : contains p (a ++ p ++ b) = true.
Proof.
  induction a as [|c a IH]; [exact (contains_head p b)|].
  change ((c :: a) ++ p ++ b) with (c :: (a ++ p ++ b)).
  rewrite contains_cons, IH. apply orb_true_r.
Qed.

Lemma alpha_plain (c : ascii) :
  is_alpha c = true ->
  lower_chr (lower_chr c) = lower_chr c /\ is_sep (lower_chr c) = false
  /\ is_space c = false /\ unbreak c = c.
Proof. destruct c as [[] [] [] [] [] [] [] []]; vm_compute; intuition congruence. Qed.

Lemma alpha_token_key (t : str) :
  forallb is_alpha t = true -> token_key (lower t) = lower t.
Proof.
  induction t as [|c t IH]; [reflexivity|]. simpl. intros H.
  apply andb_true_iff in H. destruct H as [Hc Ht].
  destruct (alpha_plain c Hc) as (Hl & Hs & _).
  change (map lower_chr t) with (lower t).
  now rewrite token_key_cons, Hs, Hl, IH.
Qed.

Lemma alpha_unbreak (t : str) : forallb is_alpha t = true -> map unbreak t = t.
Proof.
  induction t as [|c t IH]; [reflexivity|]. simpl. intros H.
  apply andb_true_iff in H. destruct H as [Hc Ht].
  destruct (alpha_plain c Hc) as (_ & _ & _ & Hu). now rewrite Hu, IH.
Qed.

Lemma alpha_no_space (t : str) :
  forallb is_alpha t = true -> forallb (fun c => negb (is_space c)) t = true.
Proof.
  induction t as [|c t IH]; [reflexivity|]. simpl. intros H.
  apply andb_true_iff in H. destruct H as [Hc Ht].
  destruct (alpha_plain c Hc) as (_ & _ & Hs & _). now rewrite Hs, IH.
Qed.

(** Trimming keeps a piece of text that has no whitespace in it. *)
Lemma lstrip_keeps (a t b : str) :
  t <> [] -> forallb (fun c => negb (is_space c)) t = true ->
  exists a', lstrip (a ++ t ++ b) = a' ++ t ++ b.
Proof.
  intros Hne Ht. induction a as [|c a (a' & IH)].
  - exists []. destruct t as [|x t]; [congruence|]. simpl in *.
    apply andb_true_iff in Ht. destruct Ht as [Hx _].
    now destruct (is_space x).
  - simpl. destruct (is_space c); [now exists a'|now exists (c :: a)].
Qed.

Lemma rstrip_keeps (a t b : str) :
  t <> [] -> forallb (fun c => negb (is_space c)) t = true ->
  exists b', rstrip (a ++ t ++ b) = a ++ t ++ b'.
Proof.
  intros Hne Ht. unfold rstrip. rewrite !rev_app_distr, <- app_assoc.
  destruct (lstrip_keeps (rev b) (rev t) (rev a)) as (b' & H).
  - intros E. apply (f_equal (@rev ascii)) in E. rewrite rev_involutive in E.
    now apply Hne.
  - now rewrite forallb_rev.
  - exists (rev b'). rewrite H, !rev_app_distr, !rev_involutive, <- app_assoc.
    reflexivity.
Qed.

Lemma strip_keeps (a t b : str) :
  t <> [] -> forallb (fun c => negb (is_space c)) t = true ->
  exists a' b', strip (a ++ t ++ b) = a' ++ t ++ b'.
Proof.
  intros Hne Ht. unfold strip.
  destruct (lstrip_keeps a t b Hne Ht) as (a' & ->).
  destruct (rstrip_keeps a' t b Hne Ht) as (b' & ->). eauto.
Qed.

(** A run of letters of the message stands, lowered, in the lowered
    one-line text. *)
Lemma letters_in_flat (pre t post : str) :
  t <> [] -> forallb is_alpha t = true ->
  contains (lower t) (lower (flatten (pre ++ t ++ post))) = true.
Proof.
  intros Hne Ht. unfold flatten.
  change (replace_chr "010" " " (pre ++ t ++ post))
    with (map unbreak (pre ++ t ++ post)).
  rewrite !map_app, (alpha_unbreak t Ht).
  destruct (strip_keeps (map unbreak pre) t (map unbreak post) Hne
                        (alpha_no_space t Ht)) as (a & b & ->).
  unfold lower. rewrite !map_app. apply contains_app.
Qed.

(** What the token pattern reads: an optional "#", then letters; the two
    groups together are those letters. *)
Lemma token_re_matches prev w rest g :
  matches TOKEN_RE prev w rest [] g ->
  exists h t,
    w = h ++ t /\ t <> [] /\ forallb is_alpha t = true
    /\ t = (match group 1 g with Some s => s | None => [] end)
           ++ (match group 2 g with Some s => s | None => [] end).
Proof.
  unfold TOKEN_RE. intros M.
  apply matches_seq_inv in M. destruct M as (h & t0 & g0 & -> & M0 & M).
  apply matches_no_groups in M0; [subst g0|reflexivity].
  apply matches_seq_inv in M. destruct M as (t1 & t2 & g1 & -> & M1 & M2).
  apply matches_grp_inv in M1. destruct M1 as (g1' & M1 & ->).
  apply matches_rep_inv in M1. destruct M1 as (H1 & Hlen & _ & ->).
  assert (Hne : t1 ++ t2 <> []).
  { destruct t1; [simpl in Hlen; lia|discriminate]. }
  exists h, (t1 ++ t2). split; [reflexivity|]. split; [exact Hne|].
  apply matches_opt_inv in M2. destruct M2 as [M2|[-> ->]].
  - apply matches_grp_inv in M2. destruct M2 as (g2' & M2 & ->).
    apply matches_rep_inv in M2. destruct M2 as (H2 & _ & _ & ->).
    split; [|reflexivity]. rewrite forallb_app, H1, H2. reflexivity.
  - split; [|reflexivity]. rewrite forallb_app, H1. reflexivity.
Qed.

Lemma fold_left_fixed {X Y} (f : X -> Y -> X) (l : list Y) (x : X) :
  (forall y, In y l -> f x y = x) -> fold_left f l x = x.
Proof.
  induction l as [|y l IH]; intros H; [reflexivity|]. simpl.
  rewrite H by now left. apply IH. intros; apply H. now right.
Qed.

Lemma instrument_candidates_keys (text : str) :
  instrument_candidates text (lower (flatten text))
  = key_candidates (lower (flatten text)).
Proof.
  unfold instrument_candidates. apply fold_left_fixed. intros m Hm.
  destruct (re_finditer_spec TOKEN_RE text) as [_ Hf].
  rewrite Forall_forall in Hf.
  destruct (Hf m Hm) as (pre & post & [Hs M] & _).
  apply token_re_matches in M. destruct M as (h & t & Hw & Hne & Ht & Hg).
  change (t = group_or_empty 1 m ++ group_or_empty 2 m) in Hg.
  unfold sweep_step. rewrite <- Hg.
  unfold normalize_instrument. fold (token_key (lower t)).
  rewrite (alpha_token_key t Ht).
  destruct (dict_get (lower t) INSTRUMENT_MAP) as [inst|] eqn:D; [|reflexivity].
  rewrite pair_mem_In; [reflexivity|].
  unfold key_candidates. apply filter_In. split; [now apply dict_get_In|].
  simpl. rewrite Hs, Hw, <- app_assoc, app_assoc.
  now apply letters_in_flat.
Qed.

(** X1: the second loop of [parse_signals] finds nothing the first has not:
    a run of letters that names an instrument is one of the keys, and it
    already stands in the text.  The candidates are the keys of the map
    that occur in the lowered text, in the order of the map. *)
Theorem sweep_adds_nothing (text : str) :
  instrument_candidates text (lower (flatten text))
  = key_candidates (lower (flatten text)).
Proof. exact (instrument_candidates_keys text). Qed.

Lemma subseq_length {X} (l1 l2 : list X) :
  subseq l1 l2 -> (List.length l1 <= List.length l2)%nat.
Proof. induction 1; simpl; lia. Qed.

Lemma subseq_filter {X} (p : X -> bool) (l : list X) : subseq (filter p l) l.
Proof.
  induction l as [|x l IH]; simpl; [constructor|].
  destruct (p x); [now apply subseq_take|now apply subseq_skip].
Qed.

Lemma subseq_map {X Y} (f : X -> Y) (l1 l2 : list X) :
  subseq l1 l2 -> subseq (map f l1) (map f l2).
Proof.
  induction 1; simpl;
    [apply subseq_nil|now apply subseq_skip|now apply subseq_take].
Qed.

Lemma subseq_trans {X} (l1 l2 l3 : list X) :
  subseq l1 l2 -> subseq l2 l3 -> subseq l1 l3.
Proof.
  intros H12 H23. revert l1 H12.
  induction H23 as [|x l2 l3 _ IH|x l2 l3 _ IH]; intros l1 H12.
  - exact H12.
  - constructor. now apply IH.
  - inversion H12; subst.
    + apply subseq_skip. now apply IH.
    + apply subseq_take. now apply IH.
Qed.

Lemma extract_fields_instrument txt inst chunk sig :
  extract_fields txt inst chunk = Ok (Some sig) -> instrument sig = inst.
Proof.
  unfold extract_fields.
  destruct (extract_side chunk) as [sd|]; [|discriminate].
  destruct (extract_entry chunk) as [e|]; [|discriminate].
  destruct (extract_sl chunk) as [stop|]; [|discriminate].
  simpl. now intros [= <-].
Qed.

Lemma extract_candidate_instrument txt cand sig :
  extract_candidate txt cand = Ok (Some sig) -> instrument sig = snd cand.
Proof.
  unfold extract_candidate. destruct (window (fst cand) txt); [|discriminate].
  apply extract_fields_instrument.
Qed.

(** The loop gives at most one signal a candidate, in their order. *)
Lemma extract_all_subseq txt (cands : list (str * str)) :
  forall acc sigs,
    extract_all txt cands acc = Ok sigs ->
    exists new, sigs = acc ++ new
                /\ subseq (map instrument new) (map snd cands).
Proof.
  induction cands as [|cand cands IH]; intros acc sigs H; simpl in H.
  - injection H as <-. exists []. rewrite app_nil_r. split; [reflexivity|].
    constructor.
  - destruct (extract_candidate txt cand) as [r|e] eqn:E; [|discriminate].
    simpl in H. apply IH in H. destruct H as (new & -> & Hs).
    destruct r as [sig|].
    + exists (sig :: new). rewrite <- app_assoc. split; [reflexivity|].
      simpl. rewrite (extract_candidate_instrument _ _ _ E).
      now apply subseq_take.
    + exists new. split; [reflexivity|]. now apply subseq_skip.
Qed.

(** X3: a message gives at most one signal for each key of the instrument
    map, in the order of the map, whatever the order of the text: the
    instruments of the signals are a subsequence of the values of the map,
    so there are never more than eleven. *)
Theorem signals_follow_the_map (text : str) (sigs : list TradeSignal) :
  parse_signals text = Ok sigs ->
  subseq (map instrument sigs) (map snd INSTRUMENT_MAP)
  /\ (List.length sigs <= 11)%nat.
Proof.
  unfold parse_signals. fold (flatten text). rewrite instrument_candidates_keys.
  intros H. apply extract_all_subseq in H. destruct H as (new & -> & Hs).
  simpl app.
  assert (Hm : subseq (map instrument new) (map snd INSTRUMENT_MAP)).
  { eapply subseq_trans; [exact Hs|]. apply subseq_map, subseq_filter. }
  split; [exact Hm|].
  apply subseq_length in Hm. now rewrite !length_map in Hm.
Qed.

Lemma signals_follow_the_map_witness :
  subseq (map instrument [gold_signal]) (map snd INSTRUMENT_MAP)
  /\ (List.length [gold_signal] <= 11)%nat.
Proof.
  apply (signals_follow_the_map
           (lit "GOLD buy @1950 sl 1940 tp1 1960 tp2 1970")).
  vm_compute. reflexivity.
Defined.

Lemma key_candidates_none (text : str) :
  no_instrument text -> key_candidates (lower (flatten text)) = [].
Proof.
  unfold no_instrument, key_candidates. generalize INSTRUMENT_MAP.
  intros l. induction l as [|kv l IH]; intros H; [reflexivity|]. simpl.
  rewrite (H (fst kv)) by now left. apply IH. intros; apply H. now right.
Qed.

(** X4: a message that names no instrument of the map, the empty message
    among them, gives no signal and raises nothing, whatever else it
    holds. *)
Theorem no_instrument_no_signal (text : str) :
  no_instrument text -> parse_signals text = Ok [].
Proof.
  intros H. unfold parse_signals. fold (flatten text).
  now rewrite instrument_candidates_keys, key_candidates_none.
Qed.

Lemma no_instrument_no_signal_witness :
  parse_signals (lit "buy 1.2.3 sl . tp ,") = Ok [].
Proof.
  apply no_instrument_no_signal.
  intros key Hk. simpl in Hk.
  repeat (destruct Hk as [<-|Hk]; [vm_compute; reflexivity|]).
  contradiction.
Defined.

(** ** The window of a token *)

(** Greedy repetition: the split taken is the longest the continuation
    accepts. *)
Lemma rep_first {A : Type} p (s : str) :
  forall lo prev (k : option ascii -> str -> option A) a,
    rep p lo None prev s k = Some a ->
    exists w rest,
      s = w ++ rest /\ forallb p w = true /\ (lo <= List.length w)%nat
      /\ k (last_chr prev w) rest = Some a
      /\ forall x y,
           rest = x ++ y -> x <> [] -> forallb p x = true ->
           k (last_chr prev (w ++ x)) y = None.
Proof.
  induction s as [|c s IH]; intros lo prev k a H.
  - simpl in H. destruct lo; [|discriminate].
    exists [], []. repeat split; auto.
    intros x y Hs Hx. symmetry in Hs. apply app_eq_nil in Hs. tauto.
  - simpl in H. destruct (p c) eqn:Hc; simpl in H.
    + destruct (rep p (Nat.pred lo) None (Some c) s k) as [a'|] eqn:R.
      * injection H as <-. apply IH in R.
        destruct R as (w & rest & -> & Hp & Hlo & Hk & Hmax).
        exists (c :: w), rest. simpl. rewrite Hc, Hp.
        repeat split; auto; lia.
      * destruct lo; [|discriminate].
        exists [], (c :: s). repeat split; auto.
        intros x y Hs Hx Hpx. destruct x as [|c' x]; [congruence|].
        simpl in Hs. injection Hs as <- ->. simpl in Hpx.
        apply andb_true_iff in Hpx. destruct Hpx as [_ Hpx]. simpl.
        apply (rep_complete p (x ++ y) (Nat.pred 0) None (Some c) k R x y);
          auto; simpl; try lia. discriminate.
    + destruct lo; [|discriminate].
      exists [], (c :: s). repeat split; auto.
      intros x y Hs Hx Hpx. destruct x as [|c' x]; [congruence|].
      simpl in Hs. injection Hs as <- ->. simpl in Hpx. rewrite Hc in Hpx.
      discriminate.
Qed.

(** The search ends where the matcher succeeds. *)
Lemma search_from_here r (s : str) :
  forall pos prev m prev' rest,
    search_from r pos prev s = Some (m, prev', rest) ->
    exists pre,
      s = pre ++ m_text m ++ rest
      /\ match_here r (last_chr prev pre) (m_text m ++ rest)
         = Some (prev', rest, m_groups m).
Proof.
  induction s as [|c s IH]; intros pos prev m prev' rest H;
    rewrite search_from_eq in H;
    match type of H with
    | context [match_here r prev ?s0] =>
        destruct (match_here r prev s0) as [[[p' rest'] g]|] eqn:E
    end; try discriminate.
  - pose proof E as E'.
    apply match_here_span in E. destruct E as (w & Hs & Hn & Hf & M & ->).
    cbv zeta in H. rewrite Hf in H. injection H as <- <- <-.
    exists []. simpl. rewrite <- Hs. auto.
  - pose proof E as E'.
    apply match_here_span in E. destruct E as (w & Hs & Hn & Hf & M & ->).
    cbv zeta in H. rewrite Hf in H. injection H as <- <- <-.
    exists []. simpl. rewrite <- Hs. auto.
  - apply IH in H. destruct H as (pre & -> & H).
    exists (c :: pre). simpl. auto.
Qed.

Lemma window_re_matches token prev w rest g :
  matches (window_re token) prev w rest [] g <->
  exists tok junk body,
    w = tok ++ junk ++ body /\ g = [(2%nat, body); (1%nat, tok)]
    /\ lower tok = lower token
    /\ forallb (fun c => negb (is_alnum c)) junk = true
    /\ body <> []
    /\ forallb (fun c => negb (chr_eqb c "#")) body = true.
Proof.
  unfold window_re. split.
  - intros M.
    apply matches_seq_inv in M. destruct M as (tok & t1 & g1 & -> & Mt & M).
    apply matches_grp_inv in Mt. destruct Mt as (g0 & Mt & ->).
    apply matches_lit_i_inv in Mt. destruct Mt as [Ht ->].
    apply matches_seq_inv in M. destruct M as (junk & body & g2 & -> & Mj & Mb).
    apply matches_rep_inv in Mj. destruct Mj as (Hj & _ & _ & ->).
    apply matches_grp_inv in Mb. destruct Mb as (g3 & Mb & ->).
    apply matches_rep_inv in Mb. destruct Mb as (Hb & Hlen & _ & ->).
    exists tok, junk, body. repeat split; auto.
    intros ->. simpl in Hlen. lia.
  - intros (tok & junk & body & -> & -> & Ht & Hj & Hne & Hb).
    apply M_Seq with (g1 := [(1%nat, tok)]).
    + constructor. now apply matches_lit_i.
    + apply M_Seq with (g1 := [(1%nat, tok)]).
      * constructor; [exact Hj|lia|discriminate].
      * constructor. constructor; [exact Hb| |discriminate].
        destruct body; [congruence|simpl; lia].
Qed.

(** Where [window_re] matches, the match is the greedy one. *)
Lemma window_here token prev s prev' rest g :
  match_here (window_re token) prev s = Some (prev', rest, g) ->
  exists tok junk body,
    s = tok ++ junk ++ body ++ rest
    /\ lower tok = lower token
    /\ forallb (fun c => negb (is_alnum c)) junk = true
    /\ body <> []
    /\ forallb (fun c => negb (chr_eqb c "#")) body = true
    /\ at_hash_or_end rest
    /\ forall x y,
         body ++ rest = x ++ y -> x <> [] ->
         forallb (fun c => negb (is_alnum c)) x = true ->
         at_hash_or_end y.
Proof.
  unfold match_here, window_re. cbn [run]. intros H.
  apply run_sound in H. destruct H as (tok & s1 & g1 & -> & Mt & H).
  apply matches_lit_i_inv in Mt. destruct Mt as [Ht _].
  apply rep_first in H.
  destruct H as (junk & s2 & -> & Hj & _ & H & Hjunk).
  apply rep_first in H.
  destruct H as (body & s3 & -> & Hb & Hlen & H & Hbody).
  injection H as _ <- _.
  exists tok, junk, body. split; [reflexivity|].
  split; [exact Ht|]. split; [exact Hj|].
  split; [intros ->; simpl in Hlen; lia|]. split; [exact Hb|].
  assert (Hend : forall q (y : str) (gg : option ascii -> str -> groups),
             rep (fun c => negb (chr_eqb c "#")) 1 None q y
                 (fun p' s' => Some (p', s', gg p' s')) = None ->
             at_hash_or_end y).
  { intros q y gg R c y' ->. simpl in R.
    destruct (negb (chr_eqb c "#")) eqn:Hc.
    - simpl in R.
      destruct (rep _ 0 None (Some c) y' _) eqn:R'; [discriminate|].
      pose proof (rep_complete _ _ _ _ _ _ R' [] y' eq_refl eq_refl
                               (Nat.le_refl 0)) as C.
      simpl in C. discriminate C. discriminate.
    - apply negb_false_iff, chr_eqb_eq in Hc. exact Hc. }
  split.
  - intros c rest' ->.
    destruct (negb (chr_eqb c "#")) eqn:Hc.
    + specialize (Hbody [c] rest' eq_refl).
      simpl in Hbody. rewrite Hc in Hbody.
      discriminate Hbody; [discriminate|reflexivity].
    + apply negb_false_iff, chr_eqb_eq in Hc. exact Hc.
  - intros x y Hs Hx Hpx.
    specialize (Hjunk x y Hs Hx Hpx). cbv beta in Hjunk.
    eapply Hend. exact Hjunk.
Qed.

(** X2: the window of a token is the leftmost stretch of the text that begins
    with the token, in any casing, and has something other than "#" after
    the characters that follow it and are neither letters nor digits; it
    ends before the next "#" or at the end of the text.  A "#" right after
    the token does not end it.  Without such a stretch there is no
    window. *)
Theorem window_spec (token txt : str) :
  window_rule token txt (window token txt).
Proof.
  unfold window_rule, window, re_search.
  destruct (search_from (window_re token) 0 None txt) as [[[m q] rest]|] eqn:S;
    simpl.
  - left.
    pose proof (search_from_sound _ _ _ _ _ _ _ S)
      as (pre & w & Hs & _ & _ & Ht & _ & _ & Hfirst).
    apply search_from_here in S. destruct S as (pre0 & Hs0 & Hh).
    subst w.
    assert (pre0 = pre) by
      (apply (app_inv_tail (m_text m ++ rest)); now rewrite <- Hs0, <- Hs).
    subst pre0. apply window_here in Hh.
    destruct Hh as (tok & junk & body & Hw & Hl & Hj & Hne & Hb & Hend & Hgr).
    assert (Hm : m_text m = tok ++ junk ++ body) by
      (apply (app_inv_tail rest); now rewrite Hw, <- !app_assoc).
    rewrite Hm in *. exists pre, tok, junk, body, rest.
    split; [reflexivity|]. split; [repeat split; auto|].
    split; [|split; [exact Hend|exact Hgr]].
    intros pre' tok' junk' body' rest' (Hs' & Hl' & Hj' & Hne' & Hb').
    destruct (Nat.le_gt_cases (List.length pre) (List.length pre'))
      as [Hle|Hlt]; [exact Hle|].
    exfalso.
    apply (Hfirst pre' (tok' ++ junk' ++ body') rest'
                  [(2%nat, body'); (1%nat, tok')] Hs' Hlt).
    apply window_re_matches. exists tok', junk', body'. repeat split; auto.
  - right. split; [reflexivity|].
    intros pre tok junk body rest (Hs & Hl & Hj & Hne & Hb).
    apply (search_from_none _ _ _ _ S pre (tok ++ junk ++ body) rest
                            [(2%nat, body); (1%nat, tok)] Hs).
    apply window_re_matches. exists tok, junk, body. repeat split; auto.
Qed.

(** ** Converting a numeral *)

Lemma lstrip_id (s : str) :
  forallb (fun c => negb (is_space c)) s = true -> lstrip s = s.
Proof.
  destruct s as [|c s]; [reflexivity|]. simpl. intros H.
  apply andb_true_iff in H. destruct H as [Hc _].
  now destruct (is_space c).
Qed.

Lemma strip_id (s : str) :
  forallb (fun c => negb (is_space c)) s = true -> strip s = s.
Proof.
  intros H. unfold strip, rstrip. rewrite (lstrip_id s H).
  rewrite lstrip_id by now rewrite forallb_rev. apply rev_involutive.
Qed.

Lemma float_space_is_space (c : ascii) :
  is_float_space c = true -> is_space c = true.
Proof.
  unfold is_float_space, is_space, in_range.
  destruct (N.eqb (code c) 32) eqn:E.
  - apply N.eqb_eq in E. rewrite E. reflexivity.
  - rewrite orb_false_r. intros H. apply orb_true_iff in H.
    destruct H as [H|H]; [|now rewrite H, orb_true_r].
    apply orb_true_iff in H. destruct H as [H|H];
      [now rewrite H|now rewrite H, !orb_true_r].
Qed.

Lemma float_lstrip_id (s : str) :
  forallb (fun c => negb (is_space c)) s = true -> float_lstrip s = s.
Proof.
  destruct s as [|c s]; [reflexivity|]. simpl. intros H.
  apply andb_true_iff in H. destruct H as [Hc _].
  destruct (is_float_space c) eqn:E; [|reflexivity].
  apply float_space_is_space in E. now rewrite E in Hc.
Qed.

Lemma float_strip_id (s : str) :
  forallb (fun c => negb (is_space c)) s = true -> float_strip s = s.
Proof.
  intros H. unfold float_strip. rewrite (float_lstrip_id s H).
  rewrite float_lstrip_id by now rewrite forallb_rev. apply rev_involutive.
Qed.

Lemma strip_underscores_id (s : str) :
  forall prev,
    match prev with Some p => chr_eqb p "_" = false | None => True end ->
    forallb (fun c => negb (chr_eqb c "_")) s = true ->
    strip_underscores prev s = Some s.
Proof.
  induction s as [|c s IH]; intros prev Hp H; simpl.
  - destruct prev as [p|]; [now rewrite Hp|reflexivity].
  - simpl in H. apply andb_true_iff in H. destruct H as [Hc Hs].
    apply negb_true_iff in Hc. rewrite Hc.
    rewrite (IH (Some c) Hc Hs).
    destruct prev as [p|]; [now rewrite Hp|reflexivity].
Qed.

Lemma dec_chr_plain (c : ascii) :
  is_dec_chr c = true ->
  is_space c = false /\ chr_eqb c "_" = false /\ chr_eqb c "-" = false
  /\ chr_eqb c "+" = false /\ chr_eqb (lower_chr c) "i" = false
  /\ chr_eqb (lower_chr c) "n" = false /\ chr_eqb (lower_chr c) "e" = false
  /\ (is_digit c = false -> c = "."%char).
Proof.
  destruct c as [[] [] [] [] [] [] [] []]; vm_compute; intuition congruence.
Qed.

Lemma forallb_impl {X} (p q : X -> bool) (l : list X) :
  (forall x, p x = true -> q x = true) ->
  forallb p l = true -> forallb q l = true.
Proof.
  intros H. induction l as [|x l IH]; [reflexivity|]. simpl. intros Hl.
  apply andb_true_iff in Hl. destruct Hl as [Hx Hl].
  now rewrite (H x Hx), IH.
Qed.

(** A run of digits is read up to its end. *)
Lemma read_digits_split (s : str) :
  forall acc n,
    0 <= acc -> 0 <= n ->
    exists d s' acc',
      read_digits acc n s = (acc', n + Z.of_nat (List.length d), s')
      /\ s = d ++ s' /\ forallb is_digit d = true /\ 0 <= acc'
      /\ match s' with [] => True | c :: _ => is_digit c = false end.
Proof.
  induction s as [|c s IH]; intros acc n Ha Hn.
  - exists [], [], acc. simpl. rewrite Z.add_0_r. auto.
  - simpl. destruct (is_digit c) eqn:Hc.
    + assert (Hd : 0 <= digit_val c).
      { unfold digit_val. unfold is_digit, in_range in Hc.
        apply andb_true_iff in Hc. destruct Hc as [Hc _].
        apply N.leb_le in Hc. lia. }
      destruct (IH (acc * 10 + digit_val c) (n + 1)) as
          (d & s' & acc' & Hr & -> & Hf & Hacc & Hs'); try lia.
      exists (c :: d), s', acc'. simpl. rewrite Hc, Hf, Hr.
      repeat split; auto. f_equal. f_equal. lia.
    + exists [], (c :: s), acc. simpl. rewrite Z.add_0_r. auto.
Qed.

Lemma shr_fexp_nonneg (m e : Z) (l : location) :
  0 <= m -> 0 <= shr_m (fst (shr_fexp prec emax m e l)).
Proof.
  intros Hm. unfold shr_fexp, shr.
  assert (H0 : shr_m (shr_record_of_loc m l) = m) by now destruct l as [|[]].
  destruct (fexp prec emax (Zdigits2 m + e) - e) as [|n|n]; cbn [fst];
    try (rewrite H0; exact Hm).
  rewrite iter_pos_shr_m by (rewrite H0; exact Hm). rewrite H0.
  apply Z.div_pos; [exact Hm|]. apply Z.pow_pos_nonneg; lia.
Qed.

(** Rounding a mantissa that is not negative gives its sign and never
    NaN. *)
Lemma binary_round_aux_nonneg sx (m e : Z) (l : location) :
  0 <= m ->
  binary_round_aux prec emax sx m e l <> S754_nan
  /\ sign_bit (binary_round_aux prec emax sx m e l) = sx.
Proof.
  intros Hm. unfold binary_round_aux.
  pose proof (shr_fexp_nonneg m e l Hm) as H1.
  destruct (shr_fexp prec emax m e l) as [mrs' e']. cbn [fst] in H1.
  pose proof (round_nearest_even_ge (shr_m mrs') (loc_of_shr_record mrs')) as Hr.
  pose proof (shr_fexp_nonneg _ e' loc_Exact (Z.le_trans _ _ _ H1 Hr)) as H2.
  destruct (shr_fexp prec emax _ e' loc_Exact) as [mrs'' e'']. cbn [fst] in H2.
  destruct (shr_m mrs''); try lia.
  - split; [discriminate|reflexivity].
  - destruct (e'' <=? emax - prec); split; try discriminate; reflexivity.
Qed.

(** The float of a decimal without sign is never negative and never NaN. *)
Lemma float_of_decimal_nonneg (m e : Z) :
  0 <= m ->
  float_of_decimal false m e <> S754_nan
  /\ sign_bit (float_of_decimal false m e) = false.
Proof.
  intros Hm. unfold float_of_decimal.
  destruct m as [|p|p]; try lia; [split; [discriminate|reflexivity]|].
  destruct (0 <=? e) eqn:He.
  - apply Z.leb_le in He. cbn [cond_Zopp].
    assert (Hp : 0 < Zpos p * 10 ^ e)
      by (apply Z.mul_pos_pos; [lia|apply Z.pow_pos_nonneg; lia]).
    destruct (Zpos p * 10 ^ e) as [|q|q]; try lia.
    unfold binary_normalize, binary_round.
    destruct (shl_align q 0 (fexp prec emax (Zpos (digits2_pos q) + 0)))
      as [mz ez].
    apply binary_round_aux_nonneg. lia.
  - unfold SFdiv.
    destruct (SFdiv_core_binary prec emax (Zpos p) 0
                (Zpos (Z.to_pos (10 ^ (- e)))) 0) as [[mz ez] lz] eqn:E.
    apply binary_round_aux_nonneg.
    unfold SFdiv_core_binary in E.
    match type of E with
    | (let '(q, r) := Z.div_eucl ?a ?b in _) = _ =>
        assert (Ha : 0 <= a)
          by (match goal with
              | |- 0 <= match ?s with _ => _ end =>
                  destruct s; try lia; apply Z.shiftl_nonneg; lia
              end);
        pose proof (Z.div_pos a b Ha ltac:(lia)) as Hq;
        unfold Z.div in Hq; destruct (Z.div_eucl a b) as [q r]
    end.
    injection E as <- _ _. exact Hq.
Qed.

Lemma not_inf_nan (s : str) :
  forallb is_dec_chr s = true ->
  str_eqb (lower s) (lit "inf") = false
  /\ str_eqb (lower s) (lit "infinity") = false
  /\ str_eqb (lower s) (lit "nan") = false.
Proof.
  destruct s as [|c s]; [repeat split|]. simpl. intros H.
  apply andb_true_iff in H. destruct H as [Hc _].
  destruct (dec_chr_plain c Hc) as (_ & _ & _ & _ & Hi & Hn & _).
  unfold lit. simpl. rewrite Hi, Hn. repeat split.
Qed.

Lemma dots_of_digits (d : str) :
  forallb is_digit d = true -> filter (fun c => chr_eqb c ".") d = [].
Proof.
  induction d as [|c d IH]; [reflexivity|]. simpl. intros H.
  apply andb_true_iff in H. destruct H as [Hc Hd]. rewrite (IH Hd).
  destruct (chr_eqb c ".") eqn:E; [|reflexivity].
  apply chr_eqb_eq in E. subst. discriminate.
Qed.

Lemma digits_exist (d : str) :
  forallb is_digit d = true -> existsb is_digit d = negb (Nat.eqb (List.length d) 0).
Proof.
  destruct d as [|c d]; [reflexivity|]. simpl. intros H.
  apply andb_true_iff in H. destruct H as [-> _]. reflexivity.
Qed.

(** [float] on a string of digits and dots: a value when the string is
    well formed, [ValueError] otherwise. *)
Lemma py_float_decimal (s : str) :
  forallb is_dec_chr s = true ->
  if well_formed_decimal s
  then exists v, py_float s = Ok v /\ v <> S754_nan /\ sign_bit v = false
  else py_float s = Raise ValueError.
Proof.
  intros Hs. unfold py_float.
  rewrite float_strip_id
    by (eapply forallb_impl; [|exact Hs]; intros c Hc;
        now rewrite (proj1 (dec_chr_plain c Hc))).
  rewrite (strip_underscores_id s None I)
    by (eapply forallb_impl; [|exact Hs]; intros c Hc;
        now rewrite (proj1 (proj2 (dec_chr_plain c Hc)))).
  assert (Hsign : read_sign s = (false, s)).
  { destruct s as [|c s]; [reflexivity|]. simpl in *.
    apply andb_true_iff in Hs. destruct Hs as [Hc _].
    destruct (dec_chr_plain c Hc) as (_ & _ & Hm & Hp & _).
    now rewrite Hm, Hp. }
  rewrite Hsign. unfold read_unsigned.
  destruct (not_inf_nan s Hs) as (-> & -> & ->). simpl orb. cbv iota.
  destruct (read_digits_split s 0 0) as (d & s1 & ip & Hr & -> & Hd & Hip & H1);
    try lia.
  rewrite Hr. unfold well_formed_decimal.
  rewrite forallb_app in Hs. apply andb_true_iff in Hs. destruct Hs as [_ Hs1].
  rewrite existsb_app, filter_app, (dots_of_digits d Hd), (digits_exist d Hd).
  simpl app.
  destruct s1 as [|c s1].
  - (* digits only *)
    simpl. rewrite Z.add_0_r, orb_false_r.
    destruct d as [|x d]; [reflexivity|]. simpl List.length.
    replace (0 + Z.of_nat (S (List.length d)) =? 0) with false
      by (symmetry; apply Z.eqb_neq; lia).
    simpl. exists (float_of_decimal false ip (0 - 0)).
    split; [reflexivity|]. now apply float_of_decimal_nonneg.
  - (* a dot follows *)
    simpl in Hs1. apply andb_true_iff in Hs1. destruct Hs1 as [Hc Hs1].
    destruct (dec_chr_plain c Hc) as (_ & _ & _ & _ & _ & _ & _ & Hdot).
    rewrite (Hdot H1). change (chr_eqb "." ".") with true. cbv iota.
    destruct (read_digits_split s1 ip 0) as (d2 & s2 & m & Hr2 & -> & Hd2 & Hm & H2);
      try lia.
    rewrite Hr2.
    rewrite forallb_app in Hs1. apply andb_true_iff in Hs1.
    destruct Hs1 as [_ Hs2].
    simpl existsb. simpl filter. change (chr_eqb "." ".") with true. cbv iota.
    rewrite existsb_app, filter_app, (dots_of_digits d2 Hd2), (digits_exist d2 Hd2).
    simpl app. simpl List.length.
    destruct s2 as [|c2 s2].
    + (* one dot *)
      simpl. rewrite orb_false_r, andb_true_r.
      match goal with
      | |- context [?a =? 0] => destruct (a =? 0) eqn:E
      end.
      * apply Z.eqb_eq in E.
        destruct d; [|cbn [List.length] in E; lia].
        destruct d2; [|cbn [List.length] in E; lia].
        reflexivity.
      * apply Z.eqb_neq in E.
        replace (negb (Nat.eqb (List.length d) 0)
                 || negb (Nat.eqb (List.length d2) 0)) with true
          by (destruct d, d2; try reflexivity; cbn [List.length] in E; lia).
        eexists. split; [reflexivity|]. now apply float_of_decimal_nonneg.
    + (* a second dot *)
      simpl in Hs2. apply andb_true_iff in Hs2. destruct Hs2 as [Hc2 _].
      destruct (dec_chr_plain c2 Hc2) as (_ & _ & _ & _ & _ & _ & He & Hdot2).
      rewrite (Hdot2 H2) in *.
      simpl filter. change (chr_eqb "." ".") with true. cbv iota.
      simpl List.length. rewrite andb_false_r.
      match goal with
      | |- context [?a =? 0] => destruct (a =? 0)
      end; [reflexivity|].
      unfold read_exponent. rewrite He. reflexivity.
Qed.

Lemma numeral_dec_chr (n : str) :
  forallb is_num_chr n = true ->
  forallb is_dec_chr (remove_chr "," n) = true.
Proof.
  induction n as [|c n IH]; [reflexivity|]. simpl. intros H.
  apply andb_true_iff in H. destruct H as [Hc Hn].
  destruct (chr_eqb c ",") eqn:E; simpl; [now apply IH|].
  rewrite (IH Hn), andb_true_r. unfold is_num_chr in Hc. unfold is_dec_chr.
  now rewrite E, orb_false_r in Hc.
Qed.

Lemma parse_number_numeral (n : str) :
  forallb is_num_chr n = true ->
  if well_formed_decimal (remove_chr "," n)
  then exists v, parse_number n = Ok v /\ price_like v
  else parse_number n = Raise ValueError.
Proof.
  intros H. apply numeral_dec_chr in H. unfold parse_number.
  rewrite strip_id
    by (eapply forallb_impl; [|exact H]; intros c Hc;
        now rewrite (proj1 (dec_chr_plain c Hc))).
  exact (py_float_decimal _ H).
Qed.

Lemma parse_number_price (n : str) (v : float) :
  numeral n -> parse_number n = Ok v -> price_like v.
Proof.
  intros [_ Hn] Hv. pose proof (parse_number_numeral n Hn) as H.
  destruct (well_formed_decimal (remove_chr "," n)).
  - destruct H as (v' & Hv' & Hp). congruence.
  - congruence.
Qed.

(** X5: a numeral, as the patterns read one, converts exactly when, its
    commas taken out, it has a digit and at most one dot; the value is
    then neither negative nor NaN.  Otherwise the conversion raises
    [ValueError], and nothing else. *)
Theorem numeral_conversion (n : str) :
  forallb is_num_chr n = true ->
  (well_formed_decimal (remove_chr "," n) = true ->
   exists v, parse_number n = Ok v /\ price_like v)
  /\ (well_formed_decimal (remove_chr "," n) = false ->
      parse_number n = Raise ValueError).
Proof.
  intros H. pose proof (parse_number_numeral n H) as P.
  destruct (well_formed_decimal (remove_chr "," n)); split; intros E;
    try discriminate; exact P.
Qed.

Lemma numeral_conversion_witness :
  (exists v, parse_number (lit "1,950.5") = Ok v /\ price_like v)
  /\ parse_number (lit "1.2.3") = Raise ValueError.
Proof.
  split.
  - apply (proj1 (numeral_conversion (lit "1,950.5") eq_refl)). reflexivity.
  - apply (proj2 (numeral_conversion (lit "1.2.3") eq_refl)). reflexivity.
Defined.

(** ** What the matcher prefers *)

Lemma matches_sep prev w rest g g' :
  matches SEP prev w rest g g' <->
  forallb (fun c => chr_eqb c ":" || chr_eqb c "=" || is_space c) w = true
  /\ g' = g.
Proof.
  unfold SEP. split.
  - intros M. apply matches_rep_inv in M. tauto.
  - intros [H ->]. constructor; [exact H|lia|discriminate].
Qed.

Lemma matches_num_iff prev w rest g g' :
  matches NUM prev w rest g g' <-> numeral w /\ g' = g.
Proof.
  split; [apply matches_num|]. intros [[Hne H] ->]. unfold NUM.
  constructor; [exact H| |discriminate].
  destruct w; [congruence|simpl; lia].
Qed.

Lemma run_seq_sound {A : Type} r1 r2 prev s g (k : @cont A) a :
  run (Seq r1 r2) prev s g k = Some a ->
  exists w1 rest1 g1,
    s = w1 ++ rest1 /\ matches r1 prev w1 rest1 g g1
    /\ run r2 (last_chr prev w1) rest1 g1 k = Some a.
Proof. intros H. cbn [run] in H. apply run_sound in H. exact H. Qed.

(** A pattern that ends in a group of one greedy class reads that class
    as far as it runs. *)
Lemma run_last_rep n p lo prev (s : str) g prev' rest g' :
  run (Grp n (Rep p lo None)) prev s g (fun q s' h => Some (q, s', h))
  = Some (prev', rest, g') ->
  exists w,
    s = w ++ rest /\ forallb p w = true /\ (lo <= List.length w)%nat
    /\ g' = (n, w) :: g
    /\ forall c rest', rest = c :: rest' -> p c = false.
Proof.
  cbn [run]. intros H. apply rep_first in H.
  destruct H as (w & rest0 & -> & Hp & Hlo & Hk & Hmax).
  injection Hk as _ <- <-. exists w. rewrite firstn_length_app.
  repeat split; auto.
  intros c rest' ->. destruct (p c) eqn:Hc; [|reflexivity].
  specialize (Hmax [c] rest' eq_refl). simpl in Hmax. rewrite Hc in Hmax.
  discriminate Hmax; [discriminate|reflexivity].
Qed.

(** The search ends at the leftmost occurrence, with the match the
    matcher prefers there. *)
Lemma re_search_here r s m :
  re_search r s = Some m ->
  exists pre rest,
    first_occurrence r s pre (m_text m) rest (m_groups m)
    /\ match_here r (last_chr None pre) (m_text m ++ rest)
       = Some (last_chr None (pre ++ m_text m), rest, m_groups m).
Proof.
  unfold re_search. intros H.
  destruct (search_from r 0 None s) as [[[m' q] rest]|] eqn:S; [|discriminate].
  injection H as ->.
  pose proof (search_from_sound _ _ _ _ _ _ _ S)
    as (pre & w & Hs & _ & _ & Ht & M & Hq & Hfirst).
  apply search_from_here in S. destruct S as (pre0 & Hs0 & Hh).
  subst w.
  assert (pre0 = pre) by
    (apply (app_inv_tail (m_text m ++ rest)); now rewrite <- Hs0, <- Hs).
  subst pre0 q. exists pre, rest. split; [|exact Hh].
  split; [split; [exact Hs|exact M]|].
  intros pre' w' rest' g' [Hs' M'].
  destruct (Nat.le_gt_cases (List.length pre) (List.length pre'))
    as [Hle|Hlt]; [exact Hle|].
  exfalso. exact (Hfirst pre' w' rest' g' Hs' Hlt M').
Qed.

Lemma sl_here prev s prev' rest g :
  match_here SL_RE prev s = Some (prev', rest, g) -> numeral_ends rest.
Proof.
  unfold match_here, SL_RE. intros H.
  apply run_seq_sound in H. destruct H as (w1 & s1 & g1 & _ & _ & H).
  apply run_seq_sound in H. destruct H as (w2 & s2 & g2 & _ & _ & H).
  unfold NUM in H. apply run_last_rep in H.
  destruct H as (w & _ & _ & _ & _ & H). exact H.
Qed.

Lemma single_here prev s prev' rest g :
  match_here SINGLE_RE prev s = Some (prev', rest, g) -> numeral_ends rest.
Proof.
  unfold match_here, SINGLE_RE. intros H.
  apply run_seq_sound in H. destruct H as (w1 & s1 & g1 & _ & _ & H).
  apply run_seq_sound in H. destruct H as (w2 & s2 & g2 & _ & _ & H).
  unfold NUM in H. apply run_last_rep in H.
  destruct H as (w & _ & _ & _ & _ & H). exact H.
Qed.

Lemma range_here prev s prev' rest g :
  match_here PRICE_RANGE_RE prev s = Some (prev', rest, g) ->
  numeral_ends rest.
Proof.
  unfold match_here, PRICE_RANGE_RE. intros H.
  do 6 (apply run_seq_sound in H;
        destruct H as (?w & ?s & ?g & _ & _ & H)).
  unfold NUM in H. apply run_last_rep in H.
  destruct H as (n0 & _ & _ & _ & _ & H). exact H.
Qed.

Lemma app_same_length {X} (a b x y : list X) :
  a ++ x = b ++ y -> List.length a = List.length b -> a = b /\ x = y.
Proof.
  revert b. induction a as [|c a IH]; intros [|c' b] E L; try discriminate.
  - auto.
  - simpl in *. injection E as <- E. injection L as L.
    destruct (IH _ E L) as [-> ->]. auto.
Qed.

Lemma app_longer {X} (a b x y : list X) :
  a ++ x = b ++ y -> (List.length a < List.length b)%nat ->
  exists z, z <> [] /\ b = a ++ z /\ x = z ++ y.
Proof.
  revert b. induction a as [|c a IH]; intros b E L.
  - simpl in *. subst x. exists b. repeat split; auto.
    intros ->. simpl in L. lia.
  - destruct b as [|c' b]; [simpl in L; lia|].
    simpl in *. injection E as <- E.
    destruct (IH b E) as (z & Hz & -> & ->); [lia|].
    exists z. auto.
Qed.

Lemma lower_length (s : str) : List.length (lower s) = List.length s.
Proof. apply length_map. Qed.

Lemma tp_target_clash (t l x y : str) :
  lower t = lit "tp" -> lower l = lit "target" -> t ++ x = l ++ y -> False.
Proof.
  intros Ht Hl E.
  destruct t as [|a [|b [|c t]]]; try discriminate.
  destruct l as [|a' [|b' l]]; try discriminate.
  simpl in E. injection E as <- <- _.
  injection Ht as _ Hb. injection Hl as _ Hb' _. rewrite Hb in Hb'.
  discriminate.
Qed.

(** Where the take-profit pattern matches, the label is as long as a
    labelled number allows and the numeral runs as far as it can. *)
Lemma tp_here prev s prev' rest g :
  match_here TP_RE prev s = Some (prev', rest, g) ->
  exists label sep n,
    s = label ++ sep ++ n ++ rest
    /\ g = [(2%nat, n); (1%nat, label)]
    /\ tp_label label /\ seps sep /\ numeral n /\ numeral_ends rest
    /\ forall label' sep' n' rest',
         s = label' ++ sep' ++ n' ++ rest' ->
         tp_label label' -> seps sep' -> numeral n' ->
         (List.length label' <= List.length label)%nat.
Proof.
  unfold match_here, TP_RE. intros H.
  remember (Seq SEP (Grp 2 NUM)) as R2 eqn:ER2.
  (* the rest of a labelled number, after the label *)
  assert (Htail : forall q (y : str) h res,
             run R2 q y h (fun q' s' h' => Some (q', s', h')) = Some res ->
             exists sep n rest0,
               y = sep ++ n ++ rest0 /\ seps sep /\ numeral n
               /\ numeral_ends rest0
               /\ exists q', res = (q', rest0, (2%nat, n) :: h)).
  { intros q y h res R. subst R2.
    apply run_seq_sound in R. destruct R as (sep & s3 & g3 & -> & Ms & R).
    apply matches_sep in Ms. destruct Ms as [Hsep ->].
    destruct res as [[q' rest0] h'].
    unfold NUM in R. apply run_last_rep in R.
    destruct R as (n & -> & Hn & Hlen & -> & Hend).
    exists sep, n, rest0. repeat split; auto.
    - intros ->. simpl in Hlen. lia.
    - now exists q'. }
  assert (Hnone : forall q (y : str) h sep' n' rest',
             run R2 q y h (fun q' s' h' => Some (q', s', h')) = None ->
             y = sep' ++ n' ++ rest' -> seps sep' -> numeral n' -> False).
  { intros q y h sep' n' rest' R -> Hsep' Hn'. subst R2.
    assert (M : matches (Seq SEP (Grp 2 NUM)) q (sep' ++ n') rest' h
                        ((2%nat, n') :: h)).
    { apply M_Seq with (g1 := h).
      - now apply matches_sep.
      - constructor. now apply matches_num_iff. }
    pose proof (run_complete _ _ _ _ _ R (sep' ++ n') rest' _
                             (app_assoc _ _ _) M) as C.
    discriminate C. }
  cbn [run] in H.
  match type of H with
  | match ?x with _ => _ end = _ => destruct x as [a|] eqn:EA
  end.
  - injection H as ->.
    apply run_sound in EA. destruct EA as (t & s1 & g1 & -> & Mt & Hrep).
    apply matches_lit_i_inv in Mt. destruct Mt as [Ht ->].
    apply rep_first in Hrep.
    destruct Hrep as (d & s2 & -> & Hd & _ & HK & Hmax).
    apply Htail in HK.
    destruct HK as (sep & n & rest0 & -> & Hsep & Hn & Hend & q' & Hres).
    rewrite (app_assoc t d), firstn_length_app in Hres.
    injection Hres as _ <- ->.
    exists (t ++ d), sep, n.
    rewrite <- app_assoc.
    split; [reflexivity|]. split; [reflexivity|].
    split; [left; exists t, d; auto|].
    split; [exact Hsep|]. split; [exact Hn|]. split; [exact Hend|].
    { intros label' sep' n' rest' E Hl' Hsep' Hn'.
      destruct Hl' as [(t' & d' & -> & Ht' & Hd')|Hl'].
      * rewrite <- ?app_assoc in E.
        destruct (app_same_length _ _ _ _ E) as [<- E'].
        { rewrite <- (lower_length t), <- (lower_length t'), Ht, Ht'.
          reflexivity. }
        rewrite !length_app.
        destruct (Nat.le_gt_cases (List.length d') (List.length d))
          as [Hle|Hlt]; [lia|].
        exfalso.
        destruct (app_longer _ _ _ _ E' Hlt) as (x & Hx & -> & Ex).
        rewrite forallb_app in Hd'. apply andb_true_iff in Hd'.
        specialize (Hmax x (sep' ++ n' ++ rest') Ex Hx (proj2 Hd')).
        eapply Hnone; eauto.
      * exfalso. rewrite <- ?app_assoc in E.
        eapply tp_target_clash; [exact Ht|exact Hl'|exact E]. }
  - apply run_sound in H. destruct H as (t & s1 & g1 & -> & Mt & HK).
    apply matches_lit_i_inv in Mt. destruct Mt as [Ht ->].
    apply Htail in HK.
    destruct HK as (sep & n & rest0 & -> & Hsep & Hn & Hend & q' & Hres).
    rewrite firstn_length_app in Hres.
    injection Hres as _ <- ->.
    exists t, sep, n.
    split; [reflexivity|]. split; [reflexivity|].
    split; [now right|].
    split; [exact Hsep|]. split; [exact Hn|]. split; [exact Hend|].
    { intros label' sep' n' rest' E Hl' Hsep' Hn'.
      destruct Hl' as [(t' & d' & -> & Ht' & Hd')|Hl'].
      * exfalso. rewrite <- ?app_assoc in E. symmetry in E.
        eapply tp_target_clash; [exact Ht'|exact Ht|exact E].
      * rewrite <- (lower_length t), <- (lower_length label'), Ht, Hl'.
        reflexivity. }
Qed.
(** ** The stop-loss of a window *)

(** [SL_RE] matches exactly a label, separators and a numeral. *)
Lemma sl_re_matches prev w rest g :
  matches SL_RE prev w rest [] g <->
  exists label sep n,
    w = label ++ sep ++ n /\ g = [(1%nat, n)] /\ sl_label label
    /\ forallb (fun c => chr_eqb c ":" || chr_eqb c "=" || is_space c) sep = true
    /\ numeral n.
Proof.
  unfold SL_RE. split.
  - intros M.
    apply matches_seq_inv in M. destruct M as (label & t1 & g1 & -> & Ml & M).
    apply matches_seq_inv in M. destruct M as (sep & n & g2 & -> & Ms & Mn).
    apply matches_sep in Ms. destruct Ms as [Hsep ->].
    apply matches_grp_inv in Mn. destruct Mn as (g3 & Mn & ->).
    apply matches_num in Mn. destruct Mn as [Hn ->].
    assert (Hl : sl_label label /\ g1 = []).
    { unfold sl_label.
      repeat (apply matches_alt_inv in Ml; destruct Ml as [Ml|Ml]);
        apply matches_lit_i_inv in Ml; destruct Ml as [Ml ->];
        (split; [|reflexivity]); rewrite Ml; simpl; auto. }
    destruct Hl as [Hl ->]. exists label, sep, n. auto.
  - intros (label & sep & n & -> & -> & Hl & Hsep & Hn).
    apply M_Seq with (g1 := []).
    + unfold sl_label in Hl. simpl in Hl.
      destruct Hl as [H|[H|[H|[]]]]; symmetry in H.
      * apply M_AltL. now apply matches_lit_i.
      * apply M_AltR, M_AltL. now apply matches_lit_i.
      * apply M_AltR, M_AltR. now apply matches_lit_i.
    + apply M_Seq with (g1 := []).
      * now apply matches_sep.
      * constructor. now apply matches_num_iff.
Qed.

Lemma sl_occurs_iff chunk pre w post g :
  occurs_at SL_RE chunk pre w post g <->
  exists label sep n,
    w = label ++ sep ++ n /\ g = [(1%nat, n)]
    /\ sl_at chunk pre label sep n post.
Proof.
  unfold occurs_at, sl_at. rewrite sl_re_matches. split.
  - intros (-> & label & sep & n & -> & -> & H). exists label, sep, n. auto.
  - intros (label & sep & n & -> & -> & -> & H). split; [reflexivity|].
    exists label, sep, n. auto.
Qed.

(** What the search for a stop-loss finds: the leftmost labelled
    number, its numeral taken as far as it runs. *)
Lemma sl_search chunk m :
  re_search SL_RE chunk = Some m ->
  exists pre label sep n post,
    m_groups m = [(1%nat, n)]
    /\ sl_read chunk pre label sep n post
    /\ forall pre' label' sep' n' post',
         sl_at chunk pre' label' sep' n' post' ->
         (List.length pre <= List.length pre')%nat.
Proof.
  intros R. apply re_search_here in R.
  destruct R as (pre & post & [Ho Hfirst] & Hh).
  apply sl_occurs_iff in Ho. destruct Ho as (label & sep & n & Ht & Hg & Hat).
  apply sl_here in Hh.
  exists pre, label, sep, n, post. split; [exact Hg|].
  split; [split; [exact Hat|exact Hh]|].
  intros pre' label' sep' n' post' Hat'.
  apply (Hfirst pre' (label' ++ sep' ++ n') post' [(1%nat, n')]).
  apply sl_occurs_iff. exists label', sep', n'. auto.
Qed.

Lemma sl_search_none chunk :
  re_search SL_RE chunk = None ->
  forall pre label sep n post, ~ sl_at chunk pre label sep n post.
Proof.
  intros R pre label sep n post Hat. apply re_search_nowhere in R.
  apply (R pre (label ++ sep ++ n) post [(1%nat, n)]).
  apply sl_occurs_iff. exists label, sep, n. auto.
Qed.

Lemma extract_sl_rule chunk stop :
  extract_sl chunk = Ok stop -> sl_rule chunk stop.
Proof.
  unfold extract_sl, sl_rule, group_number, group_or_empty, m_group.
  destruct (re_search SL_RE chunk) as [m|] eqn:R.
  - apply sl_search in R.
    destruct R as (pre & label & sep & n & post & Hg & Hr & Hfirst).
    rewrite Hg. simpl.
    destruct (parse_number n) as [v|] eqn:P; [|discriminate].
    simpl. intros [= <-]. left. exists pre, label, sep, n, post, v. auto.
  - intros [= <-]. right. split; [|reflexivity]. now apply sl_search_none.
Qed.

Lemma extract_fields_sl txt inst chunk sig :
  extract_fields txt inst chunk = Ok (Some sig) ->
  extract_sl chunk = Ok (sl sig).
Proof.
  unfold extract_fields.
  destruct (extract_side chunk) as [sd|]; [|discriminate].
  destruct (extract_entry chunk) as [e|]; [|discriminate].
  destruct (extract_sl chunk) as [stop|]; [|discriminate].
  simpl. now intros [= <-].
Qed.

(** ** The numbers of a signal *)

Lemma entry_rule_price chunk lo hi :
  entry_rule chunk lo hi -> price_like_opt lo /\ price_like_opt hi.
Proof.
  intros [(pre & a & n1 & b & n2 & post & x & y & _ & Hn1 & Hn2 & P1 & P2 & -> & ->)
         |[(_ & pre & a & n & post & v & _ & Hn & P & -> & ->)
          |(_ & _ & -> & ->)]]; simpl.
  - split; [exact (parse_number_price _ _ Hn1 P1)
           |exact (parse_number_price _ _ Hn2 P2)].
  - split; exact (parse_number_price _ _ Hn P).
  - auto.
Qed.

Lemma sl_rule_price chunk stop : sl_rule chunk stop -> price_like_opt stop.
Proof.
  intros [(pre & label & sep & n & post & v & Hat & _ & P & ->)|[_ ->]]; simpl.
  - destruct Hat as [(_ & _ & _ & Hn) _]. exact (parse_number_price _ _ Hn P).
  - exact I.
Qed.

Lemma converted_In (ns : list str) (v : float) :
  In v (converted ns) -> exists n, In n ns /\ parse_number n = Ok v.
Proof.
  unfold converted. intros H. apply in_flat_map in H.
  destruct H as (n & Hn & Hv). exists n. split; [exact Hn|].
  destruct (parse_number n); [|contradiction].
  destruct Hv as [->|[]]. reflexivity.
Qed.

Lemma Forall2_In_r {X Y} (P : X -> Y -> Prop) (l1 : list X) (l2 : list Y) y :
  Forall2 P l1 l2 -> In y l2 -> exists x, P x y.
Proof.
  induction 1 as [|x0 y0 l1 l2 H0 _ IH]; intros Hin; [contradiction|].
  destruct Hin as [<-|Hin]; eauto.
Qed.

Lemma scan_tps_price (s : str) (v : float) :
  In v (scan_tps s) -> price_like v.
Proof.
  destruct (scan_tps_spec s) as (ms & ns & _ & Hf & ->). intros Hv.
  apply converted_In in Hv. destruct Hv as (n & Hn & P).
  destruct (Forall2_In_r _ _ _ _ Hf Hn) as (m & Hm).
  destruct Hm as (pre & label & sep & post & _ & _ & _ & _ & _ & Hnum).
  exact (parse_number_price _ _ Hnum P).
Qed.

(** X7: no number of a signal is negative or NaN: the patterns read no sign
    and no letter into a numeral. *)
Theorem signal_numbers_price_like (text : str) (sigs : list TradeSignal)
        (sig : TradeSignal) :
  parse_signals text = Ok sigs -> In sig sigs ->
  price_like_opt (entry_min sig) /\ price_like_opt (entry_max sig)
  /\ price_like_opt (sl sig) /\ Forall price_like (tps sig).
Proof.
  intros H Hin.
  destruct (parse_signals_In _ _ _ H Hin) as (cand & chunk & W & E).
  pose proof (entry_rule_price _ _ _
                (extract_entry_rule _ _ _ (extract_fields_entry _ _ _ _ E)))
    as [Hlo Hhi].
  pose proof (sl_rule_price _ _
                (extract_sl_rule _ _ (extract_fields_sl _ _ _ _ E))) as Hsl.
  repeat split; auto.
  apply Forall_forall. intros v Hv.
  rewrite (extract_fields_tps _ _ _ _ E) in Hv.
  destruct (scan_tps chunk) eqn:S.
  - exact (scan_tps_price _ _ Hv).
  - rewrite <- S in Hv. exact (scan_tps_price _ _ Hv).
Qed.

Lemma signal_numbers_price_like_witness :
  price_like_opt (entry_min gold_signal) /\ price_like_opt (entry_max gold_signal)
  /\ price_like_opt (sl gold_signal) /\ Forall price_like (tps gold_signal).
Proof.
  apply (signal_numbers_price_like
           (lit "GOLD buy @1950 sl 1940 tp1 1960 tp2 1970") [gold_signal]).
  - vm_compute. reflexivity.
  - now left.
Defined.

(** ** The signals of a message, candidate by candidate *)

Lemma extract_side_none_inv chunk :
  extract_side chunk = None ->
  forall pre w post, ~ keyword_at chunk pre w post.
Proof.
  unfold extract_side.
  destruct (re_search SIDE_RE chunk) as [m|] eqn:E; [discriminate|].
  intros _ pre w post Hk.
  apply (re_search_none _ _ E pre w post [(1%nat, w)]).
  now apply side_occurs_iff.
Qed.

(** The first keyword of a window is one word. *)
Lemma first_keyword_unique chunk w w' :
  first_keyword chunk w -> first_keyword chunk w' -> w = w'.
Proof.
  intros (pre & post & K & F) (pre' & post' & K' & F').
  pose proof (F _ _ _ K') as L. pose proof (F' _ _ _ K) as L'.
  destruct K as (Hs & Hk & _ & He). destruct K' as (Hs' & Hk' & _ & He').
  rewrite Hs in Hs'.
  destruct (app_same_length _ _ _ _ Hs') as [_ E]; [lia|].
  destruct (keyword_word _ Hk) as [Hne Hw].
  destruct (keyword_word _ Hk') as [Hne' Hw'].
  destruct (Nat.lt_trichotomy (List.length w) (List.length w'))
    as [Hlt|[Heq|Hgt]].
  - exfalso. destruct (app_longer _ _ _ _ E Hlt) as (z & Hz & -> & ->).
    rewrite forallb_app in Hw'. apply andb_true_iff in Hw'.
    destruct Hw' as [_ Hzw]. destruct z as [|c z]; [congruence|].
    simpl in He, Hzw. apply andb_true_iff in Hzw. destruct Hzw as [Hc _].
    congruence.
  - now destruct (app_same_length _ _ _ _ E Heq).
  - exfalso. symmetry in E.
    destruct (app_longer _ _ _ _ E Hgt) as (z & Hz & -> & ->).
    rewrite forallb_app in Hw. apply andb_true_iff in Hw.
    destruct Hw as [_ Hzw]. destruct z as [|c z]; [congruence|].
    simpl in He', Hzw. apply andb_true_iff in Hzw. destruct Hzw as [Hc _].
    congruence.
Qed.

Lemma side_of_keyword_unique w sd sd' :
  side_of_keyword w sd -> side_of_keyword w sd' -> sd = sd'.
Proof.
  unfold side_of_keyword.
  intros [[[H|H] ->]|[[H|H] ->]] [[[H'|H'] ->]|[[H'|H'] ->]];
    try reflexivity; rewrite H in H'; discriminate.
Qed.

Lemma reads_impl (P Q : str -> TradeSignal -> Prop) txt cands sigs :
  (forall chunk sig, P chunk sig -> Q chunk sig) ->
  reads P txt cands sigs -> reads Q txt cands sigs.
Proof.
  intros PQ. induction 1.
  - constructor.
  - now apply reads_no_window.
  - now apply reads_no_side with chunk.
  - apply reads_signal with chunk w; auto.
Qed.

(** The loop over the candidates, turn by turn. *)
Lemma extract_all_reads txt (cands : list (str * str)) :
  forall acc sigs,
    extract_all txt cands acc = Ok sigs ->
    exists new,
      sigs = acc ++ new
      /\ reads (fun chunk sig =>
                  extract_fields txt (instrument sig) chunk = Ok (Some sig))
               txt cands new.
Proof.
  induction cands as [|cand cands IH]; intros acc sigs H; simpl in H.
  - injection H as <-. exists []. rewrite app_nil_r. split; [reflexivity|].
    constructor.
  - destruct (extract_candidate txt cand) as [r|e] eqn:E; [|discriminate].
    simpl in H. apply IH in H. destruct H as (new & -> & Hr).
    unfold extract_candidate in E.
    destruct (window (fst cand) txt) as [chunk|] eqn:W.
    + destruct r as [sig|].
      * exists (sig :: new). rewrite <- app_assoc. split; [reflexivity|].
        pose proof (extract_fields_instrument _ _ _ _ E) as Hi.
        pose proof (extract_fields_side _ _ _ _ E) as Hs.
        apply extract_side_some in Hs. destruct Hs as (w & Hw & Hsd).
        apply reads_signal with chunk w; auto. now rewrite Hi.
      * exists new. split; [reflexivity|].
        apply reads_no_side with chunk; auto.
        apply extract_side_none_inv.
        unfold extract_fields in E.
        destruct (extract_side chunk) as [sd|]; [|reflexivity].
        destruct (extract_entry chunk) as [en|]; [|discriminate].
        destruct (extract_sl chunk) as [stop|]; discriminate.
    + injection E as <-. exists new. split; [reflexivity|].
      now apply reads_no_window.
Qed.

Lemma parse_signals_reads text sigs :
  parse_signals text = Ok sigs ->
  reads (fun chunk sig =>
           extract_fields (flatten text) (instrument sig) chunk
           = Ok (Some sig))
        (flatten text) (candidates text) sigs.
Proof.
  unfold parse_signals, candidates. fold (flatten text).
  rewrite instrument_candidates_keys. intros H.
  apply extract_all_reads in H. now destruct H as (new & -> & H).
Qed.

(** A window with a keyword whose prices convert gives its signal. *)
Lemma extract_candidate_side txt cand chunk w e stop :
  window (fst cand) txt = Some chunk ->
  first_keyword chunk w ->
  extract_entry chunk = Ok e -> extract_sl chunk = Ok stop ->
  exists sig,
    extract_candidate txt cand = Ok (Some sig)
    /\ side_of_keyword w (side sig) /\ instrument sig = snd cand.
Proof.
  intros W Hw He Hs. unfold extract_candidate. rewrite W.
  destruct (extract_side chunk) as [sd|] eqn:S.
  - destruct (extract_fields_total txt (snd cand) chunk sd e stop S He Hs)
      as (sig & E).
    exists sig. split; [exact E|].
    split; [|exact (extract_fields_instrument _ _ _ _ E)].
    apply extract_fields_side in E. rewrite S in E. injection E as <-.
    apply extract_side_some in S. destruct S as (w' & Hw' & Hsd).
    now rewrite (first_keyword_unique _ _ _ Hw Hw').
  - exfalso. destruct Hw as (pre & post & K & _).
    exact (extract_side_none_inv _ S _ _ _ K).
Qed.

(** ** The take-profits of a text, one after the other *)

Lemma tp_at_matches prev label sep n rest :
  tp_label label -> seps sep -> numeral n ->
  matches TP_RE prev (label ++ sep ++ n) rest []
          [(2%nat, n); (1%nat, label)].
Proof.
  intros Hl Hsep Hn. unfold TP_RE.
  apply M_Seq with (g1 := [(1%nat, label)]).
  - constructor. destruct Hl as [(t & d & -> & Ht & Hd)|Hl].
    + apply M_AltL. apply M_Seq with (g1 := []).
      * apply matches_lit_i. now rewrite Ht.
      * constructor; [exact Hd|lia|discriminate].
    + apply M_AltR. apply matches_lit_i. now rewrite Hl.
  - apply M_Seq with (g1 := [(1%nat, label)]).
    + now apply matches_sep.
    + constructor. now apply matches_num_iff.
Qed.

Lemma tp_label_nonempty label : tp_label label -> label <> [].
Proof.
  intros [(t & d & -> & Ht & _)|Hl] E.
  - destruct t; [discriminate|discriminate].
  - subst. discriminate.
Qed.

(** The scan of [re.finditer] over the take-profit pattern. *)
Lemma finditer_tp_scan (fuel : nat) :
  forall done s,
    (List.length s < fuel)%nat ->
    tp_scan (done ++ s) (List.length done)
            (map (group_or_empty 2)
                 (finditer_from fuel TP_RE (List.length done)
                                (last_chr None done) s)).
Proof.
  induction fuel as [|fuel IH]; intros done s Hf; [lia|]. simpl.
  destruct (search_from TP_RE (List.length done) (last_chr None done) s)
    as [[[m q] rest]|] eqn:S.
  - pose proof (search_from_sound _ _ _ _ _ _ _ S)
      as (pre & w & Hs & Hst & Hen & Ht & M & Hq & Hfirst).
    apply search_from_here in S. destruct S as (pre0 & Hs0 & Hh).
    subst w.
    assert (pre0 = pre) by
      (apply (app_inv_tail (m_text m ++ rest)); now rewrite <- Hs0, <- Hs).
    subst pre0. clear Hs0.
    apply tp_here in Hh.
    destruct Hh as (label & sep & n & Hw & Hg & Hl & Hsep & Hn & Hend & Hgr).
    assert (Hm : m_text m = label ++ sep ++ n) by
      (apply (app_inv_tail rest); now rewrite Hw, <- !app_assoc).
    assert (Hne : m_text m <> []).
    { rewrite Hm. intros E. apply app_eq_nil in E.
      now apply (tp_label_nonempty label). }
    assert (Heq : Nat.eqb (m_end m) (m_start m) = false).
    { apply Nat.eqb_neq. rewrite Hen, Hst.
      destruct (m_text m); [congruence|simpl; lia]. }
    rewrite Heq. simpl map.
    unfold group_or_empty at 1, m_group. rewrite Hg. simpl group.
    rewrite Hm in Hs, Hen. clear Hw Hne M. subst s.
    apply tp_scan_next with (pre := done ++ pre) (label := label) (sep := sep)
                            (post := rest).
    + split; [|split].
      * split; [now rewrite <- !app_assoc|auto].
      * exact Hend.
      * intros label' sep' n' post' (Hs' & Hl' & Hsep' & Hn').
        apply (Hgr label' sep' n' post'); auto.
        rewrite <- !app_assoc in Hs'. apply app_inv_head in Hs'.
        apply app_inv_head in Hs'. rewrite Hm, <- Hs'.
        now rewrite <- !app_assoc.
    + rewrite length_app. lia.
    + intros pre' label' sep' n' post' (Hs' & Hl' & Hsep' & Hn') Hpos.
      destruct (Nat.le_gt_cases (List.length (done ++ pre)) (List.length pre'))
        as [Hle|Hlt]; [exact Hle|].
      exfalso. rewrite length_app in Hlt.
      (* the occurrence begins in [pre], after [done] *)
      assert (Hd : exists z, pre' = done ++ z).
      { rewrite <- !app_assoc in Hs'. symmetry in Hs'.
        destruct (Nat.eq_dec (List.length pre') (List.length done)) as [E|E].
        - destruct (app_same_length _ _ _ _ Hs' E) as [-> _].
          exists []. now rewrite app_nil_r.
        - destruct (app_longer done pre' _ _ (eq_sym Hs')) as (z & _ & Hz & _);
            [lia|]. now exists z. }
      destruct Hd as (z & ->). rewrite length_app in Hlt.
      rewrite <- !app_assoc in Hs'. apply app_inv_head in Hs'.
      apply (Hfirst z (label' ++ sep' ++ n') post' [(2%nat, n'); (1%nat, label')]).
      * rewrite <- !app_assoc. exact Hs'.
      * lia.
      * rewrite <- last_chr_app. now apply tp_at_matches.
    + assert (Hlen : (List.length rest < fuel)%nat).
      { rewrite !length_app in Hf.
        assert (List.length label <> 0)%nat
          by (pose proof (tp_label_nonempty label Hl); destruct label;
              [congruence|discriminate]).
        lia. }
      pose proof (IH (done ++ pre ++ (label ++ sep ++ n)) rest Hlen) as T.
      replace (List.length (done ++ pre ++ (label ++ sep ++ n))) with (m_end m)
        in T by (rewrite Hen, !length_app; lia).
      replace (last_chr None (done ++ pre ++ (label ++ sep ++ n))) with q in T
        by (rewrite Hq, Hm, !last_chr_app; reflexivity).
      replace ((done ++ pre ++ (label ++ sep ++ n)) ++ rest)
        with (done ++ pre ++ (label ++ sep ++ n) ++ rest) in T
        by (now rewrite <- !app_assoc).
      replace (List.length (done ++ pre) + List.length (label ++ sep ++ n))%nat
        with (m_end m) by (rewrite Hen, !length_app; lia).
      exact T.
  - simpl. apply tp_scan_end.
    intros pre label sep n post (Hs' & Hl' & Hsep' & Hn').
    destruct (Nat.le_gt_cases (List.length done) (List.length pre))
      as [Hle|Hlt]; [|exact Hlt].
    exfalso.
    assert (Hd : exists z, pre = done ++ z).
    { symmetry in Hs'.
      destruct (Nat.eq_dec (List.length pre) (List.length done)) as [E|E].
      - destruct (app_same_length _ _ _ _ Hs' E) as [-> _].
        exists []. now rewrite app_nil_r.
      - destruct (app_longer done pre _ _ (eq_sym Hs')) as (z & _ & Hz & _);
          [lia|]. now exists z. }
    destruct Hd as (z & ->).
    rewrite <- !app_assoc in Hs'. apply app_inv_head in Hs'.
    apply (search_from_none _ _ _ _ S z (label ++ sep ++ n) post
                            [(2%nat, n); (1%nat, label)]).
    + now rewrite Hs', <- !app_assoc.
    + rewrite <- last_chr_app. now apply tp_at_matches.
Qed.

Lemma scan_tps_scan (s : str) :
  exists ns, tp_scan s 0 ns /\ scan_tps s = converted ns.
Proof.
  exists (map (group_or_empty 2) (re_finditer TP_RE s)).
  split; [|apply scan_tps_converted].
  exact (finditer_tp_scan (S (List.length s)) [] s (Nat.lt_succ_diag_r _)).
Qed.

(** The take-profits of a window, with the whole message behind it. *)
Lemma extract_fields_tp_rule text inst chunk sig :
  extract_fields (flatten text) inst chunk = Ok (Some sig) ->
  tp_rule chunk text (tps sig).
Proof.
  intros E. apply extract_fields_tps in E. rewrite scan_tps_flatten in E.
  destruct (scan_tps_scan chunk) as (ns & Hs & Hc).
  exists ns. split; [exact Hs|].
  rewrite Hc in E. destruct (converted ns) as [|v vs] eqn:C.
  - right. split; [reflexivity|].
    destruct (scan_tps_scan text) as (ns' & Hs' & Hc').
    exists ns'. split; [exact Hs'|]. now rewrite E.
  - left. split; [discriminate|exact E].
Qed.
(** ** The errors of the parser *)

Lemma parse_number_raise (n : str) (e : exn) :
  numeral n -> parse_number n = Raise e -> e = ValueError /\ ill_formed n.
Proof.
  intros Hn P. pose proof (parse_number_numeral n (proj2 Hn)) as H.
  unfold ill_formed.
  destruct (well_formed_decimal (remove_chr "," n)).
  - destruct H as (v & Hv & _). congruence.
  - split; [congruence|auto].
Qed.

Lemma parse_number_ill_formed (n : str) :
  ill_formed n -> parse_number n = Raise ValueError.
Proof.
  intros [Hn Hw]. pose proof (parse_number_numeral n (proj2 Hn)) as H.
  now rewrite Hw in H.
Qed.

(** What the search for a price range finds. *)
Lemma range_search chunk m :
  re_search PRICE_RANGE_RE chunk = Some m ->
  exists n1 n2,
    m_groups m = [(2%nat, n2); (1%nat, n1)] /\ range_read chunk n1 n2.
Proof.
  intros R. apply re_search_here in R.
  destruct R as (pre & post & [[Hs M] Hfirst] & Hh).
  apply range_here in Hh.
  pose proof (price_range_matches _ _ _ _ M)
    as (a & n1 & b & n2 & Hw & Hg & Hn1 & Hn2).
  exists n1, n2. split; [exact Hg|].
  exists pre, a, b, post. rewrite <- Hw. rewrite Hg in M.
  split; [split; [split; [exact Hs|exact M]|exact Hfirst]|auto].
Qed.

(** What the search for a single number finds. *)
Lemma single_search chunk m :
  re_search PRICE_RANGE_RE chunk = None ->
  re_search SINGLE_RE chunk = Some m ->
  exists n, m_groups m = [(1%nat, n)] /\ single_read chunk n.
Proof.
  intros N R. apply re_search_nowhere in N. apply re_search_here in R.
  destruct R as (pre & post & [[Hs M] Hfirst] & Hh).
  apply single_here in Hh.
  pose proof (single_matches _ _ _ _ M) as (a & n & Hw & Hg & Hn).
  exists n. split; [exact Hg|]. split; [exact N|].
  exists pre, a, post. rewrite <- Hw. rewrite Hg in M.
  split; [split; [split; [exact Hs|exact M]|exact Hfirst]|auto].
Qed.

Lemma extract_entry_raise chunk e :
  extract_entry chunk = Raise e ->
  e = ValueError /\ exists n, price_read chunk n /\ ill_formed n.
Proof.
  unfold extract_entry, group_number, group_or_empty, m_group.
  destruct (re_search PRICE_RANGE_RE chunk) as [m|] eqn:R.
  - apply range_search in R. destruct R as (n1 & n2 & Hg & Hr).
    rewrite Hg. simpl.
    pose proof Hr as (_ & _ & _ & _ & _ & Hn1 & Hn2 & _).
    destruct (parse_number n1) as [x|e1] eqn:P1; simpl.
    + destruct (parse_number n2) as [y|e2] eqn:P2; simpl; [discriminate|].
      intros [= <-]. destruct (parse_number_raise _ _ Hn2 P2) as [-> Hi].
      split; [reflexivity|]. exists n2. split; [|exact Hi].
      right. left. now exists n1.
    + intros [= <-]. destruct (parse_number_raise _ _ Hn1 P1) as [-> Hi].
      split; [reflexivity|]. exists n1. split; [|exact Hi].
      left. now exists n2.
  - destruct (re_search SINGLE_RE chunk) as [m|] eqn:S; [|discriminate].
    apply (single_search _ _ R) in S. destruct S as (n & Hg & Hr).
    rewrite Hg. simpl.
    pose proof Hr as (_ & _ & _ & _ & _ & Hn & _).
    destruct (parse_number n) as [x|e1] eqn:P; simpl; [discriminate|].
    intros [= <-]. destruct (parse_number_raise _ _ Hn P) as [-> Hi].
    split; [reflexivity|]. exists n. split; [|exact Hi].
    right. right. now left.
Qed.

Lemma extract_sl_raise chunk e :
  extract_sl chunk = Raise e ->
  e = ValueError /\ exists n, price_read chunk n /\ ill_formed n.
Proof.
  unfold extract_sl, group_number, group_or_empty, m_group.
  destruct (re_search SL_RE chunk) as [m|] eqn:R; [|discriminate].
  apply sl_search in R.
  destruct R as (pre & label & sep & n & post & Hg & Hr & Hfirst).
  rewrite Hg. simpl.
  destruct (parse_number n) as [x|e1] eqn:P; simpl; [discriminate|].
  intros [= <-].
  assert (Hn : numeral n) by apply Hr.
  destruct (parse_number_raise _ _ Hn P) as [-> Hi].
  split; [reflexivity|]. exists n. split; [|exact Hi].
  right. right. right. exists pre, label, sep, post. auto.
Qed.

Lemma extract_fields_raise txt inst chunk e :
  extract_fields txt inst chunk = Raise e ->
  e = ValueError
  /\ (exists w, first_keyword chunk w)
  /\ exists n, price_read chunk n /\ ill_formed n.
Proof.
  unfold extract_fields.
  destruct (extract_side chunk) as [sd|] eqn:S; [|discriminate].
  apply extract_side_some in S. destruct S as (w & Hw & _).
  destruct (extract_entry chunk) as [en|e1] eqn:E; simpl.
  - destruct (extract_sl chunk) as [stop|e2] eqn:L; simpl; [discriminate|].
    intros [= <-]. destruct (extract_sl_raise _ _ L) as [-> H]. eauto.
  - intros [= <-]. destruct (extract_entry_raise _ _ E) as [-> H]. eauto.
Qed.

Lemma extract_all_raise txt cands sigs e :
  extract_all txt cands sigs = Raise e ->
  exists cand, In cand cands /\ extract_candidate txt cand = Raise e.
Proof.
  revert sigs. induction cands as [|c cands IH]; intros sigs; simpl.
  - discriminate.
  - destruct (extract_candidate txt c) as [r|e1] eqn:E; simpl.
    + intros H. destruct (IH _ H) as (cand & Hin & Hc). eauto.
    + intros [= <-]. eauto.
Qed.

(** An exception of the parser comes from a price it could not
    convert. *)
Lemma parse_signals_raise text e :
  parse_signals text = Raise e ->
  e = ValueError
  /\ exists cand chunk w n,
       In cand (candidates text)
       /\ window (fst cand) (flatten text) = Some chunk
       /\ first_keyword chunk w
       /\ price_read chunk n /\ ill_formed n.
Proof.
  unfold parse_signals, candidates. fold (flatten text).
  rewrite instrument_candidates_keys. intros H.
  apply extract_all_raise in H. destruct H as (cand & Hin & Hc).
  unfold extract_candidate in Hc.
  destruct (window (fst cand) (flatten text)) as [chunk|] eqn:W;
    [|discriminate].
  apply extract_fields_raise in Hc.
  destruct Hc as (-> & (w & Hw) & n & Hr & Hi).
  split; [reflexivity|]. exists cand, chunk, w, n. auto.
Qed.

(** ** One reading only *)

(** A run of a class before a character outside it begins in one way
    only. *)
Lemma run_unique (p : ascii -> bool) (a a' r r' : str) :
  forallb p a = true -> forallb p a' = true ->
  a ++ r = a' ++ r' ->
  (forall c t, r = c :: t -> p c = false) ->
  (forall c t, r' = c :: t -> p c = false) ->
  a = a' /\ r = r'.
Proof.
  intros Ha Ha' E Hr Hr'.
  destruct (Nat.lt_trichotomy (List.length a) (List.length a'))
    as [Hlt|[Heq|Hgt]].
  - exfalso. destruct (app_longer _ _ _ _ E Hlt) as (z & Hz & -> & ->).
    rewrite forallb_app in Ha'. apply andb_true_iff in Ha'.
    destruct Ha' as [_ Hzp]. destruct z as [|c z]; [congruence|].
    simpl in Hzp. apply andb_true_iff in Hzp. destruct Hzp as [Hc _].
    rewrite (Hr c (z ++ r') eq_refl) in Hc. discriminate.
  - exact (app_same_length _ _ _ _ E Heq).
  - exfalso. symmetry in E.
    destruct (app_longer _ _ _ _ E Hgt) as (z & Hz & -> & ->).
    rewrite forallb_app in Ha. apply andb_true_iff in Ha.
    destruct Ha as [_ Hzp]. destruct z as [|c z]; [congruence|].
    simpl in Hzp. apply andb_true_iff in Hzp. destruct Hzp as [Hc _].
    rewrite (Hr' c (z ++ r) eq_refl) in Hc. discriminate.
Qed.

Lemma num_not_sep (c : ascii) :
  is_num_chr c = true ->
  (chr_eqb c ":" || chr_eqb c "=" || is_space c) = false.
Proof. destruct c as [[] [] [] [] [] [] [] []]; vm_compute; congruence. Qed.

Lemma numeral_head (n rest : str) (p : ascii -> bool) :
  numeral n -> (forall c, is_num_chr c = true -> p c = false) ->
  forall c t, n ++ rest = c :: t -> p c = false.
Proof.
  intros [Hne Hn] Hp c t E. destruct n as [|x n]; [congruence|].
  simpl in E, Hn. injection E as <- _.
  apply andb_true_iff in Hn. now apply Hp.
Qed.

(** Separators and a numeral that runs to its end are read in one
    way. *)
Lemma sep_num_unique (sep n post sep' n' post' : str) :
  seps sep -> numeral n -> numeral_ends post ->
  seps sep' -> numeral n' -> numeral_ends post' ->
  sep ++ n ++ post = sep' ++ n' ++ post' ->
  sep = sep' /\ n = n' /\ post = post'.
Proof.
  intros Hs Hn He Hs' Hn' He' E.
  destruct (run_unique _ _ _ _ _ Hs Hs' E
                       (numeral_head n post _ Hn num_not_sep)
                       (numeral_head n' post' _ Hn' num_not_sep))
    as [-> E'].
  destruct (run_unique _ _ _ _ _ (proj2 Hn) (proj2 Hn') E' He He')
    as [-> ->].
  auto.
Qed.

Lemma lower_app (a b : str) : lower (a ++ b) = lower a ++ lower b.
Proof. apply map_app. Qed.

Lemma sl_label_length (l l' x y : str) :
  sl_label l -> sl_label l' -> l ++ x = l' ++ y ->
  List.length l = List.length l'.
Proof.
  unfold sl_label. intros H H' E.
  apply (f_equal lower) in E. rewrite !lower_app in E.
  rewrite <- (lower_length l), <- (lower_length l').
  simpl in H, H'.
  destruct H as [H|[H|[H|[]]]], H' as [H'|[H'|[H'|[]]]];
    rewrite <- H, <- H' in *; try reflexivity;
    exfalso; vm_compute in E; congruence.
Qed.

(** At one place a stop-loss is read in one way. *)
Lemma sl_read_unique chunk pre label sep n post label' sep' n' post' :
  sl_read chunk pre label sep n post ->
  sl_read chunk pre label' sep' n' post' ->
  n = n'.
Proof.
  intros [(Hs & Hl & Hsep & Hn) He] [(Hs' & Hl' & Hsep' & Hn') He'].
  rewrite Hs in Hs'. apply app_inv_head in Hs'.
  rewrite <- !app_assoc in Hs'.
  destruct (app_same_length _ _ _ _ Hs'
                            (sl_label_length _ _ _ _ Hl Hl' Hs'))
    as [_ E].
  now destruct (sep_num_unique _ _ _ _ _ _ Hsep Hn He Hsep' Hn' He' E)
    as (_ & -> & _).
Qed.

Lemma same_place {X} (s pre pre' x x' : list X) :
  s = pre ++ x -> s = pre' ++ x' ->
  (List.length pre <= List.length pre')%nat ->
  (List.length pre' <= List.length pre)%nat ->
  pre = pre' /\ x = x'.
Proof.
  intros -> E L L'. apply app_same_length; [exact E|lia].
Qed.

(** The stop-loss rule gives one value. *)
Lemma sl_rule_unique chunk a b : sl_rule chunk a -> sl_rule chunk b -> a = b.
Proof.
  intros [(pre & label & sep & n & post & v & Hr & Hf & P & ->)|[Hn ->]]
         [(pre' & label' & sep' & n' & post' & v' & Hr' & Hf' & P' & ->)
         |[Hn' ->]].
  - pose proof (Hf _ _ _ _ _ (proj1 Hr')) as L.
    pose proof (Hf' _ _ _ _ _ (proj1 Hr)) as L'.
    destruct (same_place chunk pre pre' _ _
                         (proj1 (proj1 Hr)) (proj1 (proj1 Hr')) L L')
      as [<- _].
    rewrite (sl_read_unique _ _ _ _ _ _ _ _ _ _ Hr Hr') in P. congruence.
  - exfalso. exact (Hn' _ _ _ _ _ (proj1 Hr)).
  - exfalso. exact (Hn _ _ _ _ _ (proj1 Hr')).
  - reflexivity.
Qed.

(** At one place a take-profit is read in one way. *)
Lemma tp_read_unique s pre label sep n post label' sep' n' post' :
  tp_read s pre label sep n post ->
  tp_read s pre label' sep' n' post' ->
  label = label' /\ sep = sep' /\ n = n' /\ post = post'.
Proof.
  intros (Ha & He & Hg) (Ha' & He' & Hg').
  pose proof (Hg _ _ _ _ Ha') as L. pose proof (Hg' _ _ _ _ Ha) as L'.
  destruct Ha as (Hs & Hl & Hsep & Hn), Ha' as (Hs' & Hl' & Hsep' & Hn').
  rewrite Hs in Hs'. apply app_inv_head in Hs'.
  rewrite <- !app_assoc in Hs'.
  destruct (app_same_length _ _ _ _ Hs') as [-> E]; [lia|].
  destruct (sep_num_unique _ _ _ _ _ _ Hsep Hn He Hsep' Hn' He' E)
    as (-> & -> & ->).
  auto.
Qed.

(** The scan of the take-profits gives one list. *)
Lemma tp_scan_unique s pos ns :
  tp_scan s pos ns -> forall ns', tp_scan s pos ns' -> ns = ns'.
Proof.
  induction 1 as [pos Hnone|pos pre label sep n post ns Hr Hpos Hf _ IH];
    intros ns' T'.
  - inversion T' as [|? pre' label' sep' n' post' ns0 Hr' Hpos' Hf' T0];
      subst; [reflexivity|].
    exfalso. pose proof (Hnone _ _ _ _ _ (proj1 Hr')). lia.
  - inversion T' as [? Hnone'|? pre' label' sep' n' post' ns0 Hr' Hpos' Hf' T0];
      subst.
    + exfalso. pose proof (Hnone' _ _ _ _ _ (proj1 Hr)). lia.
    + pose proof (Hf _ _ _ _ _ (proj1 Hr') Hpos') as L.
      pose proof (Hf' _ _ _ _ _ (proj1 Hr) Hpos) as L'.
      destruct (same_place s pre pre' _ _
                           (proj1 (proj1 Hr)) (proj1 (proj1 Hr')) L L')
        as [<- _].
      destruct (tp_read_unique _ _ _ _ _ _ _ _ _ _ Hr Hr')
        as (<- & <- & <- & <-).
      f_equal. now apply IH.
Qed.

(** ** One reading of the entry *)

Lemma num_not_space (c : ascii) : is_num_chr c = true -> is_space c = false.
Proof. destruct c as [[] [] [] [] [] [] [] []]; vm_compute; congruence. Qed.

Lemma matches_ws prev w rest g g' :
  matches WS prev w rest g g' -> forallb is_space w = true /\ g' = g.
Proof.
  unfold WS. intros M. apply matches_rep_inv in M. tauto.
Qed.

Lemma matches_range_sign prev w rest g g' :
  matches (Alt (chr "-") (Alt (lit_re (lit "to")) (chr "/"))) prev w rest g g'
  -> (w = lit "-" \/ w = lit "to" \/ w = lit "/") /\ g' = g.
Proof.
  intros M.
  apply matches_alt_inv in M. destruct M as [M|M].
  - apply matches_chr_inv in M. destruct M as (c & -> & Hc & ->).
    apply chr_eqb_eq in Hc. subst. auto.
  - apply matches_alt_inv in M. destruct M as [M|M].
    + change (lit_re (lit "to")) with (Seq (chr "t") (chr "o")) in M.
      apply matches_seq_inv in M. destruct M as (w1 & w2 & g1 & -> & M1 & M2).
      apply matches_chr_inv in M1. destruct M1 as (c1 & -> & H1 & ->).
      apply matches_chr_inv in M2. destruct M2 as (c2 & -> & H2 & ->).
      apply chr_eqb_eq in H1, H2. subst. auto.
    + apply matches_chr_inv in M. destruct M as (c & -> & Hc & ->).
      apply chr_eqb_eq in Hc. subst. auto.
Qed.
(** ** Side, take-profits, stop-loss and errors of the signals *)

(** A window whose prices convert and that has a keyword gives its
    signal. *)
Lemma extract_candidate_built txt cand chunk w :
  window (fst cand) txt = Some chunk ->
  first_keyword chunk w ->
  (forall n, price_read chunk n -> ~ ill_formed n) ->
  exists sig,
    extract_candidate txt cand = Ok (Some sig)
    /\ side_of_keyword w (side sig) /\ instrument sig = snd cand.
Proof.
  intros W Hw Hp.
  destruct (extract_entry chunk) as [e|x] eqn:E.
  - destruct (extract_sl chunk) as [stop|y] eqn:L.
    + exact (extract_candidate_side txt cand chunk w e stop W Hw E L).
    + exfalso. destruct (extract_sl_raise _ _ L) as (_ & n & Hr & Hi).
      exact (Hp n Hr Hi).
  - exfalso. destruct (extract_entry_raise _ _ E) as (_ & n & Hr & Hi).
    exact (Hp n Hr Hi).
Qed.

Lemma parse_signals_returns text :
  (forall cand chunk n,
      In cand (candidates text) ->
      window (fst cand) (flatten text) = Some chunk ->
      price_read chunk n -> ~ ill_formed n) ->
  exists sigs, parse_signals text = Ok sigs.
Proof.
  intros H. destruct (parse_signals text) as [sigs|e] eqn:P; [eauto|].
  exfalso. apply parse_signals_raise in P.
  destruct P as (_ & cand & chunk & w & n & Hin & W & _ & Hr & Hi).
  exact (H cand chunk n Hin W Hr Hi).
Qed.

(** C4: a window without a whole-word buy, long, sell or short, in any
    casing, gives no signal and no error.  A window with one gives a
    signal as soon as its prices convert, and the first keyword decides
    the side: buy for buy and long, sell for sell and short.  The signals
    [parse_signals] returns are those of the candidates, one after the
    other: none for a candidate without a window or with a window without
    a keyword, one for every other candidate, with its instrument and the
    side of the first keyword of its window; and [parse_signals] returns
    whenever no window holds a price it cannot convert.
    "EURUSD 1.05 - 1.06" gives no signal. *)
Theorem side_from_first_keyword :
  (forall txt cand chunk,
      window (fst cand) txt = Some chunk ->
      (forall pre w post, ~ keyword_at chunk pre w post) ->
      extract_candidate txt cand = Ok None)
  /\ (forall txt cand chunk w,
         window (fst cand) txt = Some chunk ->
         first_keyword chunk w ->
         (forall n, price_read chunk n -> ~ ill_formed n) ->
         exists sig,
           extract_candidate txt cand = Ok (Some sig)
           /\ side_of_keyword w (side sig) /\ instrument sig = snd cand)
  /\ (forall text sigs,
         parse_signals text = Ok sigs ->
         reads (fun _ _ => True) (flatten text) (candidates text) sigs)
  /\ (forall text,
         (forall cand chunk n,
             In cand (candidates text) ->
             window (fst cand) (flatten text) = Some chunk ->
             price_read chunk n -> ~ ill_formed n) ->
         exists sigs, parse_signals text = Ok sigs)
  /\ (forall chunk w w',
         first_keyword chunk w -> first_keyword chunk w' -> w = w')
  /\ parse_signals (lit "EURUSD 1.05 - 1.06") = Ok [].
Proof.
  split; [|split; [|split; [|split; [|split]]]].
  - intros txt cand chunk W H. unfold extract_candidate. rewrite W.
    unfold extract_fields. now rewrite (extract_side_none _ H).
  - exact extract_candidate_built.
  - intros text sigs H. apply parse_signals_reads in H.
    eapply reads_impl; [|exact H]. auto.
  - exact parse_signals_returns.
  - exact first_keyword_unique.
  - vm_compute. reflexivity.
Qed.

Lemma side_from_first_keyword_witness :
  extract_candidate (lit "EURUSD 1.05 - 1.06") (lit "eurusd", lit "EUR_USD")
  = Ok None
  /\ reads (fun _ _ => True) (flatten (lit "gold SHORT 1950"))
           (candidates (lit "gold SHORT 1950")) [naked_sell].
Proof.
  split.
  - apply (proj1 side_from_first_keyword _ _ (lit "EURUSD 1.05 - 1.06"));
      [reflexivity|].
    intros pre w post Hk.
    assert (Ho : occurs_at SIDE_RE (lit "EURUSD 1.05 - 1.06") pre w post
                           [(1%nat, w)])
      by (apply side_occurs_iff; split; [exact Hk | reflexivity]).
    revert Ho. apply re_search_none. reflexivity.
  - apply (proj1 (proj2 (proj2 side_from_first_keyword))
                 (lit "gold SHORT 1950") [naked_sell]).
    vm_compute. reflexivity.
Defined.

(** C6: the take-profits of a text are read one after the other, from
    left to right: each is the leftmost labelled number that begins where
    the one before ended or later, none is passed over, and the values
    are those of the numerals that convert, in that order; a numeral that
    does not convert is left out and the scan goes on.  The take-profits
    of a signal are those of its window, and when the window gives none,
    those of the whole message.  They never keep the signal from being
    built.  In "gold buy 1950 tp1 1.2.3 tp2 1970" the targets are
    [1970.0], and so they are in "tp 1970 #gold buy 1950", where the
    window "gold buy 1950" has none. *)
Theorem take_profits_in_order :
  (forall s, exists ns, tp_scan s 0 ns /\ scan_tps s = converted ns)
  /\ (forall text sigs,
         parse_signals text = Ok sigs ->
         reads (fun chunk sig => tp_rule chunk text (tps sig))
               (flatten text) (candidates text) sigs)
  /\ (forall txt cand chunk w,
         window (fst cand) txt = Some chunk ->
         first_keyword chunk w ->
         (forall n, price_read chunk n -> ~ ill_formed n) ->
         exists sig, extract_candidate txt cand = Ok (Some sig))
  /\ converted [lit "1.2.3"; lit "1970"] = [float_of_Z 1970]
  /\ parse_signals (lit "gold buy 1950 tp1 1.2.3 tp2 1970")
     = Ok [tp_skipped_signal]
  /\ scan_tps (lit "gold buy 1950") = []
  /\ parse_signals (lit "tp 1970 #gold buy 1950") = Ok [tp_skipped_signal].
Proof.
  split; [exact scan_tps_scan|]. split; [|split].
  - intros text sigs H. apply parse_signals_reads in H.
    eapply reads_impl; [|exact H].
    intros chunk sig E. exact (extract_fields_tp_rule _ _ _ _ E).
  - intros txt cand chunk w W Hw Hp.
    destruct (extract_candidate_built txt cand chunk w W Hw Hp)
      as (sig & E & _).
    now exists sig.
  - repeat split; vm_compute; reflexivity.
Qed.

Lemma take_profits_in_order_witness :
  reads (fun chunk sig =>
           tp_rule chunk (lit "gold buy 1950 tp1 1.2.3 tp2 1970") (tps sig))
        (flatten (lit "gold buy 1950 tp1 1.2.3 tp2 1970"))
        (candidates (lit "gold buy 1950 tp1 1.2.3 tp2 1970"))
        [tp_skipped_signal].
Proof.
  apply (proj1 (proj2 take_profits_in_order)
               (lit "gold buy 1950 tp1 1.2.3 tp2 1970") [tp_skipped_signal]).
  vm_compute. reflexivity.
Defined.

(** X6: the stop-loss of every signal is read from its own window: it is
    the value of the leftmost number labelled "sl", "stoploss" or
    "stop loss", in any casing and even at the end of a longer word, past
    any ":", "=" and whitespace, the numeral taken as far as digits, dots
    and commas run; a window without such a label gives no stop-loss. *)
Theorem stop_loss_from_first_label (text : str) (sigs : list TradeSignal) :
  parse_signals text = Ok sigs ->
  reads (fun chunk sig => sl_rule chunk (sl sig))
        (flatten text) (candidates text) sigs.
Proof.
  intros H. apply parse_signals_reads in H.
  eapply reads_impl; [|exact H].
  intros chunk sig E. exact (extract_sl_rule _ _ (extract_fields_sl _ _ _ _ E)).
Qed.

Lemma stop_loss_from_first_label_witness :
  reads (fun chunk sig => sl_rule chunk (sl sig))
        (flatten (lit "GOLD buy @1950 sl 1940 tp1 1960 tp2 1970"))
        (candidates (lit "GOLD buy @1950 sl 1940 tp1 1960 tp2 1970"))
        [gold_signal].
Proof.
  apply (stop_loss_from_first_label
           (lit "GOLD buy @1950 sl 1940 tp1 1960 tp2 1970") [gold_signal]).
  vm_compute. reflexivity.
Defined.

(** X8: [parse_signals] raises nothing but [ValueError], and only for a
    message in which the window of a candidate has a directional keyword
    and a price the parser reads there, for the entry or for the
    stop-loss, is a numeral [float] refuses: one without a digit or with
    more than one dot. *)
Theorem parse_signals_raises_value_error (text : str) (e : exn) :
  parse_signals text = Raise e ->
  e = ValueError
  /\ exists cand chunk w n,
       In cand (candidates text)
       /\ window (fst cand) (flatten text) = Some chunk
       /\ first_keyword chunk w
       /\ price_read chunk n /\ ill_formed n.
Proof. exact (parse_signals_raise text e). Qed.

Lemma parse_signals_raises_value_error_witness :
  ValueError = ValueError
  /\ exists cand chunk w n,
       In cand (candidates (lit "gold buy 1.2.3"))
       /\ window (fst cand) (flatten (lit "gold buy 1.2.3")) = Some chunk
       /\ first_keyword chunk w
       /\ price_read chunk n /\ ill_formed n.
Proof.
  apply (parse_signals_raises_value_error (lit "gold buy 1.2.3") ValueError).
  vm_compute. reflexivity.
Defined.

(** ** The stop distance *)

Lemma binary_round_aux_abs sx sy (m e : Z) (l : location) :
  SFabs (binary_round_aux prec emax sx m e l)
  = SFabs (binary_round_aux prec emax sy m e l).
Proof.
  unfold binary_round_aux.
  destruct (shr_fexp prec emax m e l) as [mrs' e'].
  destruct (shr_fexp prec emax _ e' loc_Exact) as [mrs'' e''].
  destruct (shr_m mrs''); try reflexivity.
  destruct (e'' <=? emax - prec); reflexivity.
Qed.

Lemma binary_normalize_abs_opp (m e : Z) :
  SFabs (binary_normalize prec emax (- m) e false)
  = SFabs (binary_normalize prec emax m e false).
Proof.
  destruct m as [|p|p]; simpl; try reflexivity; unfold binary_round;
    destruct (shl_align p e _) as [mz ez]; apply binary_round_aux_abs.
Qed.

(** [|a - b| = |b - a|], bit for bit. *)
Lemma stop_distance_sym (a b : float) : stop_distance a b = stop_distance b a.
Proof.
  unfold stop_distance, fabs, fsub, SFsub.
  destruct a as [sa|sa| |sa ma ea], b as [sb|sb| |sb mb eb];
    try reflexivity; try (destruct sa, sb; reflexivity).
  rewrite (Z.min_comm eb ea).
  rewrite <- binary_normalize_abs_opp. f_equal. f_equal. ring.
Qed.

(** X9: [calc_units] does not look at which side of the entry the stop
    stands: with the entry price and the stop-loss exchanged it gives the
    same result, so a buy with its stop above the entry is sized like one
    with its stop below. *)
Theorem calc_units_stop_side_blind (balance : float) (signal : TradeSignal) :
  calc_units balance (swap_stop signal) = calc_units balance signal.
Proof.
  unfold calc_units, swap_stop. cbn [side sl entry_min].
  rewrite (orb_comm (falsy (entry_min signal))).
  destruct (falsy (sl signal) || falsy (entry_min signal)); [reflexivity|].
  destruct (entry_min signal) as [e|], (sl signal) as [s|]; try reflexivity.
  cbv zeta. fold (stop_distance s e). fold (stop_distance e s).
  now rewrite (stop_distance_sym s e).
Qed.

(* ===================================================================== *)
(** * The executor *)
(* ===================================================================== *)

(** ** Runs of composed programs *)

Lemma runs_done {A} (r : outcome A) t out :
  runs (done r) t out <-> t = [] /\ out = r.
Proof. destruct r; simpl; tauto. Qed.

Lemma runs_call {X} (o : op X) t out :
  runs (call o) t out <-> t = [Io o out].
Proof.
  unfold call. simpl. split.
  - intros (r & t' & -> & H). apply runs_done in H. now destruct H as [-> ->].
  - intros ->. exists out, []. split; [reflexivity|]. now apply runs_done.
Qed.

Lemma runs_pure {A} (c : result A) t out :
  runs (pure c) t out <->
  t = [] /\ out = match c with
                  | Ok a => Returned a
                  | Raise e => Raised (Exn e)
                  end.
Proof. destruct c; simpl; tauto. Qed.

Lemma runs_bind {A B} (p : prog A) (f : A -> prog B) t out :
  runs (pbind p f) t out <->
  (exists t1 a t2,
      runs p t1 (Returned a) /\ runs (f a) t2 out /\ t = t1 ++ t2)
  \/ (exists e, runs p t (Raised e) /\ out = Raised e).
Proof.
  revert t. induction p as [a|e|X o k IH]; intros t; simpl.
  - split.
    + intros H. left. exists [], a, t. auto.
    + intros [(t1 & a' & t2 & [-> Ha] & Hf & ->)|(e & [_ [=]] & _)].
      injection Ha as <-. exact Hf.
  - split.
    + intros [-> ->]. right. exists e. auto.
    + intros [(t1 & a' & t2 & [_ [=]] & _)|(e' & [-> He] & ->)].
      injection He as <-. auto.
  - split.
    + intros (r & t' & -> & H). apply IH in H.
      destruct H as [(t1 & a & t2 & H1 & H2 & ->)|(e & H1 & ->)].
      * left. exists (Io o r :: t1), a, t2.
        split; [exists r, t1; auto|auto].
      * right. exists e. split; [exists r, t'; auto|reflexivity].
    + intros [(t1 & a & t2 & (r & t' & -> & H1) & H2 & ->)
             |(e & (r & t' & -> & H1) & ->)].
      * exists r, (t' ++ t2). split; [reflexivity|]. apply IH. left.
        exists t', a, t2. auto.
      * exists r, t'. split; [reflexivity|]. apply IH. right.
        exists e. auto.
Qed.

Lemma runs_finally {A} (body : prog A) (fin : prog unit) t out :
  runs (finally body fin) t out <->
  exists t1 o1 t2 o2,
    runs body t1 o1 /\ runs fin t2 o2 /\ t = t1 ++ t2
    /\ out = match o2 with
             | Returned _ => o1
             | Raised e => Raised e
             end.
Proof.
  revert t. induction body as [a|e|X o k IH]; intros t; simpl.
  - rewrite runs_bind. split.
    + intros [(t1 & u & t2 & H1 & [-> ->] & ->)|(e & H1 & ->)].
      * exists [], (Returned a), t1, (Returned u).
        rewrite app_nil_r. auto.
      * exists [], (Returned a), t, (Raised e). auto.
    + intros (t1 & o1 & t2 & o2 & [-> ->] & H2 & -> & ->). simpl.
      destruct o2 as [u|e].
      * left. exists t2, u, []. rewrite app_nil_r. auto.
      * right. eauto.
  - rewrite runs_bind. split.
    + intros [(t1 & u & t2 & H1 & [-> ->] & ->)|(e' & H1 & ->)].
      * exists [], (Raised e), t1, (Returned u).
        rewrite app_nil_r. auto.
      * exists [], (Raised e), t, (Raised e'). auto.
    + intros (t1 & o1 & t2 & o2 & [-> ->] & H2 & -> & ->). simpl.
      destruct o2 as [u|e'].
      * left. exists t2, u, []. rewrite app_nil_r. auto.
      * right. eauto.
  - split.
    + intros (r & t' & -> & H). apply IH in H.
      destruct H as (t1 & o1 & t2 & o2 & H1 & H2 & -> & ->).
      exists (Io o r :: t1), o1, t2, o2. split; [exists r, t1; auto|auto].
    + intros (t1 & o1 & t2 & o2 & (r & t' & -> & H1) & H2 & -> & ->).
      exists r, (t' ++ t2). split; [reflexivity|]. apply IH.
      exists t', o1, t2, o2. auto.
Qed.

Lemma requested_app t1 t2 : requested (t1 ++ t2) = requested t1 ++ requested t2.
Proof. apply flat_map_app. Qed.

Lemma accepted_app t1 t2 : accepted (t1 ++ t2) = accepted t1 ++ accepted t2.
Proof. unfold accepted. now rewrite filter_app, flat_map_app. Qed.

Lemma written_app t1 t2 : written (t1 ++ t2) = written t1 ++ written t2.
Proof. apply flat_map_app. Qed.

Lemma logged_app t1 t2 : logged (t1 ++ t2) = logged t1 ++ logged t2.
Proof. unfold logged. now rewrite filter_app, flat_map_app. Qed.

(** ** [log_trade] *)

Ltac run_end H := destruct H as [-> ->].

Ltac run_step H :=
  let r := fresh "r" in
  let t' := fresh "t" in
  destruct H as (r & t' & -> & H); destruct r as [?|?]; simpl in H.

Ltac run_all H := simpl in H; repeat first [run_end H | run_step H].

Lemma prefix_nil {X} (l : list X) : prefix [] l.
Proof. now exists l. Qed.

Lemma prefix_refl {X} (l : list X) : prefix l l.
Proof. exists []. now rewrite app_nil_r. Qed.

Lemma prefix_one {X} (x y : X) : prefix [x] [x; y].
Proof. now exists [y]. Qed.


(** The runs of [log_trade]. *)
Lemma log_trade_runs (f : float -> str) (signal : TradeSignal)
      (source : str) (units : Z) (mode : str) (t : trace)
      (out : outcome unit) :
  runs (log_trade f signal source units mode) t out ->
  exists (file_exists : bool) (now : str),
    let row := log_row f now signal source units mode in
    (prefix (written t) (trade_rows file_exists row)
     /\ (written t = [] \/ file_reports t = [file_exists])
     /\ (out = Returned tt -> logged t = trade_rows file_exists row)
     /\ (existsb opens t = true -> closed_last t = true)
     /\ (written t <> [] -> existsb opens t = true))
    /\ requested t = [] /\ accepted t = [] /\ account_replies t = []
    /\ Forall (row_of f signal source units mode) (written t)
    /\ (out = Returned tt -> In row (logged t)).
Proof.
  intros H. unfold log_trade in H. simpl in H.
  run_step H; [|run_end H; exists true, []; simpl;
                 repeat split; auto using prefix_nil; discriminate].
  run_step H; [|run_end H; exists true, []; simpl;
                 repeat split; auto using prefix_nil; discriminate].
  assert (Hh : row_of f signal source units mode log_header) by now left.
  assert (Hr : forall now, row_of f signal source units mode
                                  (log_row f now signal source units mode))
    by (intros now; right; now exists now).
  destruct x; simpl in H.
  - run_all H; exists true;
      first [ exists x | exists x1 | exists [] ]; cbv zeta; unfold trade_rows;
      simpl;
      (repeat split;
       auto using prefix_nil, prefix_refl, prefix_one; try discriminate;
       try (intros _; reflexivity); try (intros _; simpl; auto)).
  - run_all H; exists false;
      first [ exists x1 | exists [] ]; cbv zeta; unfold trade_rows;
      simpl;
      (repeat split;
       auto using prefix_nil, prefix_refl, prefix_one; try discriminate;
       try (intros _; reflexivity); try (intros _; simpl; auto)).
Qed.

(** X10: [log_trade] writes the header first, and only into a log that did not
    exist, then the one row of the trade; when it returns, the log has
    taken these rows.  It closes the log whenever it has opened it, also
    when a write or the clock fails, and it writes nothing without having
    opened it. *)
Theorem log_trade_rows (str_of_float : float -> str) (signal : TradeSignal)
        (source : str) (units : Z) (mode : str) (t : trace)
        (out : outcome unit) :
  runs (log_trade str_of_float signal source units mode) t out ->
  exists (file_exists : bool) (now : str),
    let row := log_row str_of_float now signal source units mode in
    prefix (written t) (trade_rows file_exists row)
    /\ (written t = [] \/ file_reports t = [file_exists])
    /\ (out = Returned tt -> logged t = trade_rows file_exists row)
    /\ (existsb opens t = true -> closed_last t = true)
    /\ (written t <> [] -> existsb opens t = true).
Proof.
  intros H. apply log_trade_runs in H.
  destruct H as (b & now & H & _). exists b, now. exact H.
Qed.

(** ** [execute_order] *)

(** The runs of [execute_order]: it ends before any order, or it asks
    for the one order of the signal, sized from the balance OANDA gave,
    and goes on to the log only when OANDA has taken it. *)
Lemma execute_order_runs (f : float -> str) (signal : TradeSignal)
      (source : str) (t : trace) (out : outcome unit) :
  runs (execute_order f signal source) t out ->
  (requested t = [] /\ accepted t = [] /\ written t = []
   /\ exists e, out = Raised e)
  \/ exists resp bal units,
       account_replies t = [resp]
       /\ balance_of resp = Returned bal
       /\ calc_units bal signal = Ok units
       /\ requested t = [order_of f signal units]
       /\ (accepted t = requested t
           \/ accepted t = [] /\ written t = [] /\ exists e, out = Raised e)
       /\ Forall (row_of f signal source units (lit "LIVE")) (written t)
       /\ (out = Returned tt ->
           accepted t = requested t
           /\ exists now,
                In (log_row f now signal source units (lit "LIVE"))
                   (logged t)).
Proof.
  intros H. unfold execute_order in H. simpl in H.
  run_step H; [|run_end H; left; simpl; eauto 6].
  run_step H; [|run_end H; left; simpl; eauto 6].
  rename x0 into resp.
  destruct (balance_of resp) as [bal|e] eqn:B; simpl in H;
    [|run_end H; left; simpl; eauto 6].
  destruct (calc_units bal signal) as [units|e] eqn:U; simpl in H;
    [|run_end H; left; simpl; eauto 6].
  unfold DRY_RUN in H. cbv iota in H. simpl in H.
  right. exists resp, bal, units.
  run_step H; [|run_end H; simpl; repeat split; eauto 6; discriminate].
  run_step H; [|run_end H; simpl; repeat split; eauto 6; discriminate].
  apply log_trade_runs in H.
  destruct H as (b & now & _ & Hq & Ha & Hc & Hw & Hl).
  unfold requested, accepted, written, logged, account_replies in *.
  simpl. rewrite Hq, Ha, Hc. repeat split; auto.
  exists now. auto.
Qed.

(** X11: one call of [execute_order] asks OANDA for at most one order, the
    order of the signal with the units [calc_units] gives for the balance
    OANDA has just reported; nothing is written to the log unless OANDA
    has taken the order, and the rows written are those of this trade, in
    mode LIVE.  When the call returns, the order was taken and its row is
    in the log. *)
Theorem execute_order_one_order (str_of_float : float -> str)
        (signal : TradeSignal) (source : str) (t : trace)
        (out : outcome unit) :
  runs (execute_order str_of_float signal source) t out ->
  (requested t = [] /\ written t = [] /\ exists e, out = Raised e)
  \/ exists resp bal units,
       account_replies t = [resp]
       /\ balance_of resp = Returned bal
       /\ calc_units bal signal = Ok units
       /\ requested t = [order_of str_of_float signal units]
       /\ (written t = [] \/ accepted t = requested t)
       /\ Forall (row_of str_of_float signal source units (lit "LIVE"))
                 (written t)
       /\ (out = Returned tt ->
           accepted t = requested t
           /\ exists now,
                In (log_row str_of_float now signal source units (lit "LIVE"))
                   (logged t)).
Proof.
  intros H. apply execute_order_runs in H.
  destruct H as [(Hq & _ & Hw & He)|(resp & bal & units & H1 & H2 & H3 & H4
                                     & H5 & H6 & H7)].
  - left. auto.
  - right. exists resp, bal, units. repeat split; auto.
    + destruct H5 as [H5|(_ & H5 & _)]; auto.
    + apply H7; assumption.
    + apply H7; assumption.
Qed.

(** X12: a signal without a stop-loss is ordered with the default size and
    without a stop, whatever its side: the units of its order are "100",
    also for a sell, and no stop-loss goes with it. *)
Theorem order_without_stop (str_of_float : float -> str)
        (signal : TradeSignal) (source : str) (t : trace)
        (out : outcome unit) (d : order_data) :
  runs (execute_order str_of_float signal source) t out ->
  falsy (sl signal) = true ->
  In d (requested t) ->
  o_instrument d = instrument signal
  /\ o_units d = lit "100"
  /\ o_stopLossOnFill d = None.
Proof.
  intros H Hs Hd. apply execute_order_runs in H.
  destruct H as [(Hq & _)|(resp & bal & units & _ & _ & U & Hq & _)];
    rewrite Hq in Hd; [contradiction|].
  destruct Hd as [<-|[]].
  unfold calc_units in U. rewrite Hs in U. simpl in U.
  injection U as <-. unfold order_of. simpl. rewrite Hs. auto.
Qed.

(** ** The handler *)

(** What one turn of the loop over the signals leaves behind. *)
Lemma execute_turn_runs (f : float -> str) (sig : TradeSignal)
      (sender : str) (t : trace) (out : outcome unit) :
  runs (_ <~ call (Print (ParsedSignal sig)) ;; execute_order f sig sender)
       t out ->
  (requested t = [] /\ accepted t = [] /\ exists e, out = Raised e)
  \/ exists d,
       order_for f d sig /\ requested t = [d]
       /\ (accepted t = [d] \/ accepted t = [] /\ exists e, out = Raised e)
       /\ (out = Returned tt -> accepted t = [d]).
Proof.
  intros H. apply runs_bind in H.
  destruct H as [(t1 & [] & t2 & H1 & H & ->)|(e & H1 & ->)];
    apply runs_call in H1; subst.
  - apply execute_order_runs in H.
    destruct H as [(Hq & Ha & _ & He)
                  |(resp & bal & units & _ & _ & _ & Hq & Ha & _ & Ho)].
    + left. rewrite requested_app, accepted_app, Hq, Ha. auto.
    + right. exists (order_of f sig units). split; [now exists units|].
      rewrite requested_app, accepted_app, Hq. simpl. split; [reflexivity|].
      split.
      * destruct Ha as [->|(-> & _ & He)]; rewrite ?Hq; auto.
      * intros E. destruct (Ho E) as [-> _]. now rewrite Hq.
  - left. simpl. eauto.
Qed.

(** The runs of the loop over the signals. *)
Lemma execute_each_runs (f : float -> str) (sender : str)
      (sigs : list TradeSignal) (t : trace) (out : outcome unit) :
  runs (execute_each f sender sigs) t out ->
  Forall2 (order_for f) (requested t)
          (firstn (List.length (requested t)) sigs)
  /\ (List.length (requested t) <= List.length sigs)%nat
  /\ (accepted t = requested t
      \/ exists d e, requested t = accepted t ++ [d] /\ out = Raised e)
  /\ ((List.length (requested t) < List.length sigs)%nat ->
      exists e, out = Raised e)
  /\ (out = Returned tt -> accepted t = requested t).
Proof.
  revert t. induction sigs as [|sig sigs IH]; intros t H.
  - simpl in H. destruct H as [-> ->]. simpl.
    repeat split; auto; try lia.
  - cbn [execute_each] in H.
    assert (H' : runs (_ <~ (_ <~ call (Print (ParsedSignal sig)) ;;
                             execute_order f sig sender) ;;
                       execute_each f sender sigs) t out).
    { apply runs_bind. apply runs_bind in H.
      destruct H as [(t1 & [] & t2 & H1 & H & ->)|(e & H1 & ->)].
      - apply runs_bind in H.
        destruct H as [(t3 & [] & t4 & H3 & H & ->)|(e & H3 & ->)].
        + left. exists (t1 ++ t3), tt, t4. rewrite app_assoc.
          repeat split; auto. apply runs_bind. left. exists t1, tt, t3. auto.
        + right. exists e. split; [|reflexivity].
          apply runs_bind. left. exists t1, tt, t2. auto.
      - right. exists e. split; [|reflexivity]. apply runs_bind. right.
        exists e. auto. }
    clear H. apply runs_bind in H'.
    destruct H' as [(t1 & [] & t2 & H1 & H2 & ->)|(e & H1 & ->)].
    + apply execute_turn_runs in H1. apply IH in H2.
      destruct H2 as (F & L & A & S & R).
      destruct H1 as [(_ & _ & e & [=])|(d & Hd & Hq & _ & Ha)].
      specialize (Ha eq_refl).
      rewrite requested_app, accepted_app, Hq, Ha. simpl.
      repeat split.
      * now constructor.
      * lia.
      * destruct A as [->|(d' & e & -> & ->)]; [now left|].
        right. exists d', e. auto.
      * intros Hlt. apply S. lia.
      * intros E. now rewrite (R E).
    + apply execute_turn_runs in H1.
      destruct H1 as [(Hq & Ha & _)|(d & Hd & Hq & Ha & _)];
        rewrite Hq; simpl.
      * rewrite Ha. repeat split; eauto; try lia.
      * repeat split; eauto; try lia; try discriminate.
        destruct Ha as [->|[-> _]]; [now left|].
        right. exists d, e. auto.
Qed.

(** The runs of the handler. *)
Lemma handler_runs (f : float -> str) (ev : event) (t : trace)
      (out : outcome unit) :
  runs (handler f ev) t out ->
  (fwd_from ev = true /\ t = [] /\ out = Returned tt)
  \/ (fwd_from ev = false
      /\ exists r t',
           t = Io GetChat r :: t'
           /\ ((exists e, r = Raised e /\ t' = [] /\ out = Raised e)
               \/ (allowed (chat_id ev) = false /\ t' = []
                   /\ out = Returned tt)
               \/ (allowed (chat_id ev) = true
                   /\ exists c p t'',
                        r = Returned c
                        /\ t' = Io (Print (NewMessage
                                             (sender_of c (chat_id ev))
                                             (text_of ev))) p :: t''
                        /\ ((exists e, p = Raised e /\ t'' = []
                                       /\ out = Raised e)
                            \/ (exists e,
                                   p = Returned tt
                                   /\ parse_signals (text_of ev) = Raise e
                                   /\ t'' = [] /\ out = Raised (Exn e))
                            \/ (p = Returned tt
                                /\ parse_signals (text_of ev) = Ok []
                                /\ t'' = [Io (Print NoSignals) out])
                            \/ (exists sigs,
                                   p = Returned tt
                                   /\ parse_signals (text_of ev) = Ok sigs
                                   /\ sigs <> []
                                   /\ runs (execute_each
                                              f (sender_of c (chat_id ev))
                                              sigs) t'' out))))).
Proof.
  unfold handler. fold (text_of ev).
  destruct (fwd_from ev); [intros [-> ->]; left; auto|].
  intros H. right. split; [reflexivity|].
  simpl in H. destruct H as (r & t' & -> & H). exists r, t'.
  split; [reflexivity|].
  destruct r as [c|e]; simpl in H; [|destruct H as [-> ->]; left; eauto].
  right.
  destruct (allowed (chat_id ev)); simpl in H;
    [|destruct H as [-> ->]; left; auto].
  right. split; [reflexivity|].
  destruct H as (p & t'' & -> & H). exists c, p, t''.
  split; [reflexivity|]. split; [reflexivity|].
  destruct p as [[]|e]; simpl in H; [|destruct H as [-> ->]; left; eauto].
  right.
  destruct (parse_signals (text_of ev)) as [sigs|e]; simpl in H;
    [|destruct H as [-> ->]; left; eauto].
  right. destruct sigs as [|sig sigs].
  - left. repeat split. now apply runs_call in H.
  - right. exists (sig :: sigs). repeat split; [discriminate|exact H].
Qed.

Lemma harmless_no_order (t : trace) :
  forallb harmless t = true -> requested t = [] /\ accepted t = [].
Proof.
  unfold requested, accepted.
  induction t as [|[X o r] t IH]; simpl; [auto|].
  intros H. apply andb_true_iff in H. destruct H as [Ho Ht].
  destruct (IH Ht) as [-> Ha].
  destruct o; try discriminate; destruct r; simpl; auto.
Qed.

(** X13: the handler does nothing at all for a forwarded message, and for a
    message of a chat that is not on the list it looks the chat up and
    does nothing else.  Unless the text parses to at least one signal it
    reaches neither OANDA nor the log: it only looks the chat up and
    prints. *)
Theorem handler_gate (str_of_float : float -> str) (ev : event) (t : trace)
        (out : outcome unit) :
  runs (handler str_of_float ev) t out ->
  (fwd_from ev = true -> t = [] /\ out = Returned tt)
  /\ (allowed (chat_id ev) = false ->
      forallb is_get_chat t = true /\ (List.length t <= 1)%nat)
  /\ ((forall sig sigs, parse_signals (text_of ev) <> Ok (sig :: sigs)) ->
      forallb harmless t = true).
Proof.
  intros H. apply handler_runs in H.
  destruct H as [(F & -> & ->)|(F & r & t' & -> & H)].
  - repeat split; simpl; auto.
  - split; [congruence|].
    destruct H as [(e & -> & -> & ->)|[(A & -> & ->)|(A & c & p & t'' & -> & ->
                                                      & H)]].
    + repeat split; simpl; auto.
    + repeat split; simpl; auto.
    + split; [congruence|]. intros N. simpl.
      destruct H as [(e & -> & -> & ->)|[(e & -> & P & -> & ->)|[(-> & P & ->)
                                                            |(sigs & -> & P & Hn & _)]]];
        try reflexivity.
      destruct sigs as [|sig sigs]; [congruence|]. now destruct (N sig sigs).
Qed.

Ltac leaf :=
  simpl;
  repeat match goal with
         | |- _ /\ _ => split
         | |- _ -> _ => intro
         end;
  eauto; try discriminate; try congruence; try lia; try constructor.

(** X14: the orders the handler asks OANDA for are those of the signals of
    the message, one each, in the order of the signals, and they stop at
    the first failure: every order but the last was taken, and fewer
    orders than signals are asked for only when the run ends with an
    exception.  A run that returns has had one order taken for each
    signal. *)
Theorem handler_orders_follow_signals (str_of_float : float -> str)
        (ev : event) (sigs : list TradeSignal) (t : trace)
        (out : outcome unit) :
  runs (handler str_of_float ev) t out ->
  parse_signals (text_of ev) = Ok sigs ->
  Forall2 (order_for str_of_float) (requested t)
          (firstn (List.length (requested t)) sigs)
  /\ (accepted t = requested t
      \/ exists d e, requested t = accepted t ++ [d] /\ out = Raised e)
  /\ (fwd_from ev = false -> allowed (chat_id ev) = true ->
      ((List.length (requested t) < List.length sigs)%nat ->
       exists e, out = Raised e)
      /\ (out = Returned tt ->
          accepted t = requested t
          /\ List.length (accepted t) = List.length sigs)).
Proof.
  intros H P. apply handler_runs in H.
  destruct H as [(F & -> & ->)|(F & r & t' & -> & H)].
  - leaf.
  - destruct H as [(e & -> & -> & ->)|[(A & -> & ->)|(A & c & p & t'' & -> & ->
                                                      & H)]].
    + leaf.
    + destruct r; leaf.
    + destruct H as [(e & -> & -> & ->)|[(e & -> & P' & -> & ->)|[(-> & P' & ->)
                                                             |(sigs' & -> & P' & Hn & H)]]].
      * leaf.
      * congruence.
      * rewrite P in P'. injection P' as ->. destruct out; leaf.
      * rewrite P in P'. injection P' as <-.
        apply execute_each_runs in H. destruct H as (Hf & Hl & Ha & Hs & Hr).
        change (requested (Io GetChat (Returned c)
                           :: Io (Print (NewMessage (sender_of c (chat_id ev))
                                                    (text_of ev)))
                                 (Returned tt) :: t''))
          with (requested t'').
        change (accepted (Io GetChat (Returned c)
                           :: Io (Print (NewMessage (sender_of c (chat_id ev))
                                                    (text_of ev)))
                                 (Returned tt) :: t''))
          with (accepted t'').
        split; [exact Hf|]. split; [exact Ha|]. intros _ _.
        split; [exact Hs|]. intros E. split; [exact (Hr E)|].
        rewrite (Hr E).
        destruct (Nat.lt_ge_cases (List.length (requested t''))
                                  (List.length sigs)) as [Hlt|Hge]; [|lia].
        destruct (Hs Hlt) as (e & He). congruence.
Qed.

(** ** Runs that exist *)

Ltac run_here :=
  cbn;
  repeat first
    [ split; reflexivity
    | do 2 eexists; split; [reflexivity|]; cbn ].

Lemma log_run (source : str) :
  runs (log_trade blank naked_sell source 100 (lit "LIVE"))
       (log_trace source) (Returned tt).
Proof. run_here. Qed.

Lemma order_run (source : str) :
  runs (execute_order blank naked_sell source) (order_trace source)
       (Returned tt).
Proof. run_here. Qed.

Lemma parse_sell : parse_signals (text_of sell_event) = Ok [naked_sell].
Proof. vm_compute. reflexivity. Qed.

Lemma sell_run : runs (handler blank sell_event) sell_trace (Returned tt).
Proof.
  unfold handler. fold (text_of sell_event). rewrite parse_sell.
  cbn -[execute_order order_trace].
  do 3 (do 2 eexists; split; [reflexivity|];
        cbn -[execute_order order_trace]).
  apply runs_bind. left. exists (order_trace (lit "Signals")), tt, [].
  split; [apply order_run|]. split; [split; reflexivity|].
  now rewrite app_nil_r.
Qed.

Lemma stranger_run :
  runs (handler blank stranger_event) [Io GetChat (Returned signals_chat)]
       (Returned tt).
Proof.
  unfold handler. generalize (parse_signals (str_or (message stranger_event) [])).
  intros p. cbn. do 2 eexists. split; [reflexivity|]. cbn.
  split; reflexivity.
Qed.

Lemma log_trade_rows_witness :
  exists (file_exists : bool) (now : str),
    let row := log_row blank now naked_sell (lit "Signals") 100 (lit "LIVE") in
    prefix (written (log_trace (lit "Signals"))) (trade_rows file_exists row)
    /\ (written (log_trace (lit "Signals")) = []
        \/ file_reports (log_trace (lit "Signals")) = [file_exists])
    /\ (Returned tt = Returned tt ->
        logged (log_trace (lit "Signals")) = trade_rows file_exists row)
    /\ (existsb opens (log_trace (lit "Signals")) = true ->
        closed_last (log_trace (lit "Signals")) = true)
    /\ (written (log_trace (lit "Signals")) <> [] ->
        existsb opens (log_trace (lit "Signals")) = true).
Proof.
  apply (log_trade_rows blank naked_sell (lit "Signals") 100 (lit "LIVE")
                        (log_trace (lit "Signals")) (Returned tt)).
  apply log_run.
Defined.

Lemma execute_order_one_order_witness :
  (requested (order_trace (lit "Signals")) = []
   /\ written (order_trace (lit "Signals")) = []
   /\ exists e, Returned tt = Raised e)
  \/ exists resp bal units,
       account_replies (order_trace (lit "Signals")) = [resp]
       /\ balance_of resp = Returned bal
       /\ calc_units bal naked_sell = Ok units
       /\ requested (order_trace (lit "Signals"))
          = [order_of blank naked_sell units]
       /\ (written (order_trace (lit "Signals")) = []
           \/ accepted (order_trace (lit "Signals"))
              = requested (order_trace (lit "Signals")))
       /\ Forall (row_of blank naked_sell (lit "Signals") units (lit "LIVE"))
                 (written (order_trace (lit "Signals")))
       /\ (Returned tt = Returned tt ->
           accepted (order_trace (lit "Signals"))
           = requested (order_trace (lit "Signals"))
           /\ exists now,
                In (log_row blank now naked_sell (lit "Signals") units
                            (lit "LIVE"))
                   (logged (order_trace (lit "Signals")))).
Proof.
  apply (execute_order_one_order blank naked_sell (lit "Signals")
                                 (order_trace (lit "Signals")) (Returned tt)).
  apply order_run.
Defined.

Lemma order_without_stop_witness :
  o_instrument (order_of blank naked_sell 100) = instrument naked_sell
  /\ o_units (order_of blank naked_sell 100) = lit "100"
  /\ o_stopLossOnFill (order_of blank naked_sell 100) = None.
Proof.
  apply (order_without_stop blank naked_sell (lit "Signals")
                            (order_trace (lit "Signals")) (Returned tt)).
  - apply order_run.
  - reflexivity.
  - simpl. auto.
Defined.

Lemma handler_gate_witness :
  (fwd_from stranger_event = true ->
   [Io GetChat (Returned signals_chat)] = [] /\ Returned tt = Returned tt)
  /\ (allowed (chat_id stranger_event) = false ->
      forallb is_get_chat [Io GetChat (Returned signals_chat)] = true
      /\ (List.length [Io GetChat (Returned signals_chat)] <= 1)%nat)
  /\ ((forall sig sigs,
          parse_signals (text_of stranger_event) <> Ok (sig :: sigs)) ->
      forallb harmless [Io GetChat (Returned signals_chat)] = true).
Proof.
  apply (handler_gate blank stranger_event
                      [Io GetChat (Returned signals_chat)] (Returned tt)).
  apply stranger_run.
Defined.

Lemma handler_orders_follow_signals_witness :
  Forall2 (order_for blank) (requested sell_trace)
          (firstn (List.length (requested sell_trace)) [naked_sell])
  /\ (accepted sell_trace = requested sell_trace
      \/ exists d e,
           requested sell_trace = accepted sell_trace ++ [d]
           /\ Returned tt = Raised e)
  /\ (fwd_from sell_event = false -> allowed (chat_id sell_event) = true ->
      ((List.length (requested sell_trace) < List.length [naked_sell])%nat ->
       exists e, Returned tt = Raised e)
      /\ (Returned tt = Returned tt ->
          accepted sell_trace = requested sell_trace
          /\ List.length (accepted sell_trace) = List.length [naked_sell])).
Proof.
  apply (handler_orders_follow_signals blank sell_event [naked_sell]
                                       sell_trace (Returned tt)).
  - apply sell_run.
  - apply parse_sell.
Defined.

